(** * MSFT_lod: progressive level-of-detail loading for glTF 2.0

    A shallow embedding of [loaders/src/glTF/2.0/Extensions/MSFT_lod.ts]
    (Babylon.js glTF loader) and the properties of its LOD list, its
    byte-range buckets, its deferred signals and its level events.

    The extension object is a record of its private fields; its methods
    are state-passing functions in a state-and-exception monad; promises
    live in an explicit store whose reactions are run one at a time by a
    scheduler; closures are first-order values. *)

From Stdlib Require Import ZArith Lia.
From Stdlib.Strings Require Import Byte.
From stdpp Require Import base tactics option list numbers strings gmap.

(** ** Results of fallible code *)

(** The exceptions the extension raises or runs into. *)
Inductive Error : Type :=
  | ErrMaxLODs                (* "maxLODsToLoad must be greater than zero" *)
  | ErrArrayItem (id : Z)     (* ArrayItem.Get: "Failed to find index (id)" *)
  | ErrMissingBin             (* "Uri is missing or the binary glTF is missing its binary chunk" *)
  | TypeError                 (* property access on undefined *)
  | RangeError.               (* typed-array view out of bounds *)

Inductive Res (A : Type) : Type :=
  | Ok (a : A)
  | Throw (e : Error).
Arguments Ok {A} a.
Arguments Throw {A} e.

(** ** JavaScript arrays

    An array that is written by index may have holes; reading a hole or
    reading past the end gives [undefined]. *)

Abbreviation JsArray A := (list (option A)) (only parsing).

(** [a[i]] *)
Definition js_get {A} (a : JsArray A) (i : nat) : option A :=
  match a !! i with
  | Some (Some x) => Some x
  | _ => None
  end.

(** [a[i] = x]: in range it overwrites, out of range it extends the
    array, leaving holes below [i]. *)
Definition js_set {A} (i : nat) (x : A) (a : JsArray A) : JsArray A :=
  if decide (i < length a)%nat then <[i := Some x]> a
  else a ++ replicate (i - length a) None ++ [Some x].

(** ** The LOD list: [_getLODs] *)

(** Modelled from the spec: [ArrayItem.Get] of glTFLoader.ts, the
    index-checked lookup into a declared array ("resolveArrayElement"):
    it fails when the array is absent or the index is out of range. *)
Definition ArrayItem_Get {T} (array : option (list T)) (index : Z) : Res T :=
  match array with
  | None => Throw (ErrArrayItem index)
  | Some a =>
      if (index <? 0)%Z then Throw (ErrArrayItem index)
      else match a !! Z.to_nat index with
           | Some x => Ok x
           | None => Throw (ErrArrayItem index)
           end
  end.

(** The loop [for (let i = ids.length - 1; i >= 0; i--)]: [rids] is what
    is left of the ids, last declared first; [properties] is the array
    built so far. *)
Fixpoint getLODs_loop {T} (maxLODsToLoad : Z) (property : T)
    (array : option (list T)) (rids : list Z) (properties : list T) : Res (list T) :=
  match rids with
  | [] => Ok (properties ++ [property])
  | id :: rids' =>
      match ArrayItem_Get array id with
      | Throw e => Throw e
      | Ok item =>
          let properties := properties ++ [item] in
          if (Z.of_nat (length properties) =? maxLODsToLoad)%Z then Ok properties
          else getLODs_loop maxLODsToLoad property array rids' properties
      end
  end.

Definition _getLODs {T} (maxLODsToLoad : Z) (property : T)
    (array : option (list T)) (ids : list Z) : Res (list T) :=
  if (maxLODsToLoad <=? 0)%Z then Throw ErrMaxLODs
  else getLODs_loop maxLODsToLoad property array (reverse ids) [].

(** ** glTF properties and scene objects *)

(** A glTF node or material: its position in the glTF array and the
    [ids] of its [MSFT_lod] extension, when it has one. *)
Record INode : Type := { node_index : nat; node_lod : option (list Z) }.
Record IMaterial : Type := { material_index : nat; material_lod : option (list Z) }.
Record IBuffer : Type := { buffer_uri : option string }.

(** Scene objects and promises are known by their identity. *)
Abbreviation pid := nat (only parsing).
Abbreviation TransformNode := nat (only parsing).
Abbreviation Material := nat (only parsing).
Abbreviation Mesh := nat (only parsing).

(** [material._data[drawMode]]: the Babylon material built for a glTF
    material and the meshes that were given it. *)
Record MaterialData : Type := { babylonMaterial : Material; babylonMeshes : list Mesh }.

(** An [ArrayBufferView]: a window of [byteLength] bytes at [byteOffset]
    of an underlying buffer. *)
Record ArrayBufferView : Type :=
  { view_buffer : list byte; byteOffset : Z; byteLength : Z }.

Definition view_bytes (v : ArrayBufferView) : list byte :=
  take (Z.to_nat (byteLength v)) (drop (Z.to_nat (byteOffset v)) (view_buffer v)).

(** [new Uint8Array(buffer, byteOffset, length)] *)
Definition new_Uint8Array (buffer : list byte) (offset len : Z) : Res ArrayBufferView :=
  if ((offset <? 0) || (len <? 0) || (Z.of_nat (length buffer) <? offset + len))%Z
  then Throw RangeError
  else Ok {| view_buffer := buffer; byteOffset := offset; byteLength := len |}.

(** [this._loader]: what the extension reads from its parent loader. *)
Record GLTFLoader : Type := {
  useRangeRequests : bool;                 (* _loader.parent.useRangeRequests *)
  bin : bool;                              (* _loader.bin is present *)
  gltf_nodes : option (list INode);        (* _loader.gltf.nodes *)
  gltf_materials : option (list IMaterial) (* _loader.gltf.materials *)
}.

(** [{ start, end, loaded }]: the byte range of one level and the
    deferred that receives its bytes. *)
Record BufferLOD : Type := { start : Z; end_ : Z; loaded : pid }.

(** ** Promises *)

Inductive Value : Type :=
  | VUndefined
  | VNode (babylonMesh : TransformNode)
  | VMaterial (babylonMaterial : Material)
  | VView (data : ArrayBufferView).

(** Which of the two LOD sequences: nodes or materials. *)
Inductive LodKind : Type := NodeLOD | MaterialLOD.

(** The closures of the file, with what they capture. *)
Inductive Callback : Type :=
  | CbLevelLoaded (k : LodKind) (indexLOD : nat)
      (* onReady: Promise.all(...).then(() => ...) *)
  | CbNodeLOD (nodeLODs : list INode) (indexLOD : nat)
      (* loadNodeAsync: loadNodeAsync(...).then((babylonMesh) => ...) *)
  | CbMaterialLOD (materialLODs : list IMaterial) (indexLOD : nat)
      (babylonMesh : Mesh) (babylonDrawMode : nat)
      (* _loadMaterialAsync: _loadMaterialAsync(...).then((babylonMaterial) => ...) *)
  | CbLoadUri (uri : string)
      (* _loadUriAsync: signal.promise.then(() => loadUriAsync(...)) *)
  | CbBufferView (bufferLOD : nat) (byteOffset byteLength : Z)
      (* loadBufferAsync: bufferLOD.loaded.promise.then((data) => ...) *)
  | CbBufferRead (bufferLOD : nat).
      (* _loadBufferLOD: readAsync(...).then((data) => ..., (error) => ...) *)

Inductive PState : Type :=
  | Pending
  | Adopted (q : pid)        (* resolved with the promise [q], not settled yet *)
  | Fulfilled (v : Value)
  | Rejected.

Inductive PKind : Type :=
  | KExternal                          (* settled by the loader or the transport *)
  | KDeferred                          (* new Deferred(): settled by resolve / reject *)
  | KThen (src : pid) (cb : Callback)  (* src.then(cb) *)
  | KAll (srcs : option (list pid)).   (* Promise.all(srcs) *)

Record PCell : Type := { kind : PKind; state : PState }.

Definition settled (s : PState) : bool :=
  match s with Fulfilled _ | Rejected => true | _ => false end.

(** ** What the program does to the outside, in order *)

Inductive Event : Type :=
  | EvNew (p : pid) (k : PKind)              (* promise [p] created *)
  | EvSettled (p : pid) (s : PState)         (* promise [p] fulfilled or rejected *)
  | EvAdopted (p q : pid)                    (* promise [p] resolved with promise [q] *)
  | EvNotify (by_ : pid) (k : LodKind) (indexLOD : nat)
      (* on{Node,Material}LODsLoadedObservable.notifyObservers(indexLOD) *)
  | EvSetEnabled (by_ : option pid) (n : TransformNode) (enabled : bool)
  | EvDisposeNode (by_ : pid) (node : INode) (n : TransformNode)
  | EvDisposeMaterial (by_ : option pid) (m : Material)
  | EvLoadUri (by_ : option pid) (uri : string) (q : pid)   (* _loader.loadUriAsync *)
  | EvReadAsync (offset len : Z) (q : pid).                 (* _loader.bin.readAsync *)

(** ** The state

    The fields of the [MSFT_lod] object under their own names, then the
    objects it shares with the loader: the range buckets (shared with the
    closures that captured them), the fields the loader keeps on nodes,
    materials and meshes, the promise store and the trace of events. *)

Record World : Type := {
  maxLODsToLoad : Z;
  _loader : option GLTFLoader; (* deleted by dispose *)
  _nodeIndexLOD : option nat;
  _nodeSignalLODs : JsArray pid;
  _nodeSignalLODs_m1 : option pid; (* the property of name -1 *)
  _nodePromiseLODs : JsArray (list pid);
  _materialIndexLOD : option nat;
  _materialSignalLODs : JsArray pid;
  _materialSignalLODs_m1 : option pid; (* the property of name -1 *)
  _materialPromiseLODs : JsArray (list pid);
  _indexLOD : option nat;
  _bufferLODs : JsArray nat; (* references into bufferLOD_heap *)
  bufferLOD_heap : list BufferLOD;
  node_babylonTransformNode : gmap nat TransformNode; (* node._babylonTransformNode *)
  material_data : gmap nat (JsArray MaterialData); (* material._data[drawMode] *)
  mesh_material : gmap Mesh Material; (* babylonMesh.material *)
  next_object : nat; (* next fresh scene object *)
  store : list PCell; (* the promises, by identity *)
  trace : list Event (* latest event first *)
}.

Definition set_maxLODsToLoad (v : Z) (w : World) : World :=
  {| maxLODsToLoad := v; _loader := _loader w; _nodeIndexLOD := _nodeIndexLOD w; _nodeSignalLODs
  := _nodeSignalLODs w; _nodeSignalLODs_m1 := _nodeSignalLODs_m1 w; _nodePromiseLODs :=
  _nodePromiseLODs w; _materialIndexLOD := _materialIndexLOD w; _materialSignalLODs :=
  _materialSignalLODs w; _materialSignalLODs_m1 := _materialSignalLODs_m1 w; _materialPromiseLODs
  := _materialPromiseLODs w; _indexLOD := _indexLOD w; _bufferLODs := _bufferLODs w;
  bufferLOD_heap := bufferLOD_heap w; node_babylonTransformNode := node_babylonTransformNode w;
  material_data := material_data w; mesh_material := mesh_material w; next_object := next_object
  w; store := store w; trace := trace w |}.
Definition set_loader (v : option GLTFLoader) (w : World) : World :=
  {| maxLODsToLoad := maxLODsToLoad w; _loader := v; _nodeIndexLOD := _nodeIndexLOD w;
  _nodeSignalLODs := _nodeSignalLODs w; _nodeSignalLODs_m1 := _nodeSignalLODs_m1 w;
  _nodePromiseLODs := _nodePromiseLODs w; _materialIndexLOD := _materialIndexLOD w;
  _materialSignalLODs := _materialSignalLODs w; _materialSignalLODs_m1 := _materialSignalLODs_m1
  w; _materialPromiseLODs := _materialPromiseLODs w; _indexLOD := _indexLOD w; _bufferLODs :=
  _bufferLODs w; bufferLOD_heap := bufferLOD_heap w; node_babylonTransformNode :=
  node_babylonTransformNode w; material_data := material_data w; mesh_material := mesh_material w;
  next_object := next_object w; store := store w; trace := trace w |}.
Definition set_nodeIndexLOD (v : option nat) (w : World) : World :=
  {| maxLODsToLoad := maxLODsToLoad w; _loader := _loader w; _nodeIndexLOD := v; _nodeSignalLODs
  := _nodeSignalLODs w; _nodeSignalLODs_m1 := _nodeSignalLODs_m1 w; _nodePromiseLODs :=
  _nodePromiseLODs w; _materialIndexLOD := _materialIndexLOD w; _materialSignalLODs :=
  _materialSignalLODs w; _materialSignalLODs_m1 := _materialSignalLODs_m1 w; _materialPromiseLODs
  := _materialPromiseLODs w; _indexLOD := _indexLOD w; _bufferLODs := _bufferLODs w;
  bufferLOD_heap := bufferLOD_heap w; node_babylonTransformNode := node_babylonTransformNode w;
  material_data := material_data w; mesh_material := mesh_material w; next_object := next_object
  w; store := store w; trace := trace w |}.
Definition set_nodeSignalLODs (v : JsArray pid) (w : World) : World :=
  {| maxLODsToLoad := maxLODsToLoad w; _loader := _loader w; _nodeIndexLOD := _nodeIndexLOD w;
  _nodeSignalLODs := v; _nodeSignalLODs_m1 := _nodeSignalLODs_m1 w; _nodePromiseLODs :=
  _nodePromiseLODs w; _materialIndexLOD := _materialIndexLOD w; _materialSignalLODs :=
  _materialSignalLODs w; _materialSignalLODs_m1 := _materialSignalLODs_m1 w; _materialPromiseLODs
  := _materialPromiseLODs w; _indexLOD := _indexLOD w; _bufferLODs := _bufferLODs w;
  bufferLOD_heap := bufferLOD_heap w; node_babylonTransformNode := node_babylonTransformNode w;
  material_data := material_data w; mesh_material := mesh_material w; next_object := next_object
  w; store := store w; trace := trace w |}.
Definition set_nodeSignalLODs_m1 (v : option pid) (w : World) : World :=
  {| maxLODsToLoad := maxLODsToLoad w; _loader := _loader w; _nodeIndexLOD := _nodeIndexLOD w;
  _nodeSignalLODs := _nodeSignalLODs w; _nodeSignalLODs_m1 := v; _nodePromiseLODs :=
  _nodePromiseLODs w; _materialIndexLOD := _materialIndexLOD w; _materialSignalLODs :=
  _materialSignalLODs w; _materialSignalLODs_m1 := _materialSignalLODs_m1 w; _materialPromiseLODs
  := _materialPromiseLODs w; _indexLOD := _indexLOD w; _bufferLODs := _bufferLODs w;
  bufferLOD_heap := bufferLOD_heap w; node_babylonTransformNode := node_babylonTransformNode w;
  material_data := material_data w; mesh_material := mesh_material w; next_object := next_object
  w; store := store w; trace := trace w |}.
Definition set_nodePromiseLODs (v : JsArray (list pid)) (w : World) : World :=
  {| maxLODsToLoad := maxLODsToLoad w; _loader := _loader w; _nodeIndexLOD := _nodeIndexLOD w;
  _nodeSignalLODs := _nodeSignalLODs w; _nodeSignalLODs_m1 := _nodeSignalLODs_m1 w;
  _nodePromiseLODs := v; _materialIndexLOD := _materialIndexLOD w; _materialSignalLODs :=
  _materialSignalLODs w; _materialSignalLODs_m1 := _materialSignalLODs_m1 w; _materialPromiseLODs
  := _materialPromiseLODs w; _indexLOD := _indexLOD w; _bufferLODs := _bufferLODs w;
  bufferLOD_heap := bufferLOD_heap w; node_babylonTransformNode := node_babylonTransformNode w;
  material_data := material_data w; mesh_material := mesh_material w; next_object := next_object
  w; store := store w; trace := trace w |}.
Definition set_materialIndexLOD (v : option nat) (w : World) : World :=
  {| maxLODsToLoad := maxLODsToLoad w; _loader := _loader w; _nodeIndexLOD := _nodeIndexLOD w;
  _nodeSignalLODs := _nodeSignalLODs w; _nodeSignalLODs_m1 := _nodeSignalLODs_m1 w;
  _nodePromiseLODs := _nodePromiseLODs w; _materialIndexLOD := v; _materialSignalLODs :=
  _materialSignalLODs w; _materialSignalLODs_m1 := _materialSignalLODs_m1 w; _materialPromiseLODs
  := _materialPromiseLODs w; _indexLOD := _indexLOD w; _bufferLODs := _bufferLODs w;
  bufferLOD_heap := bufferLOD_heap w; node_babylonTransformNode := node_babylonTransformNode w;
  material_data := material_data w; mesh_material := mesh_material w; next_object := next_object
  w; store := store w; trace := trace w |}.
Definition set_materialSignalLODs (v : JsArray pid) (w : World) : World :=
  {| maxLODsToLoad := maxLODsToLoad w; _loader := _loader w; _nodeIndexLOD := _nodeIndexLOD w;
  _nodeSignalLODs := _nodeSignalLODs w; _nodeSignalLODs_m1 := _nodeSignalLODs_m1 w;
  _nodePromiseLODs := _nodePromiseLODs w; _materialIndexLOD := _materialIndexLOD w;
  _materialSignalLODs := v; _materialSignalLODs_m1 := _materialSignalLODs_m1 w;
  _materialPromiseLODs := _materialPromiseLODs w; _indexLOD := _indexLOD w; _bufferLODs :=
  _bufferLODs w; bufferLOD_heap := bufferLOD_heap w; node_babylonTransformNode :=
  node_babylonTransformNode w; material_data := material_data w; mesh_material := mesh_material w;
  next_object := next_object w; store := store w; trace := trace w |}.
Definition set_materialSignalLODs_m1 (v : option pid) (w : World) : World :=
  {| maxLODsToLoad := maxLODsToLoad w; _loader := _loader w; _nodeIndexLOD := _nodeIndexLOD w;
  _nodeSignalLODs := _nodeSignalLODs w; _nodeSignalLODs_m1 := _nodeSignalLODs_m1 w;
  _nodePromiseLODs := _nodePromiseLODs w; _materialIndexLOD := _materialIndexLOD w;
  _materialSignalLODs := _materialSignalLODs w; _materialSignalLODs_m1 := v; _materialPromiseLODs
  := _materialPromiseLODs w; _indexLOD := _indexLOD w; _bufferLODs := _bufferLODs w;
  bufferLOD_heap := bufferLOD_heap w; node_babylonTransformNode := node_babylonTransformNode w;
  material_data := material_data w; mesh_material := mesh_material w; next_object := next_object
  w; store := store w; trace := trace w |}.
Definition set_materialPromiseLODs (v : JsArray (list pid)) (w : World) : World :=
  {| maxLODsToLoad := maxLODsToLoad w; _loader := _loader w; _nodeIndexLOD := _nodeIndexLOD w;
  _nodeSignalLODs := _nodeSignalLODs w; _nodeSignalLODs_m1 := _nodeSignalLODs_m1 w;
  _nodePromiseLODs := _nodePromiseLODs w; _materialIndexLOD := _materialIndexLOD w;
  _materialSignalLODs := _materialSignalLODs w; _materialSignalLODs_m1 := _materialSignalLODs_m1
  w; _materialPromiseLODs := v; _indexLOD := _indexLOD w; _bufferLODs := _bufferLODs w;
  bufferLOD_heap := bufferLOD_heap w; node_babylonTransformNode := node_babylonTransformNode w;
  material_data := material_data w; mesh_material := mesh_material w; next_object := next_object
  w; store := store w; trace := trace w |}.
Definition set_indexLOD (v : option nat) (w : World) : World :=
  {| maxLODsToLoad := maxLODsToLoad w; _loader := _loader w; _nodeIndexLOD := _nodeIndexLOD w;
  _nodeSignalLODs := _nodeSignalLODs w; _nodeSignalLODs_m1 := _nodeSignalLODs_m1 w;
  _nodePromiseLODs := _nodePromiseLODs w; _materialIndexLOD := _materialIndexLOD w;
  _materialSignalLODs := _materialSignalLODs w; _materialSignalLODs_m1 := _materialSignalLODs_m1
  w; _materialPromiseLODs := _materialPromiseLODs w; _indexLOD := v; _bufferLODs := _bufferLODs w;
  bufferLOD_heap := bufferLOD_heap w; node_babylonTransformNode := node_babylonTransformNode w;
  material_data := material_data w; mesh_material := mesh_material w; next_object := next_object
  w; store := store w; trace := trace w |}.
Definition set_bufferLODs (v : JsArray nat) (w : World) : World :=
  {| maxLODsToLoad := maxLODsToLoad w; _loader := _loader w; _nodeIndexLOD := _nodeIndexLOD w;
  _nodeSignalLODs := _nodeSignalLODs w; _nodeSignalLODs_m1 := _nodeSignalLODs_m1 w;
  _nodePromiseLODs := _nodePromiseLODs w; _materialIndexLOD := _materialIndexLOD w;
  _materialSignalLODs := _materialSignalLODs w; _materialSignalLODs_m1 := _materialSignalLODs_m1
  w; _materialPromiseLODs := _materialPromiseLODs w; _indexLOD := _indexLOD w; _bufferLODs := v;
  bufferLOD_heap := bufferLOD_heap w; node_babylonTransformNode := node_babylonTransformNode w;
  material_data := material_data w; mesh_material := mesh_material w; next_object := next_object
  w; store := store w; trace := trace w |}.
Definition set_bufferLOD_heap (v : list BufferLOD) (w : World) : World :=
  {| maxLODsToLoad := maxLODsToLoad w; _loader := _loader w; _nodeIndexLOD := _nodeIndexLOD w;
  _nodeSignalLODs := _nodeSignalLODs w; _nodeSignalLODs_m1 := _nodeSignalLODs_m1 w;
  _nodePromiseLODs := _nodePromiseLODs w; _materialIndexLOD := _materialIndexLOD w;
  _materialSignalLODs := _materialSignalLODs w; _materialSignalLODs_m1 := _materialSignalLODs_m1
  w; _materialPromiseLODs := _materialPromiseLODs w; _indexLOD := _indexLOD w; _bufferLODs :=
  _bufferLODs w; bufferLOD_heap := v; node_babylonTransformNode := node_babylonTransformNode w;
  material_data := material_data w; mesh_material := mesh_material w; next_object := next_object
  w; store := store w; trace := trace w |}.
Definition set_node_babylonTransformNode (v : gmap nat TransformNode) (w : World) : World :=
  {| maxLODsToLoad := maxLODsToLoad w; _loader := _loader w; _nodeIndexLOD := _nodeIndexLOD w;
  _nodeSignalLODs := _nodeSignalLODs w; _nodeSignalLODs_m1 := _nodeSignalLODs_m1 w;
  _nodePromiseLODs := _nodePromiseLODs w; _materialIndexLOD := _materialIndexLOD w;
  _materialSignalLODs := _materialSignalLODs w; _materialSignalLODs_m1 := _materialSignalLODs_m1
  w; _materialPromiseLODs := _materialPromiseLODs w; _indexLOD := _indexLOD w; _bufferLODs :=
  _bufferLODs w; bufferLOD_heap := bufferLOD_heap w; node_babylonTransformNode := v; material_data
  := material_data w; mesh_material := mesh_material w; next_object := next_object w; store :=
  store w; trace := trace w |}.
Definition set_material_data (v : gmap nat (JsArray MaterialData)) (w : World) : World :=
  {| maxLODsToLoad := maxLODsToLoad w; _loader := _loader w; _nodeIndexLOD := _nodeIndexLOD w;
  _nodeSignalLODs := _nodeSignalLODs w; _nodeSignalLODs_m1 := _nodeSignalLODs_m1 w;
  _nodePromiseLODs := _nodePromiseLODs w; _materialIndexLOD := _materialIndexLOD w;
  _materialSignalLODs := _materialSignalLODs w; _materialSignalLODs_m1 := _materialSignalLODs_m1
  w; _materialPromiseLODs := _materialPromiseLODs w; _indexLOD := _indexLOD w; _bufferLODs :=
  _bufferLODs w; bufferLOD_heap := bufferLOD_heap w; node_babylonTransformNode :=
  node_babylonTransformNode w; material_data := v; mesh_material := mesh_material w; next_object
  := next_object w; store := store w; trace := trace w |}.
Definition set_mesh_material (v : gmap Mesh Material) (w : World) : World :=
  {| maxLODsToLoad := maxLODsToLoad w; _loader := _loader w; _nodeIndexLOD := _nodeIndexLOD w;
  _nodeSignalLODs := _nodeSignalLODs w; _nodeSignalLODs_m1 := _nodeSignalLODs_m1 w;
  _nodePromiseLODs := _nodePromiseLODs w; _materialIndexLOD := _materialIndexLOD w;
  _materialSignalLODs := _materialSignalLODs w; _materialSignalLODs_m1 := _materialSignalLODs_m1
  w; _materialPromiseLODs := _materialPromiseLODs w; _indexLOD := _indexLOD w; _bufferLODs :=
  _bufferLODs w; bufferLOD_heap := bufferLOD_heap w; node_babylonTransformNode :=
  node_babylonTransformNode w; material_data := material_data w; mesh_material := v; next_object
  := next_object w; store := store w; trace := trace w |}.
Definition set_next_object (v : nat) (w : World) : World :=
  {| maxLODsToLoad := maxLODsToLoad w; _loader := _loader w; _nodeIndexLOD := _nodeIndexLOD w;
  _nodeSignalLODs := _nodeSignalLODs w; _nodeSignalLODs_m1 := _nodeSignalLODs_m1 w;
  _nodePromiseLODs := _nodePromiseLODs w; _materialIndexLOD := _materialIndexLOD w;
  _materialSignalLODs := _materialSignalLODs w; _materialSignalLODs_m1 := _materialSignalLODs_m1
  w; _materialPromiseLODs := _materialPromiseLODs w; _indexLOD := _indexLOD w; _bufferLODs :=
  _bufferLODs w; bufferLOD_heap := bufferLOD_heap w; node_babylonTransformNode :=
  node_babylonTransformNode w; material_data := material_data w; mesh_material := mesh_material w;
  next_object := v; store := store w; trace := trace w |}.
Definition set_store (v : list PCell) (w : World) : World :=
  {| maxLODsToLoad := maxLODsToLoad w; _loader := _loader w; _nodeIndexLOD := _nodeIndexLOD w;
  _nodeSignalLODs := _nodeSignalLODs w; _nodeSignalLODs_m1 := _nodeSignalLODs_m1 w;
  _nodePromiseLODs := _nodePromiseLODs w; _materialIndexLOD := _materialIndexLOD w;
  _materialSignalLODs := _materialSignalLODs w; _materialSignalLODs_m1 := _materialSignalLODs_m1
  w; _materialPromiseLODs := _materialPromiseLODs w; _indexLOD := _indexLOD w; _bufferLODs :=
  _bufferLODs w; bufferLOD_heap := bufferLOD_heap w; node_babylonTransformNode :=
  node_babylonTransformNode w; material_data := material_data w; mesh_material := mesh_material w;
  next_object := next_object w; store := v; trace := trace w |}.
Definition set_trace (v : list Event) (w : World) : World :=
  {| maxLODsToLoad := maxLODsToLoad w; _loader := _loader w; _nodeIndexLOD := _nodeIndexLOD w;
  _nodeSignalLODs := _nodeSignalLODs w; _nodeSignalLODs_m1 := _nodeSignalLODs_m1 w;
  _nodePromiseLODs := _nodePromiseLODs w; _materialIndexLOD := _materialIndexLOD w;
  _materialSignalLODs := _materialSignalLODs w; _materialSignalLODs_m1 := _materialSignalLODs_m1
  w; _materialPromiseLODs := _materialPromiseLODs w; _indexLOD := _indexLOD w; _bufferLODs :=
  _bufferLODs w; bufferLOD_heap := bufferLOD_heap w; node_babylonTransformNode :=
  node_babylonTransformNode w; material_data := material_data w; mesh_material := mesh_material w;
  next_object := next_object w; store := store w; trace := v |}.

(** ** Methods: state passing with exceptions

    A method takes the state and gives a result or an exception, and the
    state it leaves; an exception keeps the writes made before it. *)

Definition M (A : Type) : Type := World → Res A * World.

Global Instance M_ret : MRet M := λ A a w, (Ok a, w).
Global Instance M_bind : MBind M := λ A B f m w,
  match m w with
  | (Ok a, w') => f a w'
  | (Throw e, w') => (Throw e, w')
  end.

Global Instance M_fmap : FMap M := λ A B f m, m ≫= λ a, mret (f a).

Definition throw {A} (e : Error) : M A := λ w, (Throw e, w).
Definition gets {A} (f : World → A) : M A := λ w, (Ok (f w), w).
Definition modify (f : World → World) : M unit := λ w, (Ok tt, f w).
Definition lift {A} (r : Res A) : M A := λ w, (r, w).
Definition when (b : bool) (m : M unit) : M unit := if b then m else mret tt.
Definition emit (e : Event) : M unit := modify (λ w, set_trace (e :: trace w) w).

(** [for (let i = first; i < first + count; i++) body(i)] *)
Fixpoint for_range (first count : nat) (body : nat → M unit) : M unit :=
  match count with
  | O => mret tt
  | S count' => body first;; for_range (S first) count' body
  end.

(** *** Promises and deferreds *)

(** A new pending promise; its identity is its position in the store. *)
Definition new_promise (k : PKind) : M pid := λ w,
  let p := length (store w) in
  (Ok p, set_trace (EvNew p k :: trace w)
           (set_store (store w ++ [{| kind := k; state := Pending |}]) w)).

(** Fulfil or reject promise [p]; a promise that is settled stays as it is. *)
Definition settle (p : pid) (s : PState) : M unit := λ w,
  match store w !! p with
  | Some c =>
      if settled (state c) then (Ok tt, w)
      else (Ok tt, set_trace (EvSettled p s :: trace w)
                     (set_store (<[p := {| kind := kind c; state := s |}]> (store w)) w))
  | None => (Ok tt, w)
  end.

(** A reaction returned the promise [q]: [p] now follows it. *)
Definition adopt (p q : pid) : M unit := λ w,
  match store w !! p with
  | Some c =>
      match state c with
      | Pending =>
          (Ok tt, set_trace (EvAdopted p q :: trace w)
                    (set_store (<[p := {| kind := kind c; state := Adopted q |}]> (store w)) w))
      | _ => (Ok tt, w)
      end
  | None => (Ok tt, w)
  end.

(** Modelled from the spec: the [Deferred] of Misc/deferred, a promise
    with an explicit [resolve] and [reject]; here [d.resolve(v)] and
    [d.reject(error)]. It settles once: a later call changes nothing. *)
Definition Deferred_settle (d : pid) (s : PState) : M unit :=
  c ← gets (λ w, store w !! d);
  match kind <$> c with
  | Some KDeferred => settle d s
  | _ => throw TypeError
  end.

(** [d || new Deferred()] *)
Definition or_new_Deferred (d : option pid) : M pid :=
  match d with
  | Some d => mret d
  | None => new_promise KDeferred
  end.

(** *** The loader, as the extension uses it *)

(** [this._loader]: a property access on it throws once [dispose] has
    deleted it. *)
Definition the_loader : M GLTFLoader :=
  l ← gets _loader;
  match l with
  | Some loader => mret loader
  | None => throw TypeError
  end.

(** [this._loader.log], [logOpen], [logClose], [startPerformanceCounter],
    [endPerformanceCounter], [_completePromises.push]: nothing of it is
    observed here but the access to the loader. *)
Definition loader_call : M unit := the_loader;; mret tt.

(** Modelled from the spec: the transport [readRange] ([bin.readAsync]),
    one byte-range fetch whose promise the transport settles. *)
Definition readAsync (offset len : Z) : M pid :=
  q ← new_promise KExternal;
  emit (EvReadAsync offset len q);;
  mret q.

(** Modelled from the spec: the loader's own [loadUriAsync], one fetch of
    a uri whose promise the transport settles. *)
Definition loader_loadUriAsync (by_ : option pid) (uri : string) : M pid :=
  q ← new_promise KExternal;
  emit (EvLoadUri by_ uri q);;
  mret q.

Definition fresh_object : M nat := λ w,
  (Ok (next_object w), set_next_object (S (next_object w)) w).

(** Modelled from the spec: the loader's own [loadNodeAsync]
    ("loadObjectVariant"): it builds the transform node, keeps it on the
    glTF node, makes the calls of its subtree ([body]), hands the transform
    node to [assign] and returns a promise that settles later. *)
Definition loader_loadNodeAsync (body : M unit) (node : INode)
    (assign : TransformNode → M unit) : M pid :=
  babylonTransformNode ← fresh_object;
  modify (λ w, set_node_babylonTransformNode
    (<[node_index node := babylonTransformNode]> (node_babylonTransformNode w)) w);;
  body;;
  assign babylonTransformNode;;
  new_promise KExternal.

(** The [assign] callback the loader gives to [_loadMaterialAsync]: it
    puts the material on the mesh. *)
Definition assign_material (babylonMesh : Mesh) (babylonMaterial : Material) : M unit :=
  modify (λ w, set_mesh_material (<[babylonMesh := babylonMaterial]> (mesh_material w)) w).

(** Modelled from the spec: the loader's own [_loadMaterialAsync]
    ("loadObjectVariant"): it builds the Babylon material of this glTF
    material and draw mode once (making the calls of its properties,
    [body]), adds the mesh to its consumers, hands the material to
    [assign] and returns a promise that settles later. *)
Definition loader_loadMaterialAsync (body : M unit) (material : IMaterial)
    (babylonMesh : Mesh) (babylonDrawMode : nat) (assign : Material → M unit) : M pid :=
  data ← gets (λ w, default [] (material_data w !! material_index material));
  babylonData ← match js_get data babylonDrawMode with
                | Some babylonData => mret babylonData
                | None =>
                    m ← fresh_object;
                    body;;
                    mret {| babylonMaterial := m; babylonMeshes := [] |}
                end;
  let babylonData := {| babylonMaterial := babylonMaterial babylonData;
                        babylonMeshes := babylonMeshes babylonData ++ [babylonMesh] |} in
  modify (λ w, set_material_data
    (<[material_index material :=
         js_set babylonDrawMode babylonData
           (default [] (material_data w !! material_index material))]> (material_data w)) w);;
  assign (babylonMaterial babylonData);;
  new_promise KExternal.

(** Modelled from the spec: [GLTFLoader.LoadExtensionAsync]: the action
    runs when the property declares the extension, else the result is
    [null]. *)
Definition LoadExtensionAsync {E A} (extension : option E) (actionAsync : E → M (option A))
    : M (option A) :=
  match extension with
  | None => mret None
  | Some e => actionAsync e
  end.

Fixpoint for_each {A} (l : list A) (body : A → M unit) : M unit :=
  match l with
  | [] => mret tt
  | x :: l' => body x;; for_each l' body
  end.

(** ** The methods of [MSFT_lod] *)

(** *** [_disposeUnusedMaterials] *)

(** [data.babylonMeshes.every((babylonMesh) => babylonMesh.material !== data.babylonMaterial)] *)
Definition no_mesh_uses (w : World) (data : MaterialData) : bool :=
  forallb (λ babylonMesh,
      negb (bool_decide (mesh_material w !! babylonMesh = Some (babylonMaterial data))))
    (babylonMeshes data).

(** The body of [for (const drawMode in material._data)]. *)
Definition dispose_if_unused (by_ : option pid) (material : IMaterial) (drawMode : nat)
    : M unit :=
  d ← gets (λ w, material_data w !! material_index material ≫= λ data, js_get data drawMode);
  match d with
  | None => mret tt
  | Some data =>
      unused ← gets (λ w, no_mesh_uses w data);
      when unused
        (emit (EvDisposeMaterial by_ (babylonMaterial data));;
         modify (λ w, set_material_data
           (<[material_index material :=
                <[drawMode := None]> (default [] (material_data w !! material_index material))]>
              (material_data w)) w))
  end.

Definition _disposeUnusedMaterials (by_ : option pid) : M unit :=
  loader ← the_loader;
  match gltf_materials loader with
  | None => mret tt
  | Some materials =>
      for_each materials (λ material,
        d ← gets (λ w, material_data w !! material_index material);
        match d with
        | None => mret tt
        | Some data => for_range 0 (length data) (dispose_if_unused by_ material)
        end)
  end.

(** *** [_loadBufferLOD] *)

Definition read_bufferLOD (b : nat) : M BufferLOD :=
  r ← gets (λ w, bufferLOD_heap w !! b);
  match r with
  | Some bufferLOD => mret bufferLOD
  | None => throw TypeError
  end.

Definition _loadBufferLOD (indexLOD : nat) : M unit :=
  ref ← gets (λ w, js_get (_bufferLODs w) indexLOD);
  loader ← the_loader;
  if bin loader then
    match ref with
    | None => throw TypeError
    | Some b =>
        bufferLOD ← read_bufferLOD b;
        q ← readAsync (start bufferLOD) (end_ bufferLOD - start bufferLOD + 1);
        new_promise (KThen q (CbBufferRead b));;
        mret tt
    end
  else throw TypeError.

(** *** [loadBufferAsync] *)

(** [!buffer.uri] *)
Definition uri_missing (buffer : IBuffer) : bool :=
  match buffer_uri buffer with
  | None | Some EmptyString => true
  | Some _ => false
  end.

Definition loadBufferAsync (buffer : IBuffer) (byteOffset byteLength : Z)
    : M (option pid) :=
  loader ← the_loader;
  if useRangeRequests loader && uri_missing buffer then
    if negb (bin loader) then throw ErrMissingBin
    else
      (* Non-LOD buffers will be bucketed into the first LOD. *)
      indexLOD ← gets (λ w, default O (_indexLOD w));
      let start_ := byteOffset in
      let end__ := (start_ + byteLength - 1)%Z in
      ref ← gets (λ w, js_get (_bufferLODs w) indexLOD);
      b ← match ref with
          | Some b =>
              bufferLOD ← read_bufferLOD b;
              modify (λ w, set_bufferLOD_heap
                (<[b := {| start := Z.min (start bufferLOD) start_;
                           end_ := Z.max (end_ bufferLOD) end__;
                           loaded := loaded bufferLOD |}]> (bufferLOD_heap w)) w);;
              mret b
          | None =>
              d ← new_promise KDeferred;
              b ← gets (λ w, length (bufferLOD_heap w));
              modify (λ w, set_bufferLOD_heap
                (bufferLOD_heap w ++ [{| start := start_; end_ := end__; loaded := d |}]) w);;
              modify (λ w, set_bufferLODs (js_set indexLOD b (_bufferLODs w)) w);;
              mret b
          end;
      bufferLOD ← read_bufferLOD b;
      p ← new_promise (KThen (loaded bufferLOD) (CbBufferView b byteOffset byteLength));
      mret (Some p)
  else mret None.

(** *** [_loadUriAsync] *)

(** [signals[previousIndexLOD] = signals[previousIndexLOD] || new Deferred()]
    for [previousIndexLOD = indexLOD - 1]; below level 1 the index is -1,
    which names a property of the array object and none of its elements. *)
Definition previous_signal (k : LodKind) (indexLOD : nat) : M pid :=
  match k, indexLOD with
  | NodeLOD, S previousIndexLOD =>
      d ← gets (λ w, js_get (_nodeSignalLODs w) previousIndexLOD);
      d ← or_new_Deferred d;
      modify (λ w, set_nodeSignalLODs (js_set previousIndexLOD d (_nodeSignalLODs w)) w);;
      mret d
  | NodeLOD, O =>
      d ← gets _nodeSignalLODs_m1;
      d ← or_new_Deferred d;
      modify (set_nodeSignalLODs_m1 (Some d));;
      mret d
  | MaterialLOD, S previousIndexLOD =>
      d ← gets (λ w, js_get (_materialSignalLODs w) previousIndexLOD);
      d ← or_new_Deferred d;
      modify (λ w, set_materialSignalLODs (js_set previousIndexLOD d (_materialSignalLODs w)) w);;
      mret d
  | MaterialLOD, O =>
      d ← gets _materialSignalLODs_m1;
      d ← or_new_Deferred d;
      modify (set_materialSignalLODs_m1 (Some d));;
      mret d
  end.

Definition _loadUriAsync (uri : string) : M (option pid) :=
  (* Defer the loading of uris if loading a material or node LOD. *)
  materialIndexLOD ← gets _materialIndexLOD;
  match materialIndexLOD with
  | Some indexLOD =>
      loader_call;;
      signal ← previous_signal MaterialLOD indexLOD;
      p ← new_promise (KThen signal (CbLoadUri uri));
      mret (Some p)
  | None =>
      nodeIndexLOD ← gets _nodeIndexLOD;
      match nodeIndexLOD with
      | Some indexLOD =>
          loader_call;;
          signal ← previous_signal NodeLOD indexLOD;
          p ← new_promise (KThen signal (CbLoadUri uri));
          mret (Some p)
      | None => mret None
      end
  end.

(** *** [loadNodeAsync] *)

(** [promises[indexLOD] = promises[indexLOD] || []; promises[indexLOD].push(promise)] *)
Definition push_promise (indexLOD : nat) (promise : pid) (a : JsArray (list pid))
    : JsArray (list pid) :=
  js_set indexLOD (default [] (js_get a indexLOD) ++ [promise]) a.

(** One turn of the loop over [nodeLODs], up to the call of
    [this._loader.loadNodeAsync]. *)
Definition loadNodeAsync_before (indexLOD : nat) : M unit :=
  modify (set_indexLOD (Some indexLOD));;
  when (negb (indexLOD =? 0))
    (modify (set_nodeIndexLOD (Some indexLOD));;
     d ← gets (λ w, js_get (_nodeSignalLODs w) indexLOD);
     d ← or_new_Deferred d;
     modify (λ w, set_nodeSignalLODs (js_set indexLOD d (_nodeSignalLODs w)) w));;
  loader_call.

(** The rest of the turn, from [.then(...)] on the promise [src] that
    the loader returned. *)
Definition loadNodeAsync_after (nodeLODs : list INode) (indexLOD : nat) (src : pid)
    (firstPromise : option pid) : M (option pid) :=
  promise ← new_promise (KThen src (CbNodeLOD nodeLODs indexLOD));
  firstPromise ←
    (if indexLOD =? 0 then
       n ← gets (λ w, length (_bufferLODs w));
       when (negb (n =? 0)) (_loadBufferLOD 0);;
       mret (Some promise)
     else
       modify (set_nodeIndexLOD None);;
       mret firstPromise);
  modify (set_indexLOD None);;
  modify (λ w, set_nodePromiseLODs (push_promise indexLOD promise (_nodePromiseLODs w)) w);;
  mret firstPromise.

(** The loop over [nodeLODs]: [rest] is what is left of it from
    [indexLOD] on. [loader_loadNode] is [this._loader.loadNodeAsync]. *)
Fixpoint loadNodeAsync_loop
    (loader_loadNode : INode → (TransformNode → M unit) → M pid)
    (nodeLODs rest : list INode) (indexLOD : nat) (firstPromise : option pid)
    : M (option pid) :=
  match rest with
  | [] => mret firstPromise
  | nodeLOD :: rest' =>
      loadNodeAsync_before indexLOD;;
      let assign := λ babylonTransformNode : TransformNode,
        emit (EvSetEnabled None babylonTransformNode false) in
      src ← loader_loadNode nodeLOD assign;
      firstPromise ← loadNodeAsync_after nodeLODs indexLOD src firstPromise;
      loadNodeAsync_loop loader_loadNode nodeLODs rest' (S indexLOD) firstPromise
  end.

Definition loadNodeAsync
    (loader_loadNode : INode → (TransformNode → M unit) → M pid) (node : INode)
    : M (option pid) :=
  LoadExtensionAsync (node_lod node) (λ ids,
    loader ← the_loader;
    maxLODs ← gets maxLODsToLoad;
    nodeLODs ← lift (_getLODs maxLODs node (gltf_nodes loader) ids);
    loader_call;;
    firstPromise ← loadNodeAsync_loop loader_loadNode nodeLODs nodeLODs 0 None;
    loader_call;;
    mret firstPromise).

(** *** [_loadMaterialAsync] *)

(** One turn of the loop over [materialLODs], up to the call of
    [this._loader._loadMaterialAsync]. *)
Definition _loadMaterialAsync_before (indexLOD : nat) : M unit :=
  modify (set_indexLOD (Some indexLOD));;
  when (negb (indexLOD =? 0)) (modify (set_materialIndexLOD (Some indexLOD)));;
  loader_call.

(** The rest of the turn, from [.then(...)] on the promise [src] that
    the loader returned. *)
Definition _loadMaterialAsync_after (materialLODs : list IMaterial) (indexLOD : nat)
    (babylonMesh : Mesh) (babylonDrawMode : nat) (src : pid) (firstPromise : option pid)
    : M (option pid) :=
  promise ← new_promise
              (KThen src (CbMaterialLOD materialLODs indexLOD babylonMesh babylonDrawMode));
  firstPromise ←
    (if indexLOD =? 0 then
       n ← gets (λ w, length (_bufferLODs w));
       when (negb (n =? 0)) (_loadBufferLOD 0);;
       mret (Some promise)
     else
       modify (set_materialIndexLOD None);;
       mret firstPromise);
  modify (set_indexLOD None);;
  modify (λ w, set_materialPromiseLODs
                 (push_promise indexLOD promise (_materialPromiseLODs w)) w);;
  mret firstPromise.

(** The loop over [materialLODs]. [loader_loadMaterial] is
    [this._loader._loadMaterialAsync]; the [assign] of the caller is
    [assign_material babylonMesh]. *)
Fixpoint _loadMaterialAsync_loop
    (loader_loadMaterial : IMaterial → Mesh → nat → (Material → M unit) → M pid)
    (materialLODs rest : list IMaterial) (babylonMesh : Mesh) (babylonDrawMode : nat)
    (indexLOD : nat) (firstPromise : option pid) : M (option pid) :=
  match rest with
  | [] => mret firstPromise
  | materialLOD :: rest' =>
      _loadMaterialAsync_before indexLOD;;
      src ← loader_loadMaterial materialLOD babylonMesh babylonDrawMode
               (λ babylonMaterial,
                  when (indexLOD =? 0) (assign_material babylonMesh babylonMaterial));
      firstPromise ← _loadMaterialAsync_after materialLODs indexLOD babylonMesh
                       babylonDrawMode src firstPromise;
      _loadMaterialAsync_loop loader_loadMaterial materialLODs rest'
        babylonMesh babylonDrawMode (S indexLOD) firstPromise
  end.

(** [if (this._indexLOD)]: neither [null] nor zero. *)
Definition truthy (n : option nat) : bool :=
  match n with
  | Some (S _) => true
  | _ => false
  end.

Definition _loadMaterialAsync
    (loader_loadMaterial : IMaterial → Mesh → nat → (Material → M unit) → M pid)
    (material : IMaterial) (babylonMesh : Mesh) (babylonDrawMode : nat)
    : M (option pid) :=
  (* Don't load material LODs if already loading a node LOD. *)
  indexLOD ← gets _indexLOD;
  if truthy indexLOD then mret None
  else
    LoadExtensionAsync (material_lod material) (λ ids,
      loader ← the_loader;
      maxLODs ← gets maxLODsToLoad;
      materialLODs ← lift (_getLODs maxLODs material (gltf_materials loader) ids);
      loader_call;;
      firstPromise ← _loadMaterialAsync_loop loader_loadMaterial materialLODs materialLODs
                       babylonMesh babylonDrawMode 0 None;
      loader_call;;
      mret firstPromise).

(** *** [onReady] *)

Definition promiseLODs (k : LodKind) (w : World) : JsArray (list pid) :=
  match k with
  | NodeLOD => _nodePromiseLODs w
  | MaterialLOD => _materialPromiseLODs w
  end.

Definition signalLODs (k : LodKind) (w : World) : JsArray pid :=
  match k with
  | NodeLOD => _nodeSignalLODs w
  | MaterialLOD => _materialSignalLODs w
  end.

(** The body of the first two loops, for nodes and for materials. *)
Definition onReady_level (k : LodKind) (indexLOD : nat) : M unit :=
  srcs ← gets (λ w, js_get (promiseLODs k w) indexLOD);
  all ← new_promise (KAll srcs);
  new_promise (KThen all (CbLevelLoaded k indexLOD));;
  loader_call.

Definition onReady : M unit :=
  n ← gets (λ w, length (_nodePromiseLODs w));
  for_range 0 n (onReady_level NodeLOD);;
  n ← gets (λ w, length (_materialPromiseLODs w));
  for_range 0 n (onReady_level MaterialLOD);;
  n ← gets (λ w, length (_bufferLODs w));
  for_range 1 (n - 1) _loadBufferLOD.

(** *** [dispose] *)

Definition dispose : M unit :=
  _disposeUnusedMaterials None;;
  modify (set_loader None);;
  modify (set_nodeIndexLOD None);;
  modify (set_nodeSignalLODs []);;
  modify (set_nodePromiseLODs []);;
  modify (set_materialIndexLOD None);;
  modify (set_materialSignalLODs []);;
  modify (set_materialPromiseLODs []);;
  modify (set_indexLOD None);;
  modify (set_bufferLODs []).

(** ** The closures

    [run_callback p cb v] is the body of closure [cb], run as the reaction
    of promise [p] to the value [v] of its source; it returns a value or
    a promise. *)

(** [if (signals[indexLOD]) signals[indexLOD].resolve()], after the start
    of the next performance counter. *)
Definition resolve_signal (k : LodKind) (indexLOD : nat) : M unit :=
  loader_call;;
  d ← gets (λ w, js_get (signalLODs k w) indexLOD);
  match d with
  | Some d => Deferred_settle d (Fulfilled VUndefined)
  | None => mret tt
  end.

Definition cb_level_loaded (p : pid) (k : LodKind) (indexLOD : nat) : M unit :=
  when (negb (indexLOD =? 0)) loader_call;;
  loader_call;;
  emit (EvNotify p k indexLOD);;
  n ← gets (λ w, length (promiseLODs k w));
  when (negb (Z.of_nat indexLOD =? Z.of_nat n - 1)%Z) (resolve_signal k indexLOD).

(** The disposal of the previous level, [if (indexLOD !== 0) { ... }]. *)
Definition dispose_previous (p : pid) (nodeLODs : list INode) (indexLOD : nat) : M unit :=
  match nodeLODs !! (indexLOD - 1)%nat with
  | None => throw TypeError
  | Some previousNodeLOD =>
      n ← gets (λ w, node_babylonTransformNode w !! node_index previousNodeLOD);
      match n with
      | Some babylonTransformNode =>
          emit (EvDisposeNode p previousNodeLOD babylonTransformNode);;
          modify (λ w, set_node_babylonTransformNode
            (delete (node_index previousNodeLOD) (node_babylonTransformNode w)) w);;
          _disposeUnusedMaterials (Some p)
      | None => mret tt
      end
  end.

(** [babylonMesh.setEnabled(true); return babylonMesh] *)
Definition enable_mesh (p : pid) (babylonMesh : Value) : M Value :=
  match babylonMesh with
  | VNode n => emit (EvSetEnabled (Some p) n true);; mret babylonMesh
  | _ => throw TypeError
  end.

Definition cb_node_lod (p : pid) (nodeLODs : list INode) (indexLOD : nat)
    (babylonMesh : Value) : M Value :=
  when (negb (indexLOD =? 0)) (dispose_previous p nodeLODs indexLOD);;
  enable_mesh p babylonMesh.

Definition cb_material_lod (p : pid) (materialLODs : list IMaterial) (indexLOD : nat)
    (babylonMesh : Mesh) (babylonDrawMode : nat) (babylonMaterial_ : Value) : M Value :=
  when (negb (indexLOD =? 0))
    (match babylonMaterial_ with
     | VMaterial m => assign_material babylonMesh m
     | _ => throw TypeError
     end;;
     match materialLODs !! (indexLOD - 1)%nat with
     | None => throw TypeError
     | Some previousMaterialLOD =>
         previousDataLOD ← gets (λ w, material_data w !! material_index previousMaterialLOD);
         match previousDataLOD with
         | None => throw TypeError
         | Some previousDataLOD =>
             match js_get previousDataLOD babylonDrawMode with
             | Some data =>
                 emit (EvDisposeMaterial (Some p) (babylonMaterial data));;
                 modify (λ w, set_material_data
                   (<[material_index previousMaterialLOD :=
                        <[babylonDrawMode := None]> previousDataLOD]> (material_data w)) w)
             | None => mret tt
             end
         end
     end);;
  mret babylonMaterial_.

Definition cb_buffer_view (bufferLOD : nat) (byteOffset_ byteLength_ : Z) (data : Value)
    : M Value :=
  match data with
  | VView data =>
      bufferLOD ← read_bufferLOD bufferLOD;
      view ← lift (new_Uint8Array (view_buffer data)
                     (byteOffset data + byteOffset_ - start bufferLOD) byteLength_);
      mret (VView view)
  | _ => throw TypeError
  end.

Definition run_callback (p : pid) (cb : Callback) (v : Value) : M (Value + pid) :=
  match cb with
  | CbLevelLoaded k indexLOD => cb_level_loaded p k indexLOD;; mret (inl VUndefined)
  | CbNodeLOD nodeLODs indexLOD => inl <$> cb_node_lod p nodeLODs indexLOD v
  | CbMaterialLOD materialLODs indexLOD babylonMesh babylonDrawMode =>
      inl <$> cb_material_lod p materialLODs indexLOD babylonMesh babylonDrawMode v
  | CbLoadUri uri => loader_call;; inr <$> loader_loadUriAsync (Some p) uri
  | CbBufferView bufferLOD byteOffset_ byteLength_ =>
      inl <$> cb_buffer_view bufferLOD byteOffset_ byteLength_ v
  | CbBufferRead bufferLOD =>
      bufferLOD ← read_bufferLOD bufferLOD;
      Deferred_settle (loaded bufferLOD) (Fulfilled v);;
      mret (inl VUndefined)
  end.

(** The rejection handler of a closure, when it has one: only
    [_loadBufferLOD] passes a second function to [then]. *)
Definition run_rejection (cb : Callback) : option (M (Value + pid)) :=
  match cb with
  | CbBufferRead bufferLOD =>
      Some (bufferLOD ← read_bufferLOD bufferLOD;
            Deferred_settle (loaded bufferLOD) Rejected;;
            mret (inl VUndefined))
  | _ => None
  end.

(** ** The loader as a caller *)

(** Modelled from the spec: the parent loader walks the asset and calls
    the hooks of the extension; when a hook answers [null] it takes its
    own path. A script lists the calls; [inner i] is what it does while
    it loads the node (or material) of index [i] itself. *)

Inductive Script : Type :=
  | SDone
  | SBuffer (buffer : IBuffer) (byteOffset byteLength : Z) (next : Script)
  | SUri (uri : string) (next : Script)
  | SMaterial (material : IMaterial) (babylonMesh : Mesh) (babylonDrawMode : nat)
      (inner : nat → Script) (next : Script)
  | SNode (node : INode) (inner : nat → Script) (next : Script).

Fixpoint host (s : Script) : M unit :=
  match s with
  | SDone => mret tt
  | SBuffer buffer byteOffset_ byteLength_ next =>
      loadBufferAsync buffer byteOffset_ byteLength_;;
      host next
  | SUri uri next =>
      r ← _loadUriAsync uri;
      match r with
      | Some _ => mret tt
      | None => loader_loadUriAsync None uri;; mret tt
      end;;
      host next
  | SMaterial material babylonMesh babylonDrawMode inner next =>
      let loader_loadMaterial := λ m : IMaterial,
        loader_loadMaterialAsync (host (inner (material_index m))) m in
      r ← _loadMaterialAsync loader_loadMaterial material babylonMesh babylonDrawMode;
      match r with
      | Some _ => mret tt
      | None =>
          loader_loadMaterial material babylonMesh babylonDrawMode
            (assign_material babylonMesh);;
          mret tt
      end;;
      host next
  | SNode node inner next =>
      let loader_loadNode := λ n : INode,
        loader_loadNodeAsync (host (inner (node_index n))) n in
      r ← loadNodeAsync loader_loadNode node;
      match r with
      | Some _ => mret tt
      | None => loader_loadNode node (λ _, mret tt);; mret tt
      end;;
      host next
  end.

(** ** The scheduler

    One action at a time: a call of the loader into the extension, the
    settlement of a promise of the loader or the transport, or one
    reaction that is ready to run. *)

Inductive Action : Type :=
  | AHost (s : Script)
  | AOnReady
  | ADispose
  | ASettle (p : pid) (outcome : option Value)   (* [None]: rejected *)
  | ARun (p : pid).

(** Run the reaction [m] of promise [p] and settle [p] with its outcome. *)
Definition react (p : pid) (m : M (Value + pid)) (w : World) : World :=
  match m w with
  | (Ok (inl v), w') => (settle p (Fulfilled v) w').2
  | (Ok (inr q), w') => (adopt p q w').2
  | (Throw _, w') => (settle p Rejected w').2
  end.

Definition cell_state (w : World) (p : pid) : option PState := state <$> store w !! p.

Definition is_rejected (w : World) (p : pid) : bool :=
  match cell_state w p with Some Rejected => true | _ => false end.

Definition is_fulfilled (w : World) (p : pid) : bool :=
  match cell_state w p with Some (Fulfilled _) => true | _ => false end.

(** The reaction of promise [p], when it is ready. *)
Definition run (p : pid) (w : World) : option World :=
  match store w !! p with
  | Some c =>
      match state c, kind c with
      | Pending, KThen src cb =>
          match cell_state w src with
          | Some (Fulfilled v) => Some (react p (run_callback p cb v) w)
          | Some Rejected =>
              match run_rejection cb with
              | Some handler => Some (react p handler w)
              | None => Some (settle p Rejected w).2
              end
          | _ => None
          end
      | Pending, KAll None => Some (settle p Rejected w).2
      | Pending, KAll (Some srcs) =>
          if existsb (is_rejected w) srcs then Some (settle p Rejected w).2
          else if forallb (is_fulfilled w) srcs then Some (settle p (Fulfilled VUndefined) w).2
          else None
      | Adopted q, KThen _ _ =>
          match cell_state w q with
          | Some (Fulfilled v) => Some (settle p (Fulfilled v) w).2
          | Some Rejected => Some (settle p Rejected w).2
          | _ => None
          end
      | _, _ => None
      end
  | None => None
  end.

Definition step (a : Action) (w : World) : option World :=
  match a with
  | AHost s => Some (host s w).2
  | AOnReady => Some (onReady w).2
  | ADispose => Some (dispose w).2
  | ASettle p outcome =>
      match store w !! p with
      | Some c =>
          match kind c, state c with
          | KExternal, Pending =>
              Some (settle p (match outcome with Some v => Fulfilled v | None => Rejected end) w).2
          | _, _ => None
          end
      | None => None
      end
  | ARun p => run p w
  end.

Fixpoint exec (acts : list Action) (w : World) : option World :=
  match acts with
  | [] => Some w
  | a :: acts' =>
      match step a w with
      | Some w' => exec acts' w'
      | None => None
      end
  end.

(** The extension as its constructor leaves it, for a loader and a value
    of the public field [maxLODsToLoad] (10 unless the user sets it). *)
Definition initial (loader : GLTFLoader) (maxLODs : Z) : World :=
  {| maxLODsToLoad := maxLODs; _loader := Some loader;
     _nodeIndexLOD := None; _nodeSignalLODs := []; _nodeSignalLODs_m1 := None;
     _nodePromiseLODs := [];
     _materialIndexLOD := None; _materialSignalLODs := []; _materialSignalLODs_m1 := None;
     _materialPromiseLODs := [];
     _indexLOD := None; _bufferLODs := []; bufferLOD_heap := [];
     node_babylonTransformNode := ∅; material_data := ∅; mesh_material := ∅;
     next_object := 0; store := []; trace := [] |}.

(** * Vocabulary of the properties *)

(** [id] names the element [x] of the glTF array. *)
Definition resolves {T} (array : option (list T)) (id : Z) (x : T) : Prop :=
  ArrayItem_Get array id = Ok x.

(** The extension can serve byte-range requests: it has its loader,
    range requests are on and the binary chunk is there. *)
Definition range_ready (w : World) : Prop :=
  ∃ loader, _loader w = Some loader ∧ useRangeRequests loader = true ∧ bin loader = true.

(** The level a byte-range request is filed under: [this._indexLOD || 0]. *)
Definition current_level (w : World) : nat := default O (_indexLOD w).

(** The loader asking for byte ranges [(offset, length)], one after the
    other. *)
Fixpoint requests (buffer : IBuffer) (reqs : list (Z * Z)) : Script :=
  match reqs with
  | [] => SDone
  | (offset, len) :: reqs' => SBuffer buffer offset len (requests buffer reqs')
  end.

(** The merge in the words of the specification: the bucket becomes
    [[min(existing.start, start), max(existing.end, start+length-1)]]. *)
Definition widen (bucket : BufferLOD) (req : Z * Z) : BufferLOD :=
  {| start := Z.min (start bucket) req.1;
     end_ := Z.max (end_ bucket) (req.1 + req.2 - 1);
     loaded := loaded bucket |}.

(** [data] is what one read of the bytes [first .. last] of the binary
    chunk [file] delivers. *)
Definition fetched (file : list byte) (first last : Z) (data : ArrayBufferView) : Prop :=
  (0 ≤ first)%Z ∧ (last < Z.of_nat (length file))%Z ∧
  (0 ≤ byteOffset data)%Z ∧
  (byteOffset data + byteLength data ≤ Z.of_nat (length (view_buffer data)))%Z ∧
  byteLength data = (last - first + 1)%Z ∧
  view_bytes data = take (Z.to_nat (last - first + 1)) (drop (Z.to_nat first) file).

(** ** Histories

    The trace is the history of a run. The store changes only through
    the events of promises, and only as promises allow, so a history
    determines the store; and the events of a reaction carry the promise
    whose reaction it is. *)

(** The promise whose reaction produced the event, when a reaction did. *)
Definition tag (e : Event) : option pid :=
  match e with
  | EvNotify p _ _ | EvDisposeNode p _ _ => Some p
  | EvSetEnabled o _ _ | EvDisposeMaterial o _ | EvLoadUri o _ _ => o
  | _ => None
  end.

Definition src_settled (st : list PCell) (src : pid) : Prop :=
  ∃ c, st !! src = Some c ∧ settled (state c) = true.

Definition src_fulfilled (st : list PCell) (src : pid) : Prop :=
  ∃ c v, st !! src = Some c ∧ state c = Fulfilled v.

(** When the cell [c] may settle in the state [s]: a reaction runs after
    its source has settled, and [Promise.all] fulfils after all of its
    sources have. *)
Definition may_settle (st : list PCell) (c : PCell) (s : PState) : Prop :=
  match kind c with
  | KThen src _ => state c = Pending → src_settled st src
  | KAll srcs =>
      ∀ v, s = Fulfilled v → ∃ l, srcs = Some l ∧ ∀ q, q ∈ l → src_fulfilled st q
  | _ => True
  end.

(** What one event does to the store. *)
Definition store_step (st : list PCell) (e : Event) (st' : list PCell) : Prop :=
  match e with
  | EvNew p k => p = length st ∧ st' = st ++ [{| kind := k; state := Pending |}]
  | EvSettled p s =>
      ∃ c, st !! p = Some c ∧ settled (state c) = false ∧ settled s = true ∧
           may_settle st c s ∧
           st' = <[p := {| kind := kind c; state := s |}]> st
  | EvAdopted p q =>
      ∃ c src cb, st !! p = Some c ∧ state c = Pending ∧
           kind c = KThen src cb ∧ src_settled st src ∧
           st' = <[p := {| kind := kind c; state := Adopted q |}]> st
  | _ => st' = st
  end.

(** [evolves st es st']: the events [es] (latest first) lead from the
    store [st] to the store [st']. *)
Inductive evolves (st : list PCell) : list Event → list PCell → Prop :=
  | evolves_nil : evolves st [] st
  | evolves_cons e es st1 st2 :
      evolves st es st1 → store_step st1 e st2 → evolves st (e :: es) st2.

(** The reaction that announces a level: only [onReady] creates it. *)
Definition wires (k : PKind) : Prop :=
  match k with
  | KThen _ (CbLevelLoaded _ _) => True
  | _ => False
  end.

(** The events of a call of the loader into the extension. *)
Definition passive (e : Event) : Prop :=
  match e with
  | EvNew _ k => ¬ wires k
  | EvReadAsync _ _ _ => True
  | EvSetEnabled None _ _ | EvDisposeMaterial None _ | EvLoadUri None _ _ => True
  | _ => False
  end.

(** The events a reaction of promise [p] may produce on its way, apart
    from those that need a reason. *)
Definition quiet (p : pid) (e : Event) : Prop :=
  match e with
  | EvNew _ k => ¬ wires k
  | EvSettled _ _ => True
  | EvDisposeMaterial (Some p') _ => p' = p
  | _ => False
  end.

(** The events of the reaction of promise [p]: no read among them. *)
Definition in_reaction (p : pid) (e : Event) : Prop :=
  match e with
  | EvNew _ k => ¬ wires k
  | EvSettled _ _ => True
  | EvAdopted _ _ | EvReadAsync _ _ _ => False
  | _ => tag e = Some p
  end.

(** What must have happened before an event, for the event to happen. *)
Definition justified (e : Event) (past : list Event) : Prop :=
  match e with
  | EvNew p (KThen all (CbLevelLoaded _ _)) => ∃ srcs, EvNew all (KAll srcs) ∈ past
  | EvNotify p k indexLOD =>
      (∃ all srcs,
         EvNew p (KThen all (CbLevelLoaded k indexLOD)) ∈ past ∧
         EvNew all (KAll (Some srcs)) ∈ past ∧
         ∀ q, q ∈ srcs → ∃ v, EvSettled q (Fulfilled v) ∈ past) ∧
      ∀ k' i', EvNotify p k' i' ∉ past
  | EvLoadUri (Some p) uri _ =>
      ∃ signal v,
        EvNew p (KThen signal (CbLoadUri uri)) ∈ past ∧
        EvSettled signal (Fulfilled v) ∈ past
  | EvDisposeNode p node _ =>
      (∃ src nodeLODs i v,
         EvNew p (KThen src (CbNodeLOD nodeLODs (S i))) ∈ past ∧
         nodeLODs !! i = Some node ∧
         EvSettled src (Fulfilled v) ∈ past) ∧
      ∀ n, EvSetEnabled (Some p) n true ∉ past
  | EvSetEnabled (Some p) n enabled =>
      enabled = true ∧
      ∃ src nodeLODs i,
        EvNew p (KThen src (CbNodeLOD nodeLODs i)) ∈ past ∧
        EvSettled src (Fulfilled (VNode n)) ∈ past
  | _ => True
  end.

(** Every event of the history [t] has its reason [J] in its past. *)
Fixpoint history_ok_with (J : Event → list Event → Prop) (t : list Event) : Prop :=
  match t with
  | [] => True
  | e :: past => J e past ∧ history_ok_with J past
  end.

Abbreviation history_ok := (history_ok_with justified).

(** A method that only adds events of the class [P] to the trace, each
    with its reason [J], and changes the store as these events say. *)
Definition tracks_with {A} (J : Event → list Event → Prop) (P : Event → Prop)
    (m : M A) : Prop :=
  ∀ w, ∃ es, trace (m w).2 = es ++ trace w ∧ Forall P es ∧
             evolves (store w) es (store (m w).2) ∧
             (history_ok_with J (trace w) → history_ok_with J (es ++ trace w)).

Abbreviation tracks := (tracks_with justified).

(** The same without the reasons. *)
Abbreviation emits := (tracks_with (λ _ _, True)).

(** The invariant of a run. *)
Record consistent (w : World) : Prop := {
  consistent_store : evolves [] (trace w) (store w);
  consistent_history : history_ok (trace w);
  consistent_tags : ∀ e p, e ∈ trace w → tag e = Some p →
    ∃ c, store w !! p = Some c ∧ state c ≠ Pending
}.

(** The byte ranges read so far, latest first. *)
Definition read_ranges (t : list Event) : list (Z * Z) :=
  omap (λ e, match e with EvReadAsync offset len _ => Some (offset, len) | _ => None end) t.

(** The range [_loadBufferLOD indexLOD] asks for. *)
Definition bucket_range (w : World) (indexLOD : nat) : option (Z * Z) :=
  b ← js_get (_bufferLODs w) indexLOD;
  bucket ← bufferLOD_heap w !! b;
  Some (start bucket, end_ bucket - start bucket + 1)%Z.

(** The marker of the level being loaded says: level [indexLOD] of a
    sequence of kind [k]. The material marker is looked at first. *)
Definition inside_level (w : World) (k : LodKind) (indexLOD : nat) : Prop :=
  match k with
  | MaterialLOD => _materialIndexLOD w = Some indexLOD
  | NodeLOD => _materialIndexLOD w = None ∧ _nodeIndexLOD w = Some indexLOD
  end.

(** A run of the scheduler from the state the constructor leaves. *)
Definition run_from (loader : GLTFLoader) (maxLODs : Z) (acts : list Action) (w : World)
    : Prop :=
  exec acts (initial loader maxLODs) = Some w.

(** ** Counting events *)

Definition LodKind_eqb (a b : LodKind) : bool :=
  match a, b with
  | NodeLOD, NodeLOD | MaterialLOD, MaterialLOD => true
  | _, _ => false
  end.

(** The event "level [i] of kind [k] is loaded". *)
Definition is_notify (k : LodKind) (i : nat) (e : Event) : bool :=
  match e with
  | EvNotify _ k' i' => LodKind_eqb k k' && (i =? i')
  | _ => false
  end.

(** The creation of the reaction that announces level [i] of kind [k]. *)
Definition is_wire (k : LodKind) (i : nat) (e : Event) : bool :=
  match e with
  | EvNew _ (KThen _ (CbLevelLoaded k' i')) => LodKind_eqb k k' && (i =? i')
  | _ => false
  end.

Definition count_events (f : Event → bool) (t : list Event) : nat :=
  length (List.filter f t).

Definition is_onReady (a : Action) : bool :=
  match a with AOnReady => true | _ => false end.

(** Two states that differ in the promise store and the trace only. *)
Definition same_fields (w w' : World) : Prop :=
  set_trace (trace w) (set_store (store w) w') = w.

(** An event that creates no reaction announcing a level. *)
Definition unwired (e : Event) : Prop := ∀ k i, is_wire k i e = false.

(** An event that is neither the creation of such a reaction nor a read. *)
Definition calm (e : Event) : Prop :=
  unwired e ∧ match e with EvReadAsync _ _ _ => False | _ => True end.

(** * Sample assets

    Small assets and runs on which the properties are evaluated. *)

(** A buffer of the binary chunk: it has no uri. *)
Definition no_uri : IBuffer := {| buffer_uri := None |}.

(** A node with two coarser variants, nodes 1 and 2; node 2, the last
    declared, is the coarsest. *)
Definition lod_node : INode := {| node_index := 0; node_lod := Some [1; 2]%Z |}.

Definition node_asset : GLTFLoader :=
  {| useRangeRequests := true; bin := true;
     gltf_nodes := Some [lod_node; {| node_index := 1; node_lod := None |};
                         {| node_index := 2; node_lod := None |}];
     gltf_materials := None |}.

(** The loader on [lod_node]: the coarsest variant asks for bytes
    [[10, 14]], the middle one for [[50, 59]] and a uri, the finest for
    [[0, 9]] and [[20, 24]]. *)
Definition node_scene : Script :=
  SNode lod_node
    (λ i, match i with
          | 2 => SBuffer no_uri 10 5 SDone
          | 1 => SBuffer no_uri 50 10 (SUri "a.png" SDone)
          | _ => SBuffer no_uri 0 10 (SBuffer no_uri 20 5 SDone)
          end)
    SDone.

(** The same asset read without range requests, with one coarser
    variant. *)
Definition plain_node : INode := {| node_index := 0; node_lod := Some [1]%Z |}.

(** Material 1 has the coarser variant 0. *)
Definition coarse_material : IMaterial := {| material_index := 0; material_lod := None |}.
Definition fine_material : IMaterial := {| material_index := 1; material_lod := Some [0]%Z |}.

Definition plain_asset : GLTFLoader :=
  {| useRangeRequests := false; bin := false;
     gltf_nodes := Some [plain_node; {| node_index := 1; node_lod := None |}];
     gltf_materials := Some [coarse_material; fine_material] |}.

Definition plain_scene : Script := SNode plain_node (λ _, SDone) SDone.

(** Mesh 0 has material 1 and mesh 1 has material 0 itself, both in
    draw mode 0. *)
Definition shared_material_scene : Script :=
  SMaterial fine_material 0 0 (λ _, SDone)
    (SMaterial coarse_material 1 0 (λ _, SDone) SDone).

(** The mesh of the coarser variant of [plain_node] has material 1. *)
Definition nested_scene : Script :=
  SNode plain_node
    (λ i, match i with
          | 1 => SMaterial fine_material 0 0 (λ _, SDone) SDone
          | _ => SDone
          end)
    SDone.


(** The world a run ends in. *)
Definition outcome (loader : GLTFLoader) (acts : list Action) : World :=
  default (initial loader 10) (exec acts (initial loader 10)).

(** Both levels of [plain_scene] load and are shown in turn. *)
Definition swap_run : list Action :=
  [AHost plain_scene; ASettle 0 (Some (VNode 0)); ARun 1; ASettle 3 (Some (VNode 1)); ARun 4].

(** The same with [onReady], to the event of level 0. *)
Definition level0_run : list Action :=
  [AHost plain_scene; AOnReady; ASettle 0 (Some (VNode 0)); ARun 1; ARun 5; ARun 6].

(** The load of level 0 fails, the load of level 1 succeeds, and every
    reaction that is ready runs. *)
Definition failed_level0_run : list Action :=
  [AHost plain_scene; AOnReady; ASettle 0 None; ARun 1; ARun 5; ARun 6;
   ASettle 3 (Some (VNode 1)); ARun 4; ARun 7; ARun 8].

(** Level 0 of [node_scene] is loaded and shown, then the loader is
    ready; the load of level 1 has not settled. *)
Definition early_reads_run : list Action :=
  [AHost node_scene; ASettle 2 (Some (VNode 0)); ARun 3; AOnReady].

(** All of [node_scene] to the uri of level 1: the level 0 is loaded,
    its event fires and resolves the signal the uri waits for. *)
Definition uri_run : list Action :=
  [AHost node_scene; AOnReady; ASettle 2 (Some (VNode 0)); ARun 3; ARun 19; ARun 20; ARun 10].

(** Level 1 of the material of mesh 0 is loaded while mesh 1 still has
    the material of level 0. *)
Definition shared_material_run : list Action :=
  [AHost shared_material_scene; ASettle 2 (Some (VMaterial 1)); ARun 3].

(** The loader's own [_loadMaterialAsync] for a material without
    properties to load. *)
Definition load_plain_material (material : IMaterial) (babylonMesh babylonDrawMode : nat)
    (assign : nat → M unit) : M nat :=
  loader_loadMaterialAsync (mret tt) material babylonMesh babylonDrawMode assign.

(** [this.setEnabled(true)] only. *)
Definition is_show (e : Event) : bool :=
  match e with EvSetEnabled _ _ true => true | _ => false end.

(** * Vocabulary of the further properties *)

(** What is kept of the glTF material [index] for a draw mode:
    [material._data[drawMode]]. *)
Definition tracked_material (w : World) (index drawMode : nat) : option MaterialData :=
  material_data w !! index ≫= λ data, js_get data drawMode.

(** [w] is [w0] after disposals by [by_] of materials that no mesh had:
    nothing but the trace and the data of the materials has changed, the
    data have only lost entries, none of them one that a mesh had, and
    each event is the disposal of an entry that no mesh had. *)
Definition pruned (by_ : option pid) (w0 w : World) : Prop :=
  set_trace (trace w0) (set_material_data (material_data w0) w) = w0 ∧
  (∀ index drawMode data,
     tracked_material w index drawMode = Some data →
     tracked_material w0 index drawMode = Some data) ∧
  (∀ index drawMode data,
     tracked_material w0 index drawMode = Some data → no_mesh_uses w0 data = false →
     tracked_material w index drawMode = Some data) ∧
  ∃ es, trace w = es ++ trace w0 ∧
    Forall (λ e, ∃ index drawMode data,
              e = EvDisposeMaterial by_ (babylonMaterial data) ∧
              tracked_material w0 index drawMode = Some data ∧
              no_mesh_uses w0 data = true) es.

(** The extension after [dispose]: no loader, no level in progress,
    nothing kept of the levels. *)
Definition disposed (w : World) : Prop :=
  _loader w = None ∧
  _indexLOD w = None ∧ _nodeIndexLOD w = None ∧ _materialIndexLOD w = None ∧
  _nodePromiseLODs w = [] ∧ _materialPromiseLODs w = [] ∧ _bufferLODs w = [].

(** The events that are left to a disposed extension: the loader's own
    loads, settlements, and what the reactions to loads that were
    pending still do to nodes and materials. No event of a level, no
    read, no deferred load of a uri, no promise of the extension. *)
Definition abandoned (e : Event) : Prop :=
  match e with
  | EvNew _ k => k = KExternal
  | EvSettled _ _ | EvAdopted _ _ => True
  | EvSetEnabled _ _ _ | EvDisposeNode _ _ _ => True
  | EvDisposeMaterial by_ _ => is_Some by_
  | EvLoadUri by_ _ _ => by_ = None
  | EvNotify _ _ _ | EvReadAsync _ _ _ => False
  end.

(** A method that keeps a disposed extension disposed and adds only
    events of the class [P]. *)
Definition keeps {A} (P : Event → Prop) (m : M A) : Prop :=
  ∀ w, disposed w →
    disposed (m w).2 ∧ ∃ es, trace (m w).2 = es ++ trace w ∧ Forall P es.

(** * Vocabulary of the futures of requests and of the turns *)

(** The transport answers the read [q] of the bytes from [first] on
    with [data], the reaction [r] to the read and the reaction [p] of a
    request for [len] bytes at [offset] run, and the future of the
    request is fulfilled with a view into the buffer of [data], at the
    position of the request relative to [first], that holds the bytes
    [[offset, offset+len)] of the binary chunk [file]. *)
Definition served (w : World) (q r p : pid) (file : list byte) (first : Z)
    (data : ArrayBufferView) (offset len : Z) : Prop :=
  ∃ w' view,
    exec [ASettle q (Some (VView data)); ARun r; ARun p] w = Some w' ∧
    cell_state w' p = Some (Fulfilled (VView view)) ∧
    view_buffer view = view_buffer data ∧
    byteOffset view = (byteOffset data + (offset - first))%Z ∧
    byteLength view = len ∧
    view_bytes view = take (Z.to_nat len) (drop (Z.to_nat offset) file).

(** The reason of the reaction to the load of a level of a node LOD
    sequence: it is created right after the promise [src] of that load,
    which the loader created when it had handed the transform node of the
    level to [assign], where the node is hidden. *)
Definition chained_on_load (e : Event) (past : list Event) : Prop :=
  match e with
  | EvNew p (KThen src (CbNodeLOD _ _)) =>
      p = S src ∧
      ∃ n older, past = EvNew src KExternal :: EvSetEnabled None n false :: older
  | _ => True
  end.

(** The events that create no such reaction. *)
Definition not_node_reaction (e : Event) : Prop :=
  match e with
  | EvNew _ (KThen _ (CbNodeLOD _ _)) => False
  | _ => True
  end.

(** ** Further samples *)

(** The loader's own [loadNodeAsync] for a node without subtree. *)
Definition load_plain_node (node : INode) (assign : nat → M unit) : M nat :=
  loader_loadNodeAsync (mret tt) node assign.

(** Only the middle variant of [lod_node] asks for bytes: level 1 has a
    bucket, level 0 has none. *)
Definition late_bucket_scene : Script :=
  SNode lod_node
    (λ i, match i with
          | 1 => SBuffer no_uri 50 10 SDone
          | _ => SDone
          end)
    SDone.

(** The coarsest and the finest variant of [lod_node] ask for bytes,
    the middle one does not: level 1 has no bucket. *)
Definition gap_scene : Script :=
  SNode lod_node
    (λ i, match i with
          | 2 => SBuffer no_uri 10 5 SDone
          | 1 => SDone
          | _ => SBuffer no_uri 0 10 SDone
          end)
    SDone.

(** A binary chunk of six bytes, and what a read of its bytes 2 to 4
    delivers. *)
Definition six_bytes : list byte := [x00; x01; x02; x03; x04; x05].

Definition bytes_2_to_4 : ArrayBufferView :=
  {| view_buffer := [x02; x03; x04]; byteOffset := 0; byteLength := 3 |}.

(** [plain_scene] is loaded, the loader is ready, and the extension is
    disposed while both loads are pending. *)
Definition disposed_run : list Action := [AHost plain_scene; AOnReady; ADispose].

(** What may still happen then: the loads settle and the reactions that
    wait for them run. *)
Definition after_dispose_run : list Action :=
  [ASettle 0 (Some (VNode 0)); ARun 1; ARun 5; ARun 6; ASettle 3 (Some (VNode 1)); ARun 4].

(** A binary chunk of fifteen bytes, and what a read of all of it
    delivers. *)
Definition fifteen_bytes : list byte :=
  [x00; x01; x02; x03; x04; x05; x06; x07; x08; x09; x0a; x0b; x0c; x0d; x0e].

Definition bytes_0_to_14 : ArrayBufferView :=
  {| view_buffer := fifteen_bytes; byteOffset := 0; byteLength := 15 |}.

(** * Properties *)

(** ** The LOD list *)

Section getLODs.
Context {T : Type}.
Implicit Types (array : option (list T)) (ids rids : list Z) (acc l : list T).

Lemma getLODs_loop_spec C property array rids acc l :
  (Z.of_nat (length acc) < C)%Z →
  getLODs_loop C property array rids acc = Ok l →
  ∃ items,
    Forall2 (resolves array) (take (length items) rids) items ∧
    ((Z.of_nat (length acc + length rids) < C)%Z ∧
       length items = length rids ∧ l = acc ++ items ++ [property]
     ∨ (C ≤ Z.of_nat (length acc + length rids))%Z ∧
       Z.of_nat (length acc + length items) = C ∧ l = acc ++ items).
Proof.
  revert acc. induction rids as [|id rids IH]; intros acc Hacc Hrun; simpl in Hrun.
  - exists []. split; [constructor|]. left.
    injection Hrun as <-. simpl. rewrite Nat.add_0_r. done.
  - destruct (ArrayItem_Get array id) as [item|e] eqn:Hget; [|done].
    rewrite length_app in Hrun. simpl in Hrun.
    destruct (Z.eqb_spec (Z.of_nat (length acc + 1)) C) as [Hfull|Hmore].
    + injection Hrun as <-. exists [item]. split.
      * simpl. rewrite take_0. by repeat constructor.
      * right. simpl. split_and!; [lia|lia|done].
    + destruct (IH (acc ++ [item])) as (items & Hres & Hcases).
      { rewrite length_app. simpl. lia. }
      { done. }
      exists (item :: items). split.
      * simpl. by constructor.
      * rewrite length_app in Hcases. simpl in *.
        destruct Hcases as [(Hlt & Hlen & ->)|(Hge & Hlen & ->)].
        -- left. split_and!; [lia|lia|by rewrite <- !app_assoc].
        -- right. split_and!; [lia|lia|by rewrite <- !app_assoc].
Qed.

Lemma getLODs_loop_total C property array rids acc :
  (∀ id, id ∈ rids → ∃ x, resolves array id x) →
  ∃ l, getLODs_loop C property array rids acc = Ok l.
Proof.
  revert acc. induction rids as [|id rids IH]; intros acc Hall; simpl.
  - eauto.
  - destruct (Hall id) as [x Hx]; [left|]. unfold resolves in Hx. rewrite Hx.
    destruct (_ =? _)%Z; [eauto|].
    apply IH. intros id' Hid'. apply Hall. by right.
Qed.

(** C1 (as the code has it). For a cap [C ≥ 1] and [N] declared ids,
    [_getLODs] returns a list when every id resolves, and a list it
    returns has [min(N+1, C)] entries, coarsest first: the variants of
    the last [min(N, C)] ids in reverse order of declaration, followed
    by the original only when [N < C]. When the cap truncates
    ([C ≤ N]) the original is not in the list by this rule: the loop
    returns as soon as [C] variants are in. *)
Theorem getLODs_spec (C : Z) (property : T) array ids :
  (1 ≤ C)%Z →
  ((∀ id, id ∈ ids → ∃ x, resolves array id x) →
     ∃ l, _getLODs C property array ids = Ok l) ∧
  ∀ l, _getLODs C property array ids = Ok l →
    Z.of_nat (length l) = Z.min (Z.of_nat (length ids) + 1) C ∧
    ∃ items,
      Forall2 (resolves array) (take (length items) (reverse ids)) items ∧
      Z.of_nat (length items) = Z.min (Z.of_nat (length ids)) C ∧
      l = items ++ (if decide (Z.of_nat (length ids) < C)%Z then [property] else []).
Proof.
  intros HC. unfold _getLODs.
  destruct (Z.leb_spec C 0) as [?|_]; [lia|]. split.
  - intros Hall. apply getLODs_loop_total.
    intros id Hid. apply Hall. by apply elem_of_reverse.
  - intros l Hrun.
    apply getLODs_loop_spec in Hrun as (items & Hres & Hcases); [|simpl; lia].
    rewrite length_reverse in Hcases. simpl in Hcases.
    destruct Hcases as [(Hlt & Hlen & ->)|(Hge & Hlen & ->)].
    + split; [rewrite length_app; simpl; lia|].
      exists items. split_and!; [done|lia|]. by rewrite decide_True by lia.
    + split; [lia|].
      exists items. split_and!; [done|lia|].
      rewrite decide_False by lia. by rewrite app_nil_r.
Qed.

End getLODs.

(** A witness of [getLODs_spec]: two ids under the default cap of 10. *)
Lemma getLODs_spec_witness :
  _getLODs 10 7%nat (Some [3; 4; 5]%nat) [1; 2]%Z = Ok [5; 4; 7]%nat ∧
  ∃ items, [5; 4; 7]%nat = items ++ [7%nat] ∧ length items = 2%nat.
Proof.
  split; [reflexivity|].
  destruct (getLODs_spec 10 7%nat (Some [3; 4; 5]%nat) [1; 2]%Z) as [_ Hspec]; [lia|].
  destruct (Hspec [5; 4; 7]%nat) as (_ & items & _ & Hlen & Heq); [reflexivity|].
  exists items. split; [exact Heq|]. simpl in Hlen. lia.
Defined.

(** C1 fails as stated: with one declared id and a cap of 1 the list is
    the single coarser variant and the original is not its last entry. *)
Lemma getLODs_cap_drops_original :
  ∃ l, _getLODs 1 7%nat (Some [3; 4; 5]%nat) [1%Z] = Ok l ∧
       length l = 1%nat ∧ last l ≠ Some 7%nat.
Proof. exists [4%nat]. split_and!; [reflexivity|reflexivity|discriminate]. Qed.

(** ** Running methods *)

Ltac munfold :=
  unfold the_loader, loader_call, gets, modify, throw, lift, when, emit,
    mbind, M_bind, mret, M_ret, fmap, M_fmap in *.

Ltac mrun :=
  repeat (munfold;
          cbn -[js_get js_set lookup insert delete app length
                Z.min Z.max Z.add Z.sub Z.of_nat Z.to_nat Z.ltb Z.eqb Z.leb]).

(** ** Byte-range buckets *)

Lemma js_get_set_eq {A} (i : nat) (x : A) (a : JsArray A) : js_get (js_set i x a) i = Some x.
Proof.
  unfold js_get, js_set. case_decide.
  - by rewrite list_lookup_insert_eq.
  - rewrite lookup_app_r by lia. rewrite lookup_app_r; rewrite length_replicate; [|lia].
    by replace (i - length a - (i - length a))%nat with O by lia.
Qed.

Lemma js_get_set_ne {A} (i j : nat) (x : A) (a : JsArray A) :
  i ≠ j → js_get (js_set i x a) j = js_get a j.
Proof.
  intros Hne. unfold js_get, js_set. case_decide.
  - by rewrite list_lookup_insert_ne.
  - destruct (decide (j < length a)%nat).
    + by rewrite lookup_app_l.
    + rewrite (lookup_ge_None_2 a j) by lia. rewrite lookup_app_r by lia.
      destruct (decide (j < i)%nat).
      * rewrite lookup_app_l by (rewrite length_replicate; lia).
        rewrite lookup_replicate_2; [done|lia].
      * rewrite lookup_ge_None_2; [done|].
        rewrite length_app, length_replicate. simpl. lia.
Qed.

(** The first request of a level creates its bucket, spanning the
    request, with a new deferred for its bytes. *)
Lemma loadBufferAsync_create w buffer offset len :
  range_ready w → uri_missing buffer = true →
  js_get (_bufferLODs w) (current_level w) = None →
  ∃ w', loadBufferAsync buffer offset len w = (Ok (Some (S (length (store w)))), w') ∧
    _bufferLODs w' = js_set (current_level w) (length (bufferLOD_heap w)) (_bufferLODs w) ∧
    bufferLOD_heap w' = bufferLOD_heap w ++
      [{| start := offset; end_ := offset + len - 1; loaded := length (store w) |}] ∧
    store w' = store w ++
      [{| kind := KDeferred; state := Pending |};
       {| kind := KThen (length (store w))
                    (CbBufferView (length (bufferLOD_heap w)) offset len);
          state := Pending |}] ∧
    _loader w' = _loader w ∧ _indexLOD w' = _indexLOD w.
Proof.
  intros (loader & Hl & Hr & Hb) Hu Hnone. unfold current_level in *.
  unfold loadBufferAsync, read_bufferLOD, new_promise. mrun.
  rewrite Hl. mrun. rewrite Hr, Hu, Hb. mrun. rewrite Hnone. mrun.
  rewrite list_lookup_middle by done. mrun.
  eexists. split; [f_equal; f_equal; f_equal; rewrite length_app; simpl; lia|].
  mrun. by rewrite <- app_assoc.
Qed.

(** A later request widens the bucket and is chained on the same
    deferred. *)
Lemma loadBufferAsync_widen w buffer offset len b bucket :
  range_ready w → uri_missing buffer = true →
  js_get (_bufferLODs w) (current_level w) = Some b →
  bufferLOD_heap w !! b = Some bucket →
  ∃ w', loadBufferAsync buffer offset len w = (Ok (Some (length (store w))), w') ∧
    _bufferLODs w' = _bufferLODs w ∧
    bufferLOD_heap w' = <[b := widen bucket (offset, len)]> (bufferLOD_heap w) ∧
    store w' = store w ++
      [{| kind := KThen (loaded bucket) (CbBufferView b offset len); state := Pending |}] ∧
    _loader w' = _loader w ∧ _indexLOD w' = _indexLOD w.
Proof.
  intros (loader & Hl & Hr & Hb) Hu Hsome Hheap. unfold current_level in *.
  unfold loadBufferAsync, read_bufferLOD, new_promise. mrun.
  rewrite Hl. mrun. rewrite Hr, Hu, Hb. mrun. rewrite Hsome. mrun.
  rewrite Hheap. mrun.
  rewrite list_lookup_insert_eq by (by eapply lookup_lt_Some). mrun.
  eexists. split; [done|]. mrun. done.
Qed.

Lemma range_ready_fields w w' :
  _loader w' = _loader w → range_ready w → range_ready w'.
Proof. intros Heq (loader & ? & ? & ?). exists loader. by rewrite Heq. Qed.

(** Requests that follow each other on a level that has its bucket. *)
Lemma requests_widen buffer reqs : ∀ w b bucket,
  range_ready w → uri_missing buffer = true →
  js_get (_bufferLODs w) (current_level w) = Some b →
  bufferLOD_heap w !! b = Some bucket →
  ∃ w', host (requests buffer reqs) w = (Ok tt, w') ∧
    _bufferLODs w' = _bufferLODs w ∧
    bufferLOD_heap w' = <[b := foldl widen bucket reqs]> (bufferLOD_heap w) ∧
    store w' = store w ++
      ((λ req, {| kind := KThen (loaded bucket) (CbBufferView b req.1 req.2);
                  state := Pending |}) <$> reqs) ∧
    _loader w' = _loader w ∧ _indexLOD w' = _indexLOD w.
Proof.
  induction reqs as [|[offset len] reqs IH]; intros w b bucket Hready Hu Hb Hheap.
  - exists w. simpl. rewrite app_nil_r. split_and!; try done.
    by rewrite list_insert_id.
  - destruct (loadBufferAsync_widen w buffer offset len b bucket)
      as (w1 & Hrun & Hbufs & Hheap1 & Hstore & Hl & Hi); try done.
    destruct (IH w1 b (widen bucket (offset, len))) as (w2 & Hrun2 & ? & Hheap2 & Hstore2 & ? & ?).
    { by eapply range_ready_fields. }
    { done. }
    { unfold current_level in *. by rewrite Hbufs, Hi. }
    { rewrite Hheap1. apply list_lookup_insert_eq. by eapply lookup_lt_Some. }
    exists w2. simpl. mrun. rewrite Hrun. mrun. rewrite Hrun2.
    split_and!; try congruence.
    + rewrite Hheap2, Hheap1. by rewrite list_insert_insert_eq.
    + rewrite Hstore2, Hstore. simpl. by rewrite <- app_assoc.
Qed.

(** The range a bucket ends with covers every request folded into it. *)
Lemma foldl_widen_loaded reqs : ∀ bucket, loaded (foldl widen bucket reqs) = loaded bucket.
Proof. induction reqs as [|req reqs IH]; intros bucket; simpl; [done|]. by rewrite IH. Qed.

Lemma foldl_widen_grows reqs : ∀ bucket,
  (start (foldl widen bucket reqs) ≤ start bucket)%Z ∧
  (end_ bucket ≤ end_ (foldl widen bucket reqs))%Z.
Proof.
  induction reqs as [|req reqs IH]; intros bucket; simpl; [lia|].
  destruct (IH (widen bucket req)). simpl in *. lia.
Qed.

Lemma foldl_widen_covers reqs : ∀ bucket req,
  req ∈ reqs →
  (start (foldl widen bucket reqs) ≤ req.1)%Z ∧
  (req.1 + req.2 - 1 ≤ end_ (foldl widen bucket reqs))%Z.
Proof.
  induction reqs as [|req' reqs IH]; intros bucket req Hin; [by apply elem_of_nil in Hin|].
  apply elem_of_cons in Hin as [->|Hin]; simpl.
  - destruct (foldl_widen_grows reqs (widen bucket req')). simpl in *. lia.
  - by apply IH.
Qed.

(** [_loadBufferLOD] issues one read, for the range the bucket has at
    that moment, and registers the reaction that hands the bytes over. *)
Lemma loadBufferLOD_reads w indexLOD b bucket :
  range_ready w →
  js_get (_bufferLODs w) indexLOD = Some b →
  bufferLOD_heap w !! b = Some bucket →
  ∃ w', _loadBufferLOD indexLOD w = (Ok tt, w') ∧
    trace w' = EvNew (S (length (store w))) (KThen (length (store w)) (CbBufferRead b))
               :: EvReadAsync (start bucket) (end_ bucket - start bucket + 1) (length (store w))
               :: EvNew (length (store w)) KExternal :: trace w ∧
    store w' = store w ++ [{| kind := KExternal; state := Pending |};
                           {| kind := KThen (length (store w)) (CbBufferRead b);
                              state := Pending |}] ∧
    _bufferLODs w' = _bufferLODs w ∧ bufferLOD_heap w' = bufferLOD_heap w ∧
    _loader w' = _loader w ∧ _indexLOD w' = _indexLOD w.
Proof.
  intros (loader & Hl & Hr & Hb) Hsome Hheap.
  unfold _loadBufferLOD, readAsync, read_bufferLOD, new_promise. mrun.
  rewrite Hsome, Hl. mrun. rewrite Hb. mrun. rewrite Hheap. mrun.
  eexists. split; [done|]. mrun.
  rewrite length_app. simpl. rewrite Nat.add_1_r, <- app_assoc. done.
Qed.

(** The bytes of the read resolve the deferred of the bucket. *)
Lemma buffer_read_resolves w p b bucket data :
  bufferLOD_heap w !! b = Some bucket →
  store w !! loaded bucket = Some {| kind := KDeferred; state := Pending |} →
  ∃ w', run_callback p (CbBufferRead b) data w = (Ok (inl VUndefined), w') ∧
    store w' = <[loaded bucket := {| kind := KDeferred; state := Fulfilled data |}]> (store w) ∧
    bufferLOD_heap w' = bufferLOD_heap w.
Proof.
  intros Hheap Hd. unfold run_callback, read_bufferLOD, Deferred_settle, settle. mrun.
  rewrite Hheap. mrun. rewrite Hd. mrun. rewrite Hd. mrun.
  eexists. split; [done|]. done.
Qed.

Lemma take_drop_take {A} (l : list A) (n m k : nat) :
  (m + k ≤ n)%nat → take k (drop m (take n l)) = take k (drop m l).
Proof.
  intros Hle. rewrite skipn_firstn_comm, take_take. f_equal. lia.
Qed.

(** The future of a request yields the bytes [offset, offset + length)
    of the binary chunk, cut out of the one buffer that was fetched for
    the bucket, at [offset - start]. *)
Lemma buffer_view_slices file w b bucket data offset len :
  bufferLOD_heap w !! b = Some bucket →
  fetched file (start bucket) (end_ bucket) data →
  (start bucket ≤ offset)%Z → (0 ≤ len)%Z → (offset + len - 1 ≤ end_ bucket)%Z →
  ∃ view, cb_buffer_view b offset len (VView data) w = (Ok (VView view), w) ∧
    view_buffer view = view_buffer data ∧
    byteOffset view = (byteOffset data + (offset - start bucket))%Z ∧
    byteLength view = len ∧
    view_bytes view = take (Z.to_nat len) (drop (Z.to_nat offset) file).
Proof.
  intros Hheap (Hs & He & Hbo & Hfit & Hbl & Hbytes) Hlo Hlen Hhi.
  unfold cb_buffer_view, read_bufferLOD, new_Uint8Array. mrun. rewrite Hheap. mrun.
  destruct (Z.ltb_spec (byteOffset data + offset - start bucket) 0); [lia|].
  destruct (Z.ltb_spec len 0); [lia|].
  destruct (Z.ltb_spec (Z.of_nat (length (view_buffer data)))
              (byteOffset data + offset - start bucket + len)); [lia|].
  mrun. eexists. split; [done|]. simpl. split_and!; [done|lia|done|].
  unfold view_bytes in *. simpl.
  transitivity (take (Z.to_nat len) (drop (Z.to_nat (offset - start bucket))
                  (take (Z.to_nat (byteLength data))
                     (drop (Z.to_nat (byteOffset data)) (view_buffer data))))).
  - rewrite take_drop_take by lia. rewrite drop_drop. do 2 f_equal. lia.
  - rewrite Hbytes. rewrite take_drop_take by lia. rewrite drop_drop. do 2 f_equal. lia.
Qed.


(** ** Methods and the history: a calculus of [tracks] *)

Lemma evolves_app st es1 st1 es2 st2 :
  evolves st es1 st1 → evolves st1 es2 st2 → evolves st (es2 ++ es1) st2.
Proof.
  intros H1 H2. induction H2 as [|e es st2 st3 _ IH Hstep]; simpl; [done|].
  by econstructor.
Qed.

Section calculus.
Context (J : Event → list Event → Prop).

Lemma tracks_mono {A} (P Q : Event → Prop) (m : M A) :
  (∀ e, P e → Q e) → tracks_with J P m → tracks_with J Q m.
Proof.
  intros HPQ Hm w. destruct (Hm w) as (es & ? & HP & ? & ?).
  exists es. split_and!; [done| |done|done]. by eapply Forall_impl.
Qed.

Lemma tracks_silent {A} P (m : M A) :
  (∀ w, trace (m w).2 = trace w ∧ store (m w).2 = store w) → tracks_with J P m.
Proof.
  intros H w. destruct (H w) as [Ht Hs]. exists []. rewrite Ht, Hs.
  split_and!; [done|constructor|constructor|done].
Qed.

Lemma tracks_ret {A} P (a : A) : tracks_with J P (mret a).
Proof. by apply tracks_silent. Qed.

Lemma tracks_throw {A} P e : tracks_with J P (throw (A:=A) e).
Proof. by apply tracks_silent. Qed.

Lemma tracks_gets {A} P (f : World → A) : tracks_with J P (gets f).
Proof. by apply tracks_silent. Qed.

Lemma tracks_lift {A} P (r : Res A) : tracks_with J P (lift r).
Proof. by apply tracks_silent. Qed.

Lemma tracks_modify P (f : World → World) :
  (∀ w, trace (f w) = trace w ∧ store (f w) = store w) → tracks_with J P (modify f).
Proof. intros H. by apply tracks_silent. Qed.

Lemma tracks_bind {A B} P (m : M A) (f : A → M B) :
  tracks_with J P m → (∀ a, tracks_with J P (f a)) → tracks_with J P (m ≫= f).
Proof.
  intros Hm Hf w. destruct (Hm w) as (es1 & Ht1 & HP1 & Hs1 & Hh1).
  unfold mbind, M_bind. destruct (m w) as [[a|e] w1]; simpl in *.
  - destruct (Hf a w1) as (es2 & Ht2 & HP2 & Hs2 & Hh2).
    exists (es2 ++ es1). split_and!.
    + by rewrite Ht2, Ht1, app_assoc.
    + by apply Forall_app.
    + by eapply evolves_app.
    + intros Hok. rewrite <- app_assoc, <- Ht1. apply Hh2. rewrite Ht1. by apply Hh1.
  - by exists es1.
Qed.

Lemma tracks_fmap {A B} P (g : A → B) (m : M A) :
  tracks_with J P m → tracks_with J P (g <$> m).
Proof. intros Hm. apply tracks_bind; [done|]. intros a. apply tracks_ret. Qed.

Lemma tracks_when P (b : bool) (m : M unit) :
  tracks_with J P m → tracks_with J P (when b m).
Proof. intros Hm. destruct b; [done|]. apply tracks_ret. Qed.

Lemma tracks_for_range P (body : nat → M unit) count : ∀ first,
  (∀ i, tracks_with J P (body i)) → tracks_with J P (for_range first count body).
Proof.
  induction count as [|count IH]; intros first Hbody; simpl; [apply tracks_ret|].
  apply tracks_bind; [done|]. intros _. by apply IH.
Qed.

Lemma tracks_for_each {A} P (body : A → M unit) (l : list A) :
  (∀ x, tracks_with J P (body x)) → tracks_with J P (for_each l body).
Proof.
  intros Hbody. induction l as [|x l IH]; simpl; [apply tracks_ret|].
  apply tracks_bind; [done|]. by intros _.
Qed.

Lemma tracks_emit P (e : Event) :
  P e → (∀ st, store_step st e st) → (∀ past, J e past) → tracks_with J P (emit e).
Proof.
  intros HP He HJ w. exists [e]. split_and!; [done|by constructor| |].
  - econstructor; [constructor|]. simpl. apply He.
  - intros Hok. simpl. split; [apply HJ|done].
Qed.

Lemma tracks_new_promise P k :
  (∀ p, P (EvNew p k)) → (∀ p past, J (EvNew p k) past) →
  tracks_with J P (new_promise k).
Proof.
  intros HP HJ w. exists [EvNew (length (store w)) k].
  split_and!; [done|by constructor| |].
  - econstructor; [constructor|]. done.
  - intros Hok. simpl. split; [apply HJ|done].
Qed.

Lemma tracks_Deferred_settle P d s :
  settled s = true → P (EvSettled d s) → (∀ past, J (EvSettled d s) past) →
  tracks_with J P (Deferred_settle d s).
Proof.
  intros Hs HP HJ w. unfold Deferred_settle, settle. mrun.
  destruct (store w !! d) as [c|] eqn:Hc; simpl;
    [|exists []; split_and!; [done|constructor..|done]].
  destruct (kind c) eqn:Hk; simpl; try (exists []; split_and!; [done|constructor..|done]).
  rewrite Hc.
  destruct (settled (state c)) eqn:Hsc; [exists []; split_and!; [done|constructor..|done]|].
  exists [EvSettled d s]. split_and!; [done|by constructor| |by split].
  econstructor; [constructor|]. simpl. exists c. split_and!; try done.
  unfold may_settle. by rewrite Hk.
Qed.
End calculus.

(** One step of a proof that a method [tracks]. *)
Ltac tracks_step :=
  lazymatch goal with
  | |- tracks_with _ _ (mret _) => apply tracks_ret
  | |- tracks_with _ _ (throw _) => apply tracks_throw
  | |- tracks_with _ _ (gets _) => apply tracks_gets
  | |- tracks_with _ _ (lift _) => apply tracks_lift
  | |- tracks_with _ _ (_ ≫= _) => apply tracks_bind; [|intros ?]
  | |- tracks_with _ _ (_ <$> _) => apply tracks_fmap
  | |- tracks_with _ _ (when _ _) => apply tracks_when
  | |- tracks_with _ _ (for_range _ _ _) => apply tracks_for_range; intros ?
  | |- tracks_with _ _ (for_each _ _) => apply tracks_for_each; intros ?
  | |- tracks_with _ _ (modify _) => apply tracks_modify; intros ?; split; reflexivity
  | |- tracks_with _ _ (emit _) =>
      apply tracks_emit; [simpl; tauto|intros ?; reflexivity|intros ?; exact I]
  | |- tracks_with _ _ (new_promise _) =>
      apply tracks_new_promise; [intros ?; simpl; tauto|intros ? ?; exact I]
  | |- tracks_with _ _ (match ?x with _ => _ end) => destruct x
  | |- tracks_with _ _ (let _ := _ in _) => cbv zeta
  end.

Ltac tracks_auto := repeat tracks_step.

Section calculus_of_helpers.
Context (J : Event → list Event → Prop) (P : Event → Prop).

Lemma tracks_the_loader : tracks_with J P the_loader.
Proof. unfold the_loader. tracks_auto. Qed.

Lemma tracks_loader_call : tracks_with J P loader_call.
Proof. unfold loader_call. tracks_auto. apply tracks_the_loader. Qed.

Lemma tracks_fresh_object : tracks_with J P fresh_object.
Proof. by apply tracks_silent. Qed.

Lemma tracks_read_bufferLOD b : tracks_with J P (read_bufferLOD b).
Proof. unfold read_bufferLOD. tracks_auto. Qed.

Lemma tracks_assign_material babylonMesh m :
  tracks_with J P (assign_material babylonMesh m).
Proof. unfold assign_material. tracks_auto. Qed.

Lemma tracks_disposeUnusedMaterials by_ :
  (∀ m, P (EvDisposeMaterial by_ m)) → (∀ m past, J (EvDisposeMaterial by_ m) past) →
  tracks_with J P (_disposeUnusedMaterials by_).
Proof.
  intros HP HJ. unfold _disposeUnusedMaterials, dispose_if_unused.
  tracks_auto; try apply tracks_the_loader. by apply tracks_emit.
Qed.
End calculus_of_helpers.

Lemma tracks_or_new_Deferred d : tracks passive (or_new_Deferred d).
Proof. unfold or_new_Deferred. tracks_auto. Qed.

Lemma tracks_readAsync offset len : tracks passive (readAsync offset len).
Proof. unfold readAsync. tracks_auto. Qed.

Lemma tracks_loader_loadUriAsync uri : tracks passive (loader_loadUriAsync None uri).
Proof. unfold loader_loadUriAsync. tracks_auto. Qed.

(** *** The methods, as the loader calls them *)

Lemma tracks_loadBufferLOD indexLOD : tracks passive (_loadBufferLOD indexLOD).
Proof.
  unfold _loadBufferLOD. tracks_auto;
    try apply tracks_the_loader; try apply tracks_read_bufferLOD.
  apply tracks_readAsync.
Qed.

Lemma tracks_loadBufferAsync buffer offset len :
  tracks passive (loadBufferAsync buffer offset len).
Proof.
  unfold loadBufferAsync. tracks_auto;
    try apply tracks_the_loader; try apply tracks_read_bufferLOD.
Qed.

Lemma tracks_previous_signal k indexLOD : tracks passive (previous_signal k indexLOD).
Proof.
  unfold previous_signal. destruct k, indexLOD; tracks_auto;
    apply tracks_or_new_Deferred.
Qed.

Lemma tracks_loadUriAsync uri : tracks passive (_loadUriAsync uri).
Proof.
  unfold _loadUriAsync. tracks_auto;
    try apply tracks_loader_call; apply tracks_previous_signal.
Qed.

Lemma tracks_loader_loadNodeAsync body node assign :
  tracks passive body → (∀ n, tracks passive (assign n)) →
  tracks passive (loader_loadNodeAsync body node assign).
Proof.
  intros Hbody Hassign. unfold loader_loadNodeAsync. tracks_auto; try done.
  apply tracks_fresh_object.
Qed.

Lemma tracks_loader_loadMaterialAsync body material babylonMesh babylonDrawMode assign :
  tracks passive body → (∀ m, tracks passive (assign m)) →
  tracks passive (loader_loadMaterialAsync body material babylonMesh babylonDrawMode assign).
Proof.
  intros Hbody Hassign. unfold loader_loadMaterialAsync. tracks_auto; try done.
  apply tracks_fresh_object.
Qed.

Lemma tracks_loadNodeAsync_before indexLOD : tracks passive (loadNodeAsync_before indexLOD).
Proof.
  unfold loadNodeAsync_before. tracks_auto; try apply tracks_loader_call.
  apply tracks_or_new_Deferred.
Qed.

Lemma tracks_loadNodeAsync_after nodeLODs indexLOD src firstPromise :
  tracks passive (loadNodeAsync_after nodeLODs indexLOD src firstPromise).
Proof.
  unfold loadNodeAsync_after. tracks_auto.
  apply tracks_loadBufferLOD.
Qed.

Lemma tracks_loadNodeAsync_loop loader_loadNode nodeLODs rest :
  (∀ node assign, (∀ n, tracks passive (assign n)) →
     tracks passive (loader_loadNode node assign)) →
  ∀ indexLOD firstPromise,
    tracks passive (loadNodeAsync_loop loader_loadNode nodeLODs rest indexLOD firstPromise).
Proof.
  intros Hload. induction rest as [|nodeLOD rest IH]; intros indexLOD firstPromise; simpl.
  - apply tracks_ret.
  - tracks_auto.
    + apply tracks_loadNodeAsync_before.
    + apply Hload. intros n. tracks_auto.
    + apply tracks_loadNodeAsync_after.
    + apply IH.
Qed.

Lemma tracks_loadNodeAsync loader_loadNode node :
  (∀ node assign, (∀ n, tracks passive (assign n)) →
     tracks passive (loader_loadNode node assign)) →
  tracks passive (loadNodeAsync loader_loadNode node).
Proof.
  intros Hload. unfold loadNodeAsync, LoadExtensionAsync. tracks_auto;
    try apply tracks_the_loader; try apply tracks_loader_call.
  by apply tracks_loadNodeAsync_loop.
Qed.

Lemma tracks_loadMaterialAsync_before indexLOD :
  tracks passive (_loadMaterialAsync_before indexLOD).
Proof. unfold _loadMaterialAsync_before. tracks_auto. apply tracks_loader_call. Qed.

Lemma tracks_loadMaterialAsync_after materialLODs indexLOD babylonMesh babylonDrawMode
    src firstPromise :
  tracks passive (_loadMaterialAsync_after materialLODs indexLOD babylonMesh
                    babylonDrawMode src firstPromise).
Proof.
  unfold _loadMaterialAsync_after. tracks_auto.
  apply tracks_loadBufferLOD.
Qed.

Lemma tracks_loadMaterialAsync_loop loader_loadMaterial materialLODs rest
    babylonMesh babylonDrawMode :
  (∀ material mesh drawMode assign, (∀ m, tracks passive (assign m)) →
     tracks passive (loader_loadMaterial material mesh drawMode assign)) →
  ∀ indexLOD firstPromise,
    tracks passive (_loadMaterialAsync_loop loader_loadMaterial materialLODs rest
                      babylonMesh babylonDrawMode indexLOD firstPromise).
Proof.
  intros Hload. induction rest as [|materialLOD rest IH]; intros indexLOD firstPromise; simpl.
  - apply tracks_ret.
  - tracks_auto.
    + apply tracks_loadMaterialAsync_before.
    + apply Hload. intros m. tracks_auto. apply tracks_assign_material.
    + apply tracks_loadMaterialAsync_after.
    + apply IH.
Qed.

Lemma tracks_loadMaterialAsync loader_loadMaterial material babylonMesh babylonDrawMode :
  (∀ material mesh drawMode assign, (∀ m, tracks passive (assign m)) →
     tracks passive (loader_loadMaterial material mesh drawMode assign)) →
  tracks passive (_loadMaterialAsync loader_loadMaterial material babylonMesh babylonDrawMode).
Proof.
  intros Hload. unfold _loadMaterialAsync, LoadExtensionAsync. tracks_auto;
    try apply tracks_the_loader; try apply tracks_loader_call.
  by apply tracks_loadMaterialAsync_loop.
Qed.

(** Whatever the loader asks for, the extension answers with passive
    events only: it creates promises, hides a node that is being loaded,
    starts reads and loads, and nothing else. *)
Lemma tracks_host s : tracks passive (host s).
Proof.
  induction s as [|buffer offset len next IH|uri next IH
                 |material babylonMesh babylonDrawMode inner IHinner next IH
                 |node inner IHinner next IH]; simpl.
  - apply tracks_ret.
  - tracks_auto; [apply tracks_loadBufferAsync|done].
  - tracks_auto; [apply tracks_loadUriAsync| |done].
    apply tracks_loader_loadUriAsync.
  - tracks_auto; try done.
    + apply tracks_loadMaterialAsync. intros m mesh drawMode assign Hassign.
      by apply tracks_loader_loadMaterialAsync.
    + apply tracks_loader_loadMaterialAsync; [done|].
      intros m. apply tracks_assign_material.
  - tracks_auto; try done.
    + apply tracks_loadNodeAsync. intros n assign Hassign.
      by apply tracks_loader_loadNodeAsync.
    + apply tracks_loader_loadNodeAsync; [done|]. intros n. apply tracks_ret.
Qed.

Lemma tracks_dispose : tracks passive dispose.
Proof. unfold dispose. tracks_auto. apply tracks_disposeUnusedMaterials; intros; simpl; tauto. Qed.

(** *** The closures *)

Lemma emits_run_callback p cb v : emits (in_reaction p) (run_callback p cb v).
Proof.
  destruct cb; simpl.
  - unfold cb_level_loaded, resolve_signal. tracks_auto; try apply tracks_loader_call.
    by apply tracks_Deferred_settle.
  - unfold cb_node_lod, dispose_previous, enable_mesh. tracks_auto.
    by apply tracks_disposeUnusedMaterials.
  - unfold cb_material_lod. tracks_auto; apply tracks_assign_material.
  - unfold loader_loadUriAsync. tracks_auto. apply tracks_loader_call.
  - unfold cb_buffer_view. tracks_auto. apply tracks_read_bufferLOD.
  - tracks_auto; [apply tracks_read_bufferLOD|]. by apply tracks_Deferred_settle.
Qed.

Lemma emits_run_rejection p cb handler :
  run_rejection cb = Some handler → emits (in_reaction p) handler.
Proof.
  destruct cb; simpl; intros [= <-].
  tracks_auto; [apply tracks_read_bufferLOD|]. by apply tracks_Deferred_settle.
Qed.

(** ** The store as the history leaves it *)

Lemma evolves_length st es st' : evolves st es st' → length st ≤ length st'.
Proof.
  induction 1 as [|e es st1 st2 _ IH Hstep]; [done|].
  destruct e as [p' k'|p' s'|p' q'| | | | | | ]; simpl in Hstep; try (by subst).
  - destruct Hstep as [_ ->]. rewrite length_app. simpl. lia.
  - destruct Hstep as (c & _ & _ & _ & _ & ->). by rewrite length_insert.
  - destruct Hstep as (c & src & cb & _ & _ & _ & _ & ->). by rewrite length_insert.
Qed.

(** A promise keeps its kind; once it has left [Pending] it does not
    come back, and once settled it does not change. *)
Lemma evolves_lookup st es st' :
  evolves st es st' → ∀ p c, st !! p = Some c →
  ∃ c', st' !! p = Some c' ∧ kind c' = kind c ∧
        (state c ≠ Pending → state c' ≠ Pending) ∧
        (settled (state c) = true → c' = c).
Proof.
  induction 1 as [|e es st1 st2 _ IH Hstep]; intros p c Hc; [by exists c|].
  destruct (IH p c Hc) as (c1 & Hc1 & Hk1 & Hp1 & Hs1).
  destruct e as [p' k'|p' s'|p' q'| | | | | | ]; simpl in Hstep; try (subst; by exists c1).
  - destruct Hstep as [_ ->]. exists c1. split_and!; try done.
    rewrite lookup_app_l; [done|]. by eapply lookup_lt_Some.
  - destruct Hstep as (c0 & Hc0 & Hunsettled & Hs & _ & ->).
    destruct (decide (p' = p)) as [Heq|Hne]; [subst p'|].
    + rewrite Hc1 in Hc0. injection Hc0 as <-.
      eexists. split; [apply list_lookup_insert_eq; by eapply lookup_lt_Some|].
      simpl. split_and!; [done| |].
      * intros _ ->. done.
      * intros Hset. rewrite (Hs1 Hset) in Hunsettled. congruence.
    + exists c1. by rewrite list_lookup_insert_ne.
  - destruct Hstep as (c0 & src & cb & Hc0 & Hpending & _ & _ & ->).
    destruct (decide (p' = p)) as [Heq|Hne]; [subst p'|].
    + rewrite Hc1 in Hc0. injection Hc0 as <-.
      eexists. split; [apply list_lookup_insert_eq; by eapply lookup_lt_Some|].
      simpl. split_and!; [done|done|].
      intros Hset. rewrite (Hs1 Hset) in Hpending. rewrite Hpending in Hset. done.
    + exists c1. by rewrite list_lookup_insert_ne.
Qed.

(** Every promise of the store was created by an event of the history. *)
Lemma evolves_new st es st' :
  evolves st es st' → ∀ p c', st' !! p = Some c' →
  p < length st ∨ EvNew p (kind c') ∈ es.
Proof.
  induction 1 as [|e es st1 st2 _ IH Hstep]; intros p c' Hc'.
  { left. by eapply lookup_lt_Some. }
  destruct e as [p' k'|p' s'|p' q'| | | | | | ]; simpl in Hstep;
    try (subst; destruct (IH p c' Hc') as [?|?]; [by left|right; by apply elem_of_cons; right]).
  - destruct Hstep as [-> ->].
    destruct (decide (p < length st1)) as [Hlt|Hge].
    + rewrite lookup_app_l in Hc' by done.
      destruct (IH p c' Hc') as [?|?]; [by left|right; by apply elem_of_cons; right].
    + apply lookup_lt_Some in Hc' as Hlen. rewrite length_app in Hlen. simpl in Hlen.
      assert (p = length st1) as -> by lia.
      rewrite list_lookup_middle in Hc' by done. injection Hc' as <-.
      right. simpl. apply elem_of_cons. by left.
  - destruct Hstep as (c0 & Hc0 & _ & _ & _ & ->).
    destruct (decide (p' = p)) as [Heq|Hne]; [subst p'|].
    + rewrite list_lookup_insert_eq in Hc' by (by eapply lookup_lt_Some).
      injection Hc' as <-. simpl.
      destruct (IH p c0 Hc0) as [?|?]; [by left|right; by apply elem_of_cons; right].
    + rewrite list_lookup_insert_ne in Hc' by done.
      destruct (IH p c' Hc') as [?|?]; [by left|right; by apply elem_of_cons; right].
  - destruct Hstep as (c0 & src & cb & Hc0 & _ & _ & _ & ->).
    destruct (decide (p' = p)) as [Heq|Hne]; [subst p'|].
    + rewrite list_lookup_insert_eq in Hc' by (by eapply lookup_lt_Some).
      injection Hc' as <-. simpl.
      destruct (IH p c0 Hc0) as [?|?]; [by left|right; by apply elem_of_cons; right].
    + rewrite list_lookup_insert_ne in Hc' by done.
      destruct (IH p c' Hc') as [?|?]; [by left|right; by apply elem_of_cons; right].
Qed.

(** Every promise an event created is in the store, with its kind. *)
Lemma evolves_new_inv st es st' :
  evolves st es st' → ∀ p k, EvNew p k ∈ es →
  ∃ c', st' !! p = Some c' ∧ kind c' = k ∧ length st ≤ p.
Proof.
  induction 1 as [|e es st1 st2 Hev IH Hstep]; intros p k Hin.
  { by apply elem_of_nil in Hin. }
  assert (evolves st1 [e] st2) as Hone by (econstructor; [constructor|done]).
  apply elem_of_cons in Hin as [<-|Hin].
  - simpl in Hstep. destruct Hstep as [-> ->].
    eexists. split; [by apply list_lookup_middle|]. split; [done|].
    by eapply evolves_length.
  - destruct (IH p k Hin) as (c1 & Hc1 & Hk1 & Hlen).
    destruct (evolves_lookup _ _ _ Hone p c1 Hc1) as (c2 & Hc2 & Hk2 & _).
    exists c2. split_and!; [done|congruence|done].
Qed.

(** Every settled promise was settled by an event of the history. *)
Lemma evolves_settled st es st' :
  evolves st es st' → ∀ p c', st' !! p = Some c' → settled (state c') = true →
  st !! p = Some c' ∨ EvSettled p (state c') ∈ es.
Proof.
  induction 1 as [|e es st1 st2 _ IH Hstep]; intros p c' Hc' Hset; [by left|].
  destruct e as [p' k'|p' s'|p' q'| | | | | | ]; simpl in Hstep;
    try (subst; destruct (IH p c' Hc' Hset) as [?|?];
         [by left|right; by apply elem_of_cons; right]).
  - destruct Hstep as [-> ->].
    destruct (decide (p < length st1)) as [Hlt|Hge].
    + rewrite lookup_app_l in Hc' by done.
      destruct (IH p c' Hc' Hset) as [?|?]; [by left|right; by apply elem_of_cons; right].
    + apply lookup_lt_Some in Hc' as Hlen. rewrite length_app in Hlen. simpl in Hlen.
      assert (p = length st1) as -> by lia.
      rewrite list_lookup_middle in Hc' by done. injection Hc' as <-. done.
  - destruct Hstep as (c0 & Hc0 & _ & _ & _ & ->).
    destruct (decide (p' = p)) as [Heq|Hne]; [subst p'|].
    + rewrite list_lookup_insert_eq in Hc' by (by eapply lookup_lt_Some).
      injection Hc' as <-. simpl. right. apply elem_of_cons. by left.
    + rewrite list_lookup_insert_ne in Hc' by done.
      destruct (IH p c' Hc' Hset) as [?|?]; [by left|right; by apply elem_of_cons; right].
  - destruct Hstep as (c0 & src & cb & Hc0 & _ & _ & _ & ->).
    destruct (decide (p' = p)) as [Heq|Hne]; [subst p'|].
    + rewrite list_lookup_insert_eq in Hc' by (by eapply lookup_lt_Some).
      injection Hc' as <-. done.
    + rewrite list_lookup_insert_ne in Hc' by done.
      destruct (IH p c' Hc' Hset) as [?|?]; [by left|right; by apply elem_of_cons; right].
Qed.

Lemma evolves_fulfilled_event es st q :
  evolves [] es st → src_fulfilled st q → ∃ v, EvSettled q (Fulfilled v) ∈ es.
Proof.
  intros Hev (c & v & Hc & Hv). exists v.
  destruct (evolves_settled _ _ _ Hev q c Hc) as [Hnil|Hin].
  - by rewrite Hv.
  - by rewrite lookup_nil in Hnil.
  - by rewrite Hv in Hin.
Qed.

Lemma evolves_settled_event es st src :
  evolves [] es st → src_settled st src → ∃ s, EvSettled src s ∈ es.
Proof.
  intros Hev (c & Hc & Hs). exists (state c).
  destruct (evolves_settled _ _ _ Hev src c Hc Hs) as [Hnil|Hin]; [|done].
  by rewrite lookup_nil in Hnil.
Qed.

(** A fulfilled [Promise.all] had every source fulfilled before. *)
Lemma evolves_all_fulfilled es st :
  evolves [] es st → ∀ a c srcs v,
  st !! a = Some c → kind c = KAll srcs → state c = Fulfilled v →
  ∃ l, srcs = Some l ∧ ∀ q, q ∈ l → ∃ v', EvSettled q (Fulfilled v') ∈ es.
Proof.
  intros Hev. remember [] as st0 eqn:Hst0. revert Hst0.
  induction Hev as [|e es st1 st2 Hev IH Hstep]; intros Hst0 a c srcs v Hc Hk Hv.
  { subst. by rewrite lookup_nil in Hc. }
  specialize (IH Hst0).
  assert (∀ c1, st1 !! a = Some c1 → kind c1 = KAll srcs → state c1 = Fulfilled v →
    ∃ l, srcs = Some l ∧ ∀ q, q ∈ l → ∃ v', EvSettled q (Fulfilled v') ∈ e :: es) as Hold.
  { intros c1 Hc1 Hk1 Hv1. destruct (IH a c1 srcs v Hc1 Hk1 Hv1) as (l & -> & Hl).
    exists l. split; [done|]. intros q Hq. destruct (Hl q Hq) as [v' Hv'].
    exists v'. apply elem_of_cons. by right. }
  destruct e as [p' k'|p' s'|p' q'| | | | | | ]; simpl in Hstep;
    try (subst st2; by eapply Hold).
  - destruct Hstep as [-> ->].
    destruct (decide (a < length st1)) as [Hlt|Hge].
    + rewrite lookup_app_l in Hc by done. by eapply Hold.
    + apply lookup_lt_Some in Hc as Hlen. rewrite length_app in Hlen. simpl in Hlen.
      assert (a = length st1) as -> by lia.
      rewrite list_lookup_middle in Hc by done. injection Hc as <-. done.
  - destruct Hstep as (c0 & Hc0 & _ & _ & Hmay & ->).
    destruct (decide (p' = a)) as [Heq|Hne]; [subst p'|].
    + rewrite list_lookup_insert_eq in Hc by (by eapply lookup_lt_Some).
      injection Hc as <-. simpl in *. subst s'.
      unfold may_settle in Hmay. rewrite Hk in Hmay.
      destruct (Hmay v eq_refl) as (l & -> & Hl). exists l. split; [done|].
      intros q Hq. subst st0.
      destruct (evolves_fulfilled_event es st1 q Hev (Hl q Hq)) as [v' Hv'].
      exists v'. apply elem_of_cons. by right.
    + rewrite list_lookup_insert_ne in Hc by done. by eapply Hold.
  - destruct Hstep as (c0 & src & cb & Hc0 & _ & _ & _ & ->).
    destruct (decide (p' = a)) as [Heq|Hne]; [subst p'|].
    + rewrite list_lookup_insert_eq in Hc by (by eapply lookup_lt_Some).
      injection Hc as <-. done.
    + rewrite list_lookup_insert_ne in Hc by done. by eapply Hold.
Qed.

(** A reaction that has run had its source settled before. *)
Lemma evolves_then_src es st :
  evolves [] es st → ∀ p c src cb,
  st !! p = Some c → kind c = KThen src cb → state c ≠ Pending →
  ∃ s, EvSettled src s ∈ es.
Proof.
  intros Hev. remember [] as st0 eqn:Hst0. revert Hst0.
  induction Hev as [|e es st1 st2 Hev IH Hstep]; intros Hst0 p c src cb Hc Hk Hp.
  { subst. by rewrite lookup_nil in Hc. }
  specialize (IH Hst0).
  assert (∀ c1, st1 !! p = Some c1 → kind c1 = KThen src cb → state c1 ≠ Pending →
    ∃ s, EvSettled src s ∈ e :: es) as Hold.
  { intros c1 Hc1 Hk1 Hp1. destruct (IH p c1 src cb Hc1 Hk1 Hp1) as [s Hs].
    exists s. apply elem_of_cons. by right. }
  assert (src_settled st1 src → ∃ s, EvSettled src s ∈ e :: es) as Hsrc.
  { intros Hsettled. subst st0.
    destruct (evolves_settled_event es st1 src Hev Hsettled) as [s Hs].
    exists s. apply elem_of_cons. by right. }
  destruct e as [p' k'|p' s'|p' q'| | | | | | ]; simpl in Hstep;
    try (subst st2; by eapply Hold).
  - destruct Hstep as [-> ->].
    destruct (decide (p < length st1)) as [Hlt|Hge].
    + rewrite lookup_app_l in Hc by done. by eapply Hold.
    + apply lookup_lt_Some in Hc as Hlen. rewrite length_app in Hlen. simpl in Hlen.
      assert (p = length st1) as -> by lia.
      rewrite list_lookup_middle in Hc by done. injection Hc as <-. done.
  - destruct Hstep as (c0 & Hc0 & _ & _ & Hmay & ->).
    destruct (decide (p' = p)) as [Heq|Hne]; [subst p'|].
    + rewrite list_lookup_insert_eq in Hc by (by eapply lookup_lt_Some).
      injection Hc as <-. simpl in *.
      unfold may_settle in Hmay. rewrite Hk in Hmay.
      destruct (state c0) eqn:Hst.
      * by apply Hsrc, Hmay.
      * eapply Hold; [done|done|]. by rewrite Hst.
      * eapply Hold; [done|done|]. by rewrite Hst.
      * eapply Hold; [done|done|]. by rewrite Hst.
    + rewrite list_lookup_insert_ne in Hc by done. by eapply Hold.
  - destruct Hstep as (c0 & src' & cb' & Hc0 & _ & Hk0 & Hsettled & ->).
    destruct (decide (p' = p)) as [Heq|Hne]; [subst p'|].
    + rewrite list_lookup_insert_eq in Hc by (by eapply lookup_lt_Some).
      injection Hc as <-. simpl in *. rewrite Hk0 in Hk. injection Hk as -> ->.
      by apply Hsrc.
    + rewrite list_lookup_insert_ne in Hc by done. by eapply Hold.
Qed.

(** ** Reasons *)

Lemma history_ok_elem J t e :
  history_ok_with J t → e ∈ t → ∃ newer past, t = newer ++ e :: past ∧ J e past.
Proof.
  induction t as [|e' t IH]; intros Hok Hin; [by apply elem_of_nil in Hin|].
  destruct Hok as [HJ Hok]. apply elem_of_cons in Hin as [->|Hin].
  - by exists [], t.
  - destruct (IH Hok Hin) as (newer & past & -> & HJe).
    by exists (e' :: newer), past.
Qed.

Lemma history_ok_split J newer e past :
  history_ok_with J (newer ++ e :: past) → J e past.
Proof.
  induction newer as [|e' newer IH]; simpl; intros [HJ Hok]; [done|by apply IH].
Qed.

Lemma history_ok_app J es t :
  (∀ newer e older, es = newer ++ e :: older → J e (older ++ t)) →
  history_ok_with J t → history_ok_with J (es ++ t).
Proof.
  induction es as [|e es IH]; intros HJ Hok; [done|]. simpl. split.
  - by apply (HJ [] e es).
  - apply IH; [|done]. intros newer e' older ->. by apply (HJ (e :: newer) e' older).
Qed.

Lemma passive_untagged e : passive e → tag e = None.
Proof. destruct e as [| | | |[]|  |[]|[]|]; simpl; done. Qed.

Lemma quiet_justified p e past : quiet p e → justified e past.
Proof.
  destruct e as [p' k| | | |[]|  |[]|[]|]; simpl; try done.
  destruct k as [| |src []|]; simpl; tauto.
Qed.

Lemma history_ok_quiet p es t :
  Forall (quiet p) es → history_ok t → history_ok (es ++ t).
Proof.
  intros Hq Hok. apply history_ok_app; [|done].
  intros newer e older ->. apply Forall_app in Hq as [_ Hq].
  apply Forall_cons in Hq as [Hq _]. by eapply quiet_justified.
Qed.

(** ** The invariant of a run *)

Lemma consistent_initial loader maxLODs : consistent (initial loader maxLODs).
Proof.
  split; simpl; [constructor|done|]. intros e p Hin. by apply elem_of_nil in Hin.
Qed.

(** A step whose events come from no reaction keeps the invariant. *)
Lemma consistent_untagged w w' es :
  trace w' = es ++ trace w → Forall (λ e, tag e = None) es →
  evolves (store w) es (store w') →
  (history_ok (trace w) → history_ok (es ++ trace w)) →
  consistent w → consistent w'.
Proof.
  intros Ht Hun Hev Hh [Hstore Hok Htags]. split.
  - rewrite Ht. by eapply evolves_app.
  - rewrite Ht. by apply Hh.
  - intros e p Hin Htag. rewrite Ht in Hin. apply elem_of_app in Hin as [Hin|Hin].
    + rewrite Forall_forall in Hun. rewrite (Hun e Hin) in Htag. done.
    + destruct (Htags e p Hin Htag) as (c & Hc & Hp).
      destruct (evolves_lookup _ _ _ Hev p c Hc) as (c' & Hc' & _ & Hp' & _).
      exists c'. split; [done|by apply Hp'].
Qed.

Lemma consistent_tracks {A} (m : M A) w :
  tracks (λ e, tag e = None) m → consistent w → consistent (m w).2.
Proof.
  intros Hm Hw. destruct (Hm w) as (es & Ht & Hun & Hev & Hh).
  by eapply consistent_untagged.
Qed.

Lemma consistent_passive {A} (m : M A) w :
  tracks passive m → consistent w → consistent (m w).2.
Proof.
  intros Hm. apply consistent_tracks. eapply tracks_mono; [|done].
  apply passive_untagged.
Qed.

(** *** [onReady] *)

Lemma onReady_level_run k i w :
  let all := length (store w) in
  let w' := set_trace
      (EvNew (S all) (KThen all (CbLevelLoaded k i))
       :: EvNew all (KAll (js_get (promiseLODs k w) i)) :: trace w)
      (set_store (store w ++ [{| kind := KAll (js_get (promiseLODs k w) i); state := Pending |};
                              {| kind := KThen all (CbLevelLoaded k i); state := Pending |}]) w) in
  onReady_level k i w = (match _loader w with Some _ => Ok tt | None => Throw TypeError end, w').
Proof.
  unfold onReady_level, new_promise. mrun.
  rewrite length_app. simpl. rewrite Nat.add_1_r, <- app_assoc. simpl.
  destruct k; simpl; by destruct (_loader w).
Qed.

Lemma tracks_onReady_level k i : tracks (λ e, tag e = None) (onReady_level k i).
Proof.
  intros w. rewrite onReady_level_run. simpl.
  eexists [_; _]. split_and!; [done|by repeat constructor| |].
  - econstructor; [econstructor; [constructor|]|]; simpl.
    + done.
    + rewrite length_app. simpl. rewrite Nat.add_1_r, <- app_assoc. done.
  - intros Hok. simpl. split_and!; [|done|done].
    eexists. apply elem_of_cons. by left.
Qed.

Lemma tracks_onReady : tracks (λ e, tag e = None) onReady.
Proof.
  unfold onReady. tracks_auto; try apply tracks_onReady_level.
  eapply tracks_mono; [apply passive_untagged|apply tracks_loadBufferLOD].
Qed.

(** *** Settling a promise *)

(** [settle]: no event when the promise is settled already, else one. *)
Lemma settle_run w p s c :
  store w !! p = Some c →
  settle p s w =
    (Ok tt, if settled (state c) then w
            else set_trace (EvSettled p s :: trace w)
                   (set_store (<[p := {| kind := kind c; state := s |}]> (store w)) w)).
Proof. intros Hc. unfold settle. rewrite Hc. by destruct (settled (state c)). Qed.

Lemma settle_effect w p s c :
  store w !! p = Some c → settled s = true → may_settle (store w) c s →
  ∃ es c', trace (settle p s w).2 = es ++ trace w ∧
    Forall (λ e, ∃ p' s', e = EvSettled p' s') es ∧
    evolves (store w) es (store (settle p s w).2) ∧
    store (settle p s w).2 !! p = Some c' ∧ settled (state c') = true.
Proof.
  intros Hc Hs Hmay. rewrite (settle_run w p s c Hc).
  destruct (settled (state c)) eqn:Hsc; simpl.
  - exists [], c. split_and!; [done|constructor|constructor|done|done].
  - exists [EvSettled p s], {| kind := kind c; state := s |}.
    split_and!; [done|repeat constructor; eauto| | |done].
    + econstructor; [constructor|]. simpl. by exists c.
    + apply list_lookup_insert_eq. by eapply lookup_lt_Some.
Qed.

Lemma adopt_effect w p q c src cb :
  store w !! p = Some c → kind c = KThen src cb → src_settled (store w) src →
  ∃ es c', trace (adopt p q w).2 = es ++ trace w ∧
    Forall (λ e, ∃ p' q', e = EvAdopted p' q') es ∧
    evolves (store w) es (store (adopt p q w).2) ∧
    store (adopt p q w).2 !! p = Some c' ∧ state c' ≠ Pending.
Proof.
  intros Hc Hk Hsrc. unfold adopt. rewrite Hc.
  destruct (state c) eqn:Hsc; simpl;
    try (exists [], c; split_and!; [done|constructor|constructor|done|by rewrite Hsc]).
  exists [EvAdopted p q], {| kind := kind c; state := Adopted q |}.
  split_and!; [done|repeat constructor; eauto| | |done].
  - econstructor; [constructor|]. simpl. by exists c, src, cb.
  - apply list_lookup_insert_eq. by eapply lookup_lt_Some.
Qed.

Lemma src_settled_evolves st es st' src :
  evolves st es st' → src_settled st src → src_settled st' src.
Proof.
  intros Hev (c & Hc & Hs).
  destruct (evolves_lookup _ _ _ Hev src c Hc) as (c' & Hc' & _ & _ & Heq).
  exists c'. split; [done|]. by rewrite (Heq Hs).
Qed.

(** A promise of the loader or the transport settles. *)
Lemma consistent_settle w p s c :
  store w !! p = Some c → settled s = true → may_settle (store w) c s →
  consistent w → consistent (settle p s w).2.
Proof.
  intros Hc Hs Hmay Hw.
  destruct (settle_effect w p s c Hc Hs Hmay) as (es & c' & Ht & Hes & Hev & _).
  eapply consistent_untagged; [done| |done| |done].
  - eapply Forall_impl; [done|]. by intros e (p' & s' & ->).
  - intros Hok. apply history_ok_app; [|done].
    intros newer e older ->. apply Forall_app in Hes as [_ Hes].
    apply Forall_cons in Hes as [(p' & s' & ->) _]. done.
Qed.

(** *** Reactions *)

Lemma in_reaction_tag p e p' : in_reaction p e → tag e = Some p' → p' = p.
Proof. destruct e; simpl; try done; intros -> [= ->]; done. Qed.

(** The reaction [m] of a promise [p] whose source has settled: when the
    events of [m] have their reasons, the invariant is kept. *)
Lemma consistent_react p (m : M (Value + pid)) w c src cb :
  consistent w →
  store w !! p = Some c → kind c = KThen src cb → src_settled (store w) src →
  emits (in_reaction p) m →
  history_ok (trace (m w).2) →
  consistent (react p m w).
Proof.
  intros [Hstore Hok Htags] Hc Hk Hsrc Hm Hhist.
  destruct (Hm w) as (es & Ht & Hes & Hev & _).
  destruct (evolves_lookup _ _ _ Hev p c Hc) as (c1 & Hc1 & Hk1 & _).
  pose proof (src_settled_evolves _ _ _ src Hev Hsrc) as Hsrc1.
  assert (∃ es' c2, trace (react p m w) = es' ++ trace (m w).2 ∧
            Forall (λ e, tag e = None ∧ ∀ past, justified e past) es' ∧
            evolves (store (m w).2) es' (store (react p m w)) ∧
            store (react p m w) !! p = Some c2 ∧ state c2 ≠ Pending)
    as (es' & c2 & Ht' & Hes' & Hev' & Hc2 & Hp2).
  { unfold react. destruct (m w) as [[[v|q]|err] w1]; simpl in *.
    - destruct (settle_effect w1 p (Fulfilled v) c1) as (es' & c2 & ? & Hes' & ? & ? & Hs2);
        [done|done|unfold may_settle; by rewrite Hk1, Hk|].
      exists es', c2. split_and!; try done.
      + eapply Forall_impl; [done|]. by intros e (p' & s' & ->).
      + intros Heq. by rewrite Heq in Hs2.
    - destruct (adopt_effect w1 p q c1 src cb) as (es' & c2 & ? & Hes' & ? & ? & ?);
        [done|congruence|done|].
      exists es', c2. split_and!; try done.
      eapply Forall_impl; [done|]. by intros e (p' & s' & ->).
    - destruct (settle_effect w1 p Rejected c1) as (es' & c2 & ? & Hes' & ? & ? & Hs2);
        [done|done|unfold may_settle; by rewrite Hk1, Hk|].
      exists es', c2. split_and!; try done.
      + eapply Forall_impl; [done|]. by intros e (p' & s' & ->).
      + intros Heq. by rewrite Heq in Hs2. }
  split.
  - rewrite Ht', Ht. eapply evolves_app; [|done]. by eapply evolves_app.
  - rewrite Ht'. apply history_ok_app; [|done].
    intros newer e older ->. apply Forall_app in Hes' as [_ Hes'].
    apply Forall_cons in Hes' as [[_ HJ] _]. apply HJ.
  - intros e p' Hin Htag. rewrite Ht', Ht in Hin.
    apply elem_of_app in Hin as [Hin|Hin].
    { rewrite Forall_forall in Hes'. destruct (Hes' e Hin) as [Hnone _]. congruence. }
    apply elem_of_app in Hin as [Hin|Hin].
    + rewrite Forall_forall in Hes. rewrite (in_reaction_tag p e p' (Hes e Hin) Htag).
      by exists c2.
    + destruct (Htags e p' Hin Htag) as (c' & Hc' & Hp').
      destruct (evolves_lookup _ _ _ Hev p' c' Hc') as (c'1 & Hc'1 & _ & Hp'1 & _).
      destruct (evolves_lookup _ _ _ Hev' p' c'1 Hc'1) as (c'2 & Hc'2 & _ & Hp'2 & _).
      exists c'2. split; [done|]. by apply Hp'2, Hp'1.
Qed.

Lemma bind_run {A B} (m : M A) (f : A → M B) w a w' :
  m w = (Ok a, w') → (m ≫= f) w = f a w'.
Proof. intros H. unfold mbind, M_bind. by rewrite H. Qed.

Lemma bind_throw {A B} (m : M A) (f : A → M B) w e w' :
  m w = (Throw e, w') → (m ≫= f) w = (Throw e, w').
Proof. intros H. unfold mbind, M_bind. by rewrite H. Qed.

Lemma snd_fmap {A B} (g : A → B) (m : M A) w : ((g <$> m) w).2 = (m w).2.
Proof. unfold fmap, M_fmap, mbind, M_bind. by destruct (m w) as [[a|e] w']. Qed.

Lemma snd_bind_ret {A B} (m : M A) (b : B) w : ((m ≫= λ _, mret b) w).2 = (m w).2.
Proof. unfold mbind, M_bind. by destruct (m w) as [[a|e] w']. Qed.

Lemma loader_call_run w loader : _loader w = Some loader → loader_call w = (Ok tt, w).
Proof. intros H. unfold loader_call. mrun. by rewrite H. Qed.

Lemma loader_call_throw w : _loader w = None → loader_call w = (Throw TypeError, w).
Proof. intros H. unfold loader_call. mrun. by rewrite H. Qed.

(** What the invariant says of a reaction that is about to run. *)
Section reaction.
Context (w : World) (p : nat) (c : PCell) (src : nat) (cb : Callback) (v : Value).
Context (Hw : consistent w).
Context (Hc : store w !! p = Some c) (Hk : kind c = KThen src cb)
        (Hp : state c = Pending).
Context (Hsrc : ∃ csrc, store w !! src = Some csrc ∧ state csrc = Fulfilled v).

Lemma reaction_created : EvNew p (KThen src cb) ∈ trace w.
Proof using Hw Hc Hk.
  destruct (evolves_new _ _ _ (consistent_store w Hw) p c Hc) as [Hlt|Hin].
  - simpl in Hlt. lia.
  - by rewrite Hk in Hin.
Qed.

Lemma reaction_src_fulfilled : EvSettled src (Fulfilled v) ∈ trace w.
Proof using Hw Hsrc.
  destruct Hsrc as (csrc & Hcsrc & Hv).
  destruct (evolves_settled _ _ _ (consistent_store w Hw) src csrc Hcsrc) as [Hnil|Hin].
  - by rewrite Hv.
  - by rewrite lookup_nil in Hnil.
  - by rewrite Hv in Hin.
Qed.

Lemma reaction_fresh e : e ∈ trace w → tag e ≠ Some p.
Proof using Hw Hc Hp.
  intros Hin Htag. destruct (consistent_tags w Hw e p Hin Htag) as (c' & Hc' & Hp').
  rewrite Hc in Hc'. injection Hc' as <-. done.
Qed.
End reaction.

Lemma tracks_resolve_signal p k indexLOD : tracks (quiet p) (resolve_signal k indexLOD).
Proof.
  unfold resolve_signal. tracks_auto; [apply tracks_loader_call|].
  by apply tracks_Deferred_settle.
Qed.

Lemma history_level_loaded w p c src k indexLOD v :
  consistent w →
  store w !! p = Some c → kind c = KThen src (CbLevelLoaded k indexLOD) →
  state c = Pending →
  (∃ csrc, store w !! src = Some csrc ∧ state csrc = Fulfilled v) →
  history_ok (trace (cb_level_loaded p k indexLOD w).2).
Proof.
  intros Hw Hc Hk Hp Hsrc. pose proof (consistent_history w Hw) as Hok.
  unfold cb_level_loaded. destruct (_loader w) as [loader|] eqn:Hl.
  - rewrite (bind_run _ _ w tt w)
      by (destruct (negb _); simpl; [by eapply loader_call_run|done]).
    rewrite (bind_run _ _ w tt w) by (by eapply loader_call_run).
    erewrite (bind_run (emit _)) by reflexivity.
    assert (tracks (quiet p)
      (n ← gets (λ w, length (promiseLODs k w));
       when (negb (Z.of_nat indexLOD =? Z.of_nat n - 1)%Z) (resolve_signal k indexLOD)))
      as Hrest by (tracks_auto; apply tracks_resolve_signal).
    match goal with |- context [?m ?w1] =>
      match type of Hrest with tracks _ ?m' => unify m m';
        destruct (Hrest w1) as (es & -> & _ & _ & Hh) end end.
    apply Hh. simpl. split; [|done]. split.
    + pose proof (reaction_created w p c src _ Hw Hc Hk) as Hnew.
      destruct (history_ok_elem _ _ _ Hok Hnew) as (newer & past & Heq & HJ).
      simpl in HJ. destruct HJ as [srcs Hall].
      assert (EvNew src (KAll srcs) ∈ trace w) as Hall'.
      { rewrite Heq. apply elem_of_app. right. apply elem_of_cons. by right. }
      destruct (evolves_new_inv _ _ _ (consistent_store w Hw) src _ Hall')
        as (call & Hcall & Hkall & _).
      destruct Hsrc as (csrc & Hcsrc & Hv). rewrite Hcall in Hcsrc. injection Hcsrc as ->.
      destruct (evolves_all_fulfilled _ _ (consistent_store w Hw) src csrc srcs v)
        as (l & -> & Hl'); try done.
      by exists src, l.
    + intros k' i' Hin. by apply (reaction_fresh w p c Hw Hc Hp _ Hin).
  - destruct (negb (indexLOD =? 0)); simpl.
    + by rewrite (bind_throw _ _ w TypeError w) by (by apply loader_call_throw).
    + rewrite (bind_run _ _ w tt w) by done.
      by rewrite (bind_throw _ _ w TypeError w) by (by apply loader_call_throw).
Qed.

(** The events of [dispose_previous]: the disposal of the node of the
    previous level, then what [_disposeUnusedMaterials] disposes. *)
Lemma dispose_previous_trace p nodeLODs indexLOD w :
  ∃ es, trace (dispose_previous p nodeLODs indexLOD w).2 = es ++ trace w ∧
    (es = [] ∨
     ∃ es_materials node n,
       es = es_materials ++ [EvDisposeNode p node n] ∧ Forall (quiet p) es_materials ∧
       nodeLODs !! (indexLOD - 1) = Some node ∧
       node_babylonTransformNode w !! node_index node = Some n).
Proof.
  unfold dispose_previous.
  destruct (nodeLODs !! (indexLOD - 1)) as [node|] eqn:Hnode; [|exists []; by split; [|left]].
  erewrite (bind_run (gets _)) by reflexivity.
  destruct (node_babylonTransformNode w !! node_index node) as [n|] eqn:Hn;
    [|exists []; by split; [|left]].
  erewrite (bind_run (emit _)) by reflexivity.
  erewrite (bind_run (modify _)) by reflexivity.
  assert (tracks (quiet p) (_disposeUnusedMaterials (Some p))) as Hmats
    by (by apply tracks_disposeUnusedMaterials).
  match goal with |- context [_disposeUnusedMaterials _ ?w1] =>
    destruct (Hmats w1) as (es & Ht & Hes & _) end.
  exists (es ++ [EvDisposeNode p node n]). split.
  - rewrite Ht. simpl. by rewrite <- app_assoc.
  - right. by exists es, node, n.
Qed.

Lemma history_node_lod w p c src nodeLODs indexLOD v :
  consistent w →
  store w !! p = Some c → kind c = KThen src (CbNodeLOD nodeLODs indexLOD) →
  state c = Pending →
  (∃ csrc, store w !! src = Some csrc ∧ state csrc = Fulfilled v) →
  history_ok (trace (cb_node_lod p nodeLODs indexLOD v w).2).
Proof.
  intros Hw Hc Hk Hp Hsrc. pose proof (consistent_history w Hw) as Hok.
  pose proof (reaction_created w p c src _ Hw Hc Hk) as Hnew.
  pose proof (reaction_src_fulfilled w src v Hw Hsrc) as Hful.
  assert (∀ w1 es, trace w1 = es ++ trace w → history_ok (trace w1) →
            history_ok (trace (enable_mesh p v w1).2)) as Henable.
  { intros w1 es Ht1 Hok1. unfold enable_mesh. destruct v as [|n| |]; try done.
    simpl. split; [|done]. split; [done|].
    exists src, nodeLODs, indexLOD. rewrite Ht1.
    split; apply elem_of_app; by right. }
  unfold cb_node_lod. destruct indexLOD as [|i]; simpl.
  { rewrite (bind_run _ _ w tt w) by done. by apply (Henable w []). }
  destruct (dispose_previous_trace p nodeLODs (S i) w) as (es & Ht & Hes).
  assert (history_ok (trace (dispose_previous p nodeLODs (S i) w).2)) as Hok1.
  { rewrite Ht. destruct Hes as [->|(es_mats & node & n & -> & Hq & Hnode & _)]; [done|].
    rewrite <- app_assoc. apply (history_ok_quiet p); [done|].
    simpl. split; [|done]. split.
    - simpl in Hnode. rewrite Nat.sub_0_r in Hnode. by exists src, nodeLODs, i, v.
    - intros n' Hin. by apply (reaction_fresh w p c Hw Hc Hp _ Hin). }
  unfold mbind, M_bind.
  destruct (dispose_previous p nodeLODs (S i) w) as [[[]|err] w1] eqn:Hrun; simpl in *.
  - by apply (Henable w1 es).
  - done.
Qed.

Lemma history_load_uri w p c src uri v :
  consistent w →
  store w !! p = Some c → kind c = KThen src (CbLoadUri uri) →
  (∃ csrc, store w !! src = Some csrc ∧ state csrc = Fulfilled v) →
  history_ok (trace (run_callback p (CbLoadUri uri) v w).2).
Proof.
  intros Hw Hc Hk Hsrc. pose proof (consistent_history w Hw) as Hok.
  pose proof (reaction_created w p c src _ Hw Hc Hk) as Hnew.
  pose proof (reaction_src_fulfilled w src v Hw Hsrc) as Hful.
  simpl. destruct (_loader w) as [loader|] eqn:Hl.
  - rewrite (bind_run _ _ w tt w) by (by eapply loader_call_run).
    rewrite snd_fmap. unfold loader_loadUriAsync, new_promise. mrun.
    split_and!; [|done|done].
    exists src, v. split; apply elem_of_cons; by right.
  - by rewrite (bind_throw _ _ w TypeError w) by (by apply loader_call_throw).
Qed.

Lemma tracks_quiet_callbacks p cb v :
  match cb with
  | CbMaterialLOD _ _ _ _ | CbBufferView _ _ _ | CbBufferRead _ => True
  | _ => False
  end →
  tracks (quiet p) (run_callback p cb v).
Proof.
  destruct cb; try done; intros _; simpl.
  - unfold cb_material_lod. tracks_auto; apply tracks_assign_material.
  - unfold cb_buffer_view. tracks_auto. apply tracks_read_bufferLOD.
  - tracks_auto; [apply tracks_read_bufferLOD|]. by apply tracks_Deferred_settle.
Qed.

Lemma tracks_quiet_rejection p cb handler :
  run_rejection cb = Some handler → tracks (quiet p) handler.
Proof.
  destruct cb; simpl; intros [= <-].
  tracks_auto; [apply tracks_read_bufferLOD|]. by apply tracks_Deferred_settle.
Qed.

(** The events of any reaction have their reasons. *)
Lemma history_callback w p c src cb v :
  consistent w →
  store w !! p = Some c → kind c = KThen src cb → state c = Pending →
  (∃ csrc, store w !! src = Some csrc ∧ state csrc = Fulfilled v) →
  history_ok (trace (run_callback p cb v w).2).
Proof.
  intros Hw Hc Hk Hp Hsrc.
  destruct cb as [k i|nodeLODs i|materialLODs i mesh drawMode|uri|b o l|b].
  - simpl. rewrite snd_bind_ret. by eapply history_level_loaded.
  - simpl. rewrite snd_fmap. by eapply history_node_lod.
  - destruct (tracks_quiet_callbacks p (CbMaterialLOD materialLODs i mesh drawMode) v I w)
      as (es & -> & _ & _ & Hh).
    apply Hh, Hw.
  - by eapply history_load_uri.
  - destruct (tracks_quiet_callbacks p (CbBufferView b o l) v I w)
      as (es & -> & _ & _ & Hh).
    apply Hh, Hw.
  - destruct (tracks_quiet_callbacks p (CbBufferRead b) v I w) as (es & -> & _ & _ & Hh).
    apply Hh, Hw.
Qed.

(** *** Every step keeps the invariant *)

Lemma cell_state_Some w p s : cell_state w p = Some s → ∃ c, store w !! p = Some c ∧ state c = s.
Proof.
  unfold cell_state. destruct (store w !! p) as [c|]; simpl; [|done].
  intros [= <-]. by exists c.
Qed.

Lemma consistent_run w p w' : consistent w → run p w = Some w' → consistent w'.
Proof.
  intros Hw. unfold run.
  destruct (store w !! p) as [c|] eqn:Hc; [|done].
  destruct (state c) as [|q|v|] eqn:Hs; try done.
  - destruct (kind c) as [| |src cb|[srcs|]] eqn:Hk; try done.
    + destruct (cell_state w src) as [[|q|v|]|] eqn:Hsrc; try done.
      * intros [= <-]. apply cell_state_Some in Hsrc as (csrc & Hcsrc & Hv).
        eapply consistent_react; try done.
        -- exists csrc. split; [done|]. by rewrite Hv.
        -- apply emits_run_callback.
        -- eapply history_callback; try done. by exists csrc.
      * apply cell_state_Some in Hsrc as (csrc & Hcsrc & Hv).
        assert (src_settled (store w) src) as Hsettled.
        { exists csrc. split; [done|]. by rewrite Hv. }
        destruct (run_rejection cb) as [handler|] eqn:Hrej; intros [= <-].
        -- eapply consistent_react; try done.
           ++ by eapply emits_run_rejection.
           ++ destruct (tracks_quiet_rejection p cb handler Hrej w) as (es & -> & _ & _ & Hh).
              apply Hh, Hw.
        -- eapply consistent_settle; try done. unfold may_settle. by rewrite Hk.
    + destruct (existsb (is_rejected w) srcs) eqn:Hrej; [intros [= <-]|].
      { eapply consistent_settle; try done. unfold may_settle. rewrite Hk. done. }
      destruct (forallb (is_fulfilled w) srcs) eqn:Hall; [intros [= <-]|done].
      eapply consistent_settle; try done. unfold may_settle. rewrite Hk.
      intros v _. exists srcs. split; [done|]. intros q Hq.
      rewrite forallb_forall in Hall. apply list_elem_of_In in Hq.
      specialize (Hall q Hq). unfold is_fulfilled in Hall.
      destruct (cell_state w q) as [[|?|v'|]|] eqn:Hq'; try done.
      apply cell_state_Some in Hq' as (cq & Hcq & Hvq). by exists cq, v'.
    + intros [= <-]. eapply consistent_settle; try done.
      unfold may_settle. rewrite Hk. done.
  - destruct (kind c) as [| |src cb|srcs] eqn:Hk; try done.
    destruct (cell_state w q) as [[|?|v|]|] eqn:Hq; try done; intros [= <-].
    + eapply consistent_settle; try done. unfold may_settle. rewrite Hk, Hs. done.
    + eapply consistent_settle; try done. unfold may_settle. rewrite Hk, Hs. done.
Qed.

Lemma consistent_step a w w' : consistent w → step a w = Some w' → consistent w'.
Proof.
  intros Hw. destruct a as [s| | |p outcome|p]; simpl.
  - intros [= <-]. apply consistent_passive; [apply tracks_host|done].
  - intros [= <-]. apply consistent_tracks; [apply tracks_onReady|done].
  - intros [= <-]. apply consistent_passive; [apply tracks_dispose|done].
  - destruct (store w !! p) as [c|] eqn:Hc; [|done].
    destruct (kind c) eqn:Hk; try done. destruct (state c) eqn:Hs; try done.
    intros [= <-]. eapply consistent_settle; try done.
    + by destruct outcome.
    + unfold may_settle. by rewrite Hk.
  - by apply consistent_run.
Qed.

(** Every run from the state the constructor leaves keeps the invariant. *)
Lemma consistent_exec acts : ∀ w w', consistent w → exec acts w = Some w' → consistent w'.
Proof.
  induction acts as [|a acts IH]; intros w w' Hw; simpl.
  - by intros [= <-].
  - destruct (step a w) as [w1|] eqn:Hstep; [|done].
    intros Hexec. eapply IH; [|done]. by eapply consistent_step.
Qed.

(** ** Deferred loads of uris *)

(** Inside level [i+1] the request is not issued: the extension returns
    a promise chained on the signal of level [i], which it creates when
    it is not there yet. *)
Lemma loadUriAsync_defers w uri k i loader :
  _loader w = Some loader → inside_level w k (S i) →
  let existing := js_get (signalLODs k w) i in
  let signal := default (length (store w)) existing in
  let p := match existing with Some _ => length (store w) | None => S (length (store w)) end in
  ∃ w', _loadUriAsync uri w = (Ok (Some p), w') ∧
    js_get (signalLODs k w') i = Some signal ∧
    store w' = store w
      ++ match existing with
         | Some _ => []
         | None => [{| kind := KDeferred; state := Pending |}]
         end
      ++ [{| kind := KThen signal (CbLoadUri uri); state := Pending |}] ∧
    trace w' = EvNew p (KThen signal (CbLoadUri uri))
      :: match existing with Some _ => [] | None => [EvNew signal KDeferred] end
      ++ trace w.
Proof.
  intros Hl Hin. unfold _loadUriAsync, previous_signal, or_new_Deferred, new_promise.
  destruct k; simpl in *.
  - destruct Hin as [Hm Hn]. mrun. rewrite Hm, Hn. mrun. rewrite Hl. mrun.
    destruct (js_get (_nodeSignalLODs w) i) as [d|] eqn:Hd; mrun.
    + eexists. split; [done|]. mrun. split_and!; [|done|done]. apply js_get_set_eq.
    + eexists. split.
      { do 3 f_equal. rewrite length_app. simpl. lia. }
      mrun. split_and!; [apply js_get_set_eq|by rewrite <- app_assoc|].
      do 2 f_equal. rewrite length_app. simpl. lia.
  - mrun. rewrite Hin. mrun. rewrite Hl. mrun.
    destruct (js_get (_materialSignalLODs w) i) as [d|] eqn:Hd; mrun.
    + eexists. split; [done|]. mrun. split_and!; [|done|done]. apply js_get_set_eq.
    + eexists. split.
      { do 3 f_equal. rewrite length_app. simpl. lia. }
      mrun. split_and!; [apply js_get_set_eq|by rewrite <- app_assoc|].
      do 2 f_equal. rewrite length_app. simpl. lia.
Qed.

(** With no level marked the extension answers [null] and changes
    nothing. *)
Lemma loadUriAsync_null w uri :
  _materialIndexLOD w = None → _nodeIndexLOD w = None →
  _loadUriAsync uri w = (Ok None, w).
Proof. intros Hm Hn. unfold _loadUriAsync. mrun. by rewrite Hm, Hn. Qed.

(** C4. A uri asked for inside level [i+1] of a material or node LOD
    sequence is deferred: [_loadUriAsync] issues no load and returns a
    promise chained on the signal of level [i] of that kind, creating the
    signal when there is none. In every run, the load of a deferred
    request is issued only after that signal has been fulfilled, and the
    promise of the request leaves the pending state only after the signal
    has settled. With no level marked, [_loadUriAsync] answers [null] and
    the loader issues the load at once. *)
Theorem deferred_uri_waits :
  (∀ w uri k i loader,
     _loader w = Some loader → inside_level w k (S i) →
     ∃ p signal w',
       _loadUriAsync uri w = (Ok (Some p), w') ∧
       js_get (signalLODs k w') i = Some signal ∧
       (∀ d, js_get (signalLODs k w) i = Some d → signal = d) ∧
       (js_get (signalLODs k w) i = None →
          store w !! signal = None ∧
          store w' !! signal = Some {| kind := KDeferred; state := Pending |}) ∧
       store w' !! p = Some {| kind := KThen signal (CbLoadUri uri); state := Pending |} ∧
       (∀ by_ uri' q, EvLoadUri by_ uri' q ∈ trace w' → EvLoadUri by_ uri' q ∈ trace w)) ∧
  (∀ loader maxLODs acts w newer p uri q past,
     run_from loader maxLODs acts w →
     trace w = newer ++ EvLoadUri (Some p) uri q :: past →
     ∃ signal v,
       EvNew p (KThen signal (CbLoadUri uri)) ∈ past ∧
       EvSettled signal (Fulfilled v) ∈ past) ∧
  (∀ loader maxLODs acts w p c signal uri,
     run_from loader maxLODs acts w →
     store w !! p = Some c → kind c = KThen signal (CbLoadUri uri) →
     state c ≠ Pending →
     ∃ s, EvSettled signal s ∈ trace w) ∧
  (∀ w uri,
     _materialIndexLOD w = None → _nodeIndexLOD w = None →
     _loadUriAsync uri w = (Ok None, w) ∧
     ∃ w', host (SUri uri SDone) w = (Ok tt, w') ∧
       trace w' = EvLoadUri None uri (length (store w))
                  :: EvNew (length (store w)) KExternal :: trace w).
Proof.
  split_and!.
  - intros w uri k i loader Hl Hin.
    destruct (loadUriAsync_defers w uri k i loader Hl Hin) as (w' & Hrun & Hsig & Hst & Htr).
    eexists _, _, w'. split; [exact Hrun|]. split; [exact Hsig|].
    destruct (js_get (signalLODs k w) i) as [d|] eqn:Hd; simpl in *.
    + split_and!.
      * by intros ? [= <-].
      * done.
      * rewrite Hst. by apply list_lookup_middle.
      * intros by_ uri' q Hq. rewrite Htr in Hq.
        apply elem_of_cons in Hq as [?|?]; [done|done].
    + split_and!.
      * done.
      * intros _. split; [by apply lookup_ge_None_2|].
        rewrite Hst. by apply list_lookup_middle.
      * rewrite Hst. rewrite lookup_app_r by lia.
        by replace (S (length (store w)) - length (store w)) with 1 by lia.
      * intros by_ uri' q Hq. rewrite Htr in Hq.
        apply elem_of_cons in Hq as [?|Hq]; [done|].
        apply elem_of_cons in Hq as [?|Hq]; [done|done].
  - intros loader maxLODs acts w newer p uri q past Hrun Htrace.
    pose proof (consistent_exec acts _ w (consistent_initial loader maxLODs) Hrun) as Hw.
    pose proof (consistent_history w Hw) as Hok. rewrite Htrace in Hok.
    by apply history_ok_split in Hok.
  - intros loader maxLODs acts w p c signal uri Hrun Hc Hk Hp.
    pose proof (consistent_exec acts _ w (consistent_initial loader maxLODs) Hrun) as Hw.
    by eapply (evolves_then_src _ _ (consistent_store w Hw)).
  - intros w uri Hm Hn. split; [by apply loadUriAsync_null|].
    simpl. rewrite (bind_run _ _ w None w) by (by apply loadUriAsync_null).
    unfold loader_loadUriAsync, new_promise. mrun. eexists. split; [done|]. done.
Qed.

(** ** The swap of node levels *)

Lemma for_range_ok (body : nat → M unit) count : ∀ first w,
  (∀ i w, ∃ w', body i w = (Ok tt, w')) →
  ∃ w', for_range first count body w = (Ok tt, w').
Proof.
  induction count as [|count IH]; intros first w Hbody; simpl; [by exists w|].
  destruct (Hbody first w) as [w1 Hw1]. rewrite (bind_run _ _ w tt w1) by done.
  by apply IH.
Qed.

Lemma for_each_ok {A} (body : A → M unit) (l : list A) : ∀ w,
  (∀ x w, ∃ w', body x w = (Ok tt, w')) →
  ∃ w', for_each l body w = (Ok tt, w').
Proof.
  induction l as [|x l IH]; intros w Hbody; simpl; [by exists w|].
  destruct (Hbody x w) as [w1 Hw1]. rewrite (bind_run _ _ w tt w1) by done.
  by apply IH.
Qed.

Lemma dispose_if_unused_ok by_ material drawMode w :
  ∃ w', dispose_if_unused by_ material drawMode w = (Ok tt, w').
Proof.
  unfold dispose_if_unused.
  erewrite (bind_run (gets _)) by reflexivity.
  match goal with |- context [match ?x with _ => _ end] => destruct x as [data|] end;
    [|by eexists].
  erewrite (bind_run (gets _)) by reflexivity.
  destruct (no_mesh_uses w data); simpl; [|by eexists].
  erewrite (bind_run (emit _)) by reflexivity. by eexists.
Qed.

(** With its loader, [_disposeUnusedMaterials] does not throw. *)
Lemma disposeUnusedMaterials_ok by_ w loader :
  _loader w = Some loader → ∃ w', _disposeUnusedMaterials by_ w = (Ok tt, w').
Proof.
  intros Hl. unfold _disposeUnusedMaterials.
  rewrite (bind_run _ _ w loader w) by (unfold the_loader; mrun; by rewrite Hl).
  destruct (gltf_materials loader) as [materials|]; [|by eexists].
  apply for_each_ok. intros material w1.
  erewrite (bind_run (gets _)) by reflexivity.
  destruct (material_data w1 !! material_index material) as [data|]; [|by eexists].
  apply for_range_ok. intros i w2. apply dispose_if_unused_ok.
Qed.

(** The reaction to the load of level [i+1]: the node of level [i] is
    disposed, then the unused materials, then the new mesh is enabled. *)
Lemma node_lod_swaps w p nodeLODs i node n m loader :
  _loader w = Some loader → nodeLODs !! i = Some node →
  node_babylonTransformNode w !! node_index node = Some n →
  ∃ es w', cb_node_lod p nodeLODs (S i) (VNode m) w = (Ok (VNode m), w') ∧
    Forall (quiet p) es ∧
    trace w' = EvSetEnabled (Some p) m true :: es ++ EvDisposeNode p node n :: trace w.
Proof.
  intros Hl Hnode Hn.
  set (w1 := set_node_babylonTransformNode
               (delete (node_index node) (node_babylonTransformNode w))
               (set_trace (EvDisposeNode p node n :: trace w) w)).
  destruct (disposeUnusedMaterials_ok (Some p) w1 loader Hl) as [w2 Hw2].
  assert (tracks (quiet p) (_disposeUnusedMaterials (Some p))) as Hmats
    by (by apply tracks_disposeUnusedMaterials).
  destruct (Hmats w1) as (es & Ht & Hes & _). rewrite Hw2 in Ht. simpl in Ht.
  exists es, (set_trace (EvSetEnabled (Some p) m true :: trace w2) w2).
  split; [|split; [done|simpl; by rewrite Ht]].
  unfold cb_node_lod, dispose_previous. simpl. rewrite Nat.sub_0_r, Hnode.
  rewrite (bind_run _ _ w tt w2); [done|].
  erewrite (bind_run (gets _)) by reflexivity. rewrite Hn.
  erewrite (bind_run (emit _)) by reflexivity.
  erewrite (bind_run (modify _)) by reflexivity. exact Hw2.
Qed.


(** ** The level events *)

Lemma count_events_app f es t :
  count_events f (es ++ t) = count_events f es + count_events f t.
Proof. unfold count_events. by rewrite List.filter_app, length_app. Qed.

Lemma count_events_none f es : Forall (λ e, f e = false) es → count_events f es = 0.
Proof.
  unfold count_events. induction 1 as [|e es He _ IH]; [done|]. simpl. by rewrite He.
Qed.

Lemma count_events_elem f t : 0 < count_events f t → ∃ e, e ∈ t ∧ f e = true.
Proof.
  unfold count_events. induction t as [|e t IH]; simpl; [lia|].
  destruct (f e) eqn:He.
  - intros _. exists e. split; [by left|done].
  - intros Hpos. destruct (IH Hpos) as (e' & Hin & He'). exists e'. split; [by right|done].
Qed.

Lemma count_events_unique f t x y :
  count_events f t ≤ 1 → x ∈ t → y ∈ t → f x = true → f y = true → x = y.
Proof.
  unfold count_events. induction t as [|e t IH]; intros Hle Hx Hy Hfx Hfy.
  { by apply elem_of_nil in Hx. }
  simpl in Hle. destruct (f e) eqn:He.
  - simpl in Hle. assert (count_events f t = 0) as Hzero by (unfold count_events; lia).
    assert (∀ z, z ∈ t → f z = true → False) as Hnone.
    { intros z Hz Hfz. clear -Hzero Hz Hfz. unfold count_events in Hzero.
      induction t as [|e' t IH]; [by apply elem_of_nil in Hz|].
      simpl in Hzero. apply elem_of_cons in Hz as [->|Hz].
      - by rewrite Hfz in Hzero.
      - destruct (f e'); [done|]. by apply IH. }
    apply elem_of_cons in Hx as [->|Hx]; apply elem_of_cons in Hy as [->|Hy];
      try done; exfalso; eauto.
  - apply elem_of_cons in Hx as [->|Hx]; [congruence|].
    apply elem_of_cons in Hy as [->|Hy]; [congruence|]. by apply IH.
Qed.

Lemma LodKind_eqb_eq a b : LodKind_eqb a b = true → a = b.
Proof. by destruct a, b. Qed.

Lemma is_notify_true k i e : is_notify k i e = true → ∃ p, e = EvNotify p k i.
Proof.
  destruct e; simpl; try done. intros [Hk Hi]%andb_true_iff.
  apply LodKind_eqb_eq in Hk as ->. apply Nat.eqb_eq in Hi as ->. eauto.
Qed.

Lemma is_wire_level k i p all : is_wire k i (EvNew p (KThen all (CbLevelLoaded k i))) = true.
Proof. simpl. rewrite Nat.eqb_refl. by destruct k. Qed.

(** When the reaction that announces a level was created once at most,
    the level is announced once at most. *)
Lemma notify_once k i t :
  history_ok t → count_events (is_wire k i) t ≤ 1 → count_events (is_notify k i) t ≤ 1.
Proof.
  induction t as [|e past IH]; intros Hok Hwire; [done|].
  destruct Hok as [HJ Hok].
  change (count_events (is_wire k i) ([e] ++ past) ≤ 1) in Hwire.
  change (count_events (is_notify k i) ([e] ++ past) ≤ 1).
  rewrite count_events_app in *.
  destruct (is_notify k i e) eqn:He.
  - apply is_notify_true in He as [p ->].
    assert (count_events (is_wire k i) past ≤ 1) as Hwire' by (unfold count_events in *; simpl in *; lia).
    destruct (decide (0 < count_events (is_notify k i) past)) as [Hpos|Hzero];
      [exfalso|unfold count_events in *; simpl in *; rewrite Nat.eqb_refl in *; destruct k; simpl; lia].
    apply count_events_elem in Hpos as (e2 & Hin2 & He2).
    apply is_notify_true in He2 as [p2 ->].
    destruct (history_ok_elem _ _ _ Hok Hin2) as (newer & past2 & Heq & HJ2).
    simpl in HJ, HJ2.
    destruct HJ as [(all & srcs & Hnew & _) Hfresh].
    destruct HJ2 as [(all2 & srcs2 & Hnew2 & _) _].
    assert (EvNew p2 (KThen all2 (CbLevelLoaded k i)) ∈ past) as Hnew2'.
    { rewrite Heq. apply elem_of_app. right. apply elem_of_cons. by right. }
    pose proof (count_events_unique _ _ _ _ Hwire' Hnew Hnew2'
                  (is_wire_level k i p all) (is_wire_level k i p2 all2)) as Heq'.
    injection Heq' as -> _. by apply (Hfresh k i).
  - unfold count_events at 1. simpl. rewrite He. simpl.
    apply IH; [done|]. unfold count_events in *. simpl in *. destruct (is_wire k i e); simpl in *; lia.
Qed.

Lemma not_wires_unwired p k : ¬ wires k → unwired (EvNew p k).
Proof. intros Hk k' i'. destruct k as [| |src []|]; simpl in *; tauto. Qed.

Lemma passive_unwired e : passive e → unwired e.
Proof. destruct e; try (by intros _ ? ?); simpl. apply not_wires_unwired. Qed.

Lemma in_reaction_calm p e : in_reaction p e → calm e.
Proof.
  destruct e; try (by intros _; split; [intros ? ?|]); simpl; [|done].
  intros Hk. split; [by apply not_wires_unwired|done].
Qed.

Lemma calm_unwired es : Forall calm es → Forall unwired es.
Proof. intros H. eapply Forall_impl; [done|]. by intros e [? _]. Qed.

Lemma unwired_count k i es t :
  Forall unwired es → count_events (is_wire k i) (es ++ t) = count_events (is_wire k i) t.
Proof.
  intros Hes. rewrite count_events_app, count_events_none; [done|].
  eapply Forall_impl; [done|]. intros e He. apply He.
Qed.

Lemma settle_trace p s w :
  ∃ es, trace (settle p s w).2 = es ++ trace w ∧ Forall calm es.
Proof.
  unfold settle. destruct (store w !! p) as [c|]; [|by exists []].
  destruct (settled (state c)); [by exists []|].
  exists [EvSettled p s]. split; [done|]. by repeat constructor.
Qed.

Lemma adopt_trace p q w :
  ∃ es, trace (adopt p q w).2 = es ++ trace w ∧ Forall calm es.
Proof.
  unfold adopt. destruct (store w !! p) as [c|]; [|by exists []].
  destruct (state c); try (by exists []).
  exists [EvAdopted p q]. split; [done|]. by repeat constructor.
Qed.

Lemma react_trace p (m : M (Value + nat)) w :
  emits (in_reaction p) m →
  ∃ es, trace (react p m w) = es ++ trace w ∧ Forall calm es.
Proof.
  intros Hm. destruct (Hm w) as (es & Ht & Hes & _).
  assert (Forall calm es) as Hes'.
  { eapply Forall_impl; [done|]. apply in_reaction_calm. }
  unfold react. destruct (m w) as [[[v|q]|err] w1]; simpl in *.
  - destruct (settle_trace p (Fulfilled v) w1) as (es' & -> & Hes'').
    exists (es' ++ es). rewrite Ht, app_assoc. split; [done|]. by apply Forall_app.
  - destruct (adopt_trace p q w1) as (es' & -> & Hes'').
    exists (es' ++ es). rewrite Ht, app_assoc. split; [done|]. by apply Forall_app.
  - destruct (settle_trace p Rejected w1) as (es' & -> & Hes'').
    exists (es' ++ es). rewrite Ht, app_assoc. split; [done|]. by apply Forall_app.
Qed.

Lemma run_trace p w w' :
  run p w = Some w' → ∃ es, trace w' = es ++ trace w ∧ Forall calm es.
Proof.
  unfold run. destruct (store w !! p) as [c|]; [|done].
  destruct (state c) as [|q|v|]; try done.
  - destruct (kind c) as [| |src cb|[srcs|]]; try done.
    + destruct (cell_state w src) as [[|q|v|]|]; try done.
      * intros [= <-]. apply react_trace, emits_run_callback.
      * destruct (run_rejection cb) as [handler|] eqn:Hrej; intros [= <-].
        -- by eapply react_trace, emits_run_rejection.
        -- apply settle_trace.
    + destruct (existsb _ _); [intros [= <-]; apply settle_trace|].
      destruct (forallb _ _); [intros [= <-]; apply settle_trace|done].
    + intros [= <-]. apply settle_trace.
  - destruct (kind c); try done.
    destruct (cell_state w q) as [[|?|v|]|]; try done; intros [= <-]; apply settle_trace.
Qed.

Lemma tracks_unwired {A} (m : M A) w :
  tracks passive m → ∃ es, trace (m w).2 = es ++ trace w ∧ Forall unwired es.
Proof.
  intros Hm. destruct (Hm w) as (es & Ht & Hes & _). exists es. split; [done|].
  eapply Forall_impl; [done|]. apply passive_unwired.
Qed.

(** Only [onReady] creates the reactions that announce levels. *)
Lemma step_unwired a w w' :
  is_onReady a = false → step a w = Some w' →
  ∃ es, trace w' = es ++ trace w ∧ Forall unwired es.
Proof.
  destruct a as [s| | |p outcome|p]; simpl; try done; intros _.
  - intros [= <-]. apply tracks_unwired, tracks_host.
  - intros [= <-]. apply tracks_unwired, tracks_dispose.
  - destruct (store w !! p) as [c|]; [|done].
    destruct (kind c); try done. destruct (state c); try done.
    intros [= <-]. destruct (settle_trace p (match outcome with Some v => Fulfilled v | None => Rejected end) w)
      as (es & ? & ?%calm_unwired). by exists es.
  - intros Hrun. destruct (run_trace p w w' Hrun) as (es & ? & ?%calm_unwired). by exists es.
Qed.

Lemma for_range_wire k i k' count : ∀ first w,
  count_events (is_wire k i) (trace (for_range first count (onReady_level k') w).2)
  ≤ count_events (is_wire k i) (trace w)
    + (if LodKind_eqb k k' && (first <=? i) && (i <? first + count) then 1 else 0).
Proof.
  induction count as [|count IH]; intros first w; cbn [for_range]; [simpl; lia|].
  unfold mbind, M_bind. rewrite onReady_level_run. cbv zeta.
  set (w1 := set_trace _ _).
  assert (count_events (is_wire k i) (trace w1)
          = count_events (is_wire k i) (trace w)
            + (if LodKind_eqb k k' && (i =? first) then 1 else 0)) as Hw1.
  { unfold w1, count_events. simpl.
    destruct (LodKind_eqb k k' && (i =? first)); simpl;
      by rewrite ?Nat.add_0_r, ?Nat.add_1_r. }
  destruct (_loader w).
  - specialize (IH (S first) w1). rewrite Hw1 in IH.
    destruct (LodKind_eqb k k'); cbn [andb] in *; [|lia].
    destruct (Nat.eqb_spec i first), (Nat.leb_spec first i),
      (Nat.ltb_spec i (first + S count)), (Nat.leb_spec (S first) i),
      (Nat.ltb_spec i (S first + count)); cbn [andb] in *; lia.
  - cbn [snd]. rewrite Hw1.
    destruct (LodKind_eqb k k'); cbn [andb] in *; [|lia].
    destruct (Nat.eqb_spec i first), (Nat.leb_spec first i),
      (Nat.ltb_spec i (first + S count)); cbn [andb] in *; lia.
Qed.

Lemma trace_bind_le {A B} f (m : M A) (g : A → M B) w n1 n2 :
  count_events f (trace (m w).2) ≤ count_events f (trace w) + n1 →
  (∀ a w1, count_events f (trace (g a w1).2) ≤ count_events f (trace w1) + n2) →
  count_events f (trace ((m ≫= g) w).2) ≤ count_events f (trace w) + (n1 + n2).
Proof.
  intros H1 H2. unfold mbind, M_bind. destruct (m w) as [[a|e] w1]; simpl in *.
  - specialize (H2 a w1). lia.
  - lia.
Qed.

Lemma onReady_wire k i w :
  count_events (is_wire k i) (trace (onReady w).2) ≤ count_events (is_wire k i) (trace w) + 1.
Proof.
  unfold onReady.
  erewrite (bind_run (gets _)) by reflexivity.
  match goal with |- ?lhs ≤ _ =>
    enough (lhs ≤ count_events (is_wire k i) (trace w)
                  + ((if LodKind_eqb k NodeLOD then 1 else 0)
                     + ((if LodKind_eqb k MaterialLOD then 1 else 0) + 0)))
      by (destruct k; simpl in *; lia) end.
  apply trace_bind_le.
  { etrans; [apply for_range_wire|]. destruct (LodKind_eqb k NodeLOD); cbn [andb];
    repeat match goal with |- context [if ?b then _ else _] => destruct b end; lia. }
  intros _ w1. erewrite (bind_run (gets _)) by reflexivity.
  apply trace_bind_le.
  { etrans; [apply for_range_wire|]. destruct (LodKind_eqb k MaterialLOD); cbn [andb];
    repeat match goal with |- context [if ?b then _ else _] => destruct b end; lia. }
  intros _ w2. erewrite (bind_run (gets _)) by reflexivity. cbv beta.
  assert (tracks passive (for_range 1 (length (_bufferLODs w2) - 1) _loadBufferLOD)) as Hreads.
  { tracks_auto. apply tracks_loadBufferLOD. }
  destruct (tracks_unwired _ w2 Hreads) as (es & -> & Hes).
  rewrite unwired_count by done. lia.
Qed.

(** In a run, the reaction that announces a level is created at most
    once for each call of [onReady]. *)
Lemma exec_wire k i acts : ∀ w w',
  exec acts w = Some w' →
  count_events (is_wire k i) (trace w')
  ≤ count_events (is_wire k i) (trace w) + length (List.filter is_onReady acts).
Proof.
  induction acts as [|a acts IH]; intros w w'; simpl.
  - intros [= <-]. lia.
  - destruct (step a w) as [w1|] eqn:Hstep; [|done]. intros Hexec.
    specialize (IH w1 w' Hexec).
    destruct (is_onReady a) eqn:Ha.
    + destruct a; try done. simpl in Hstep. injection Hstep as <-.
      pose proof (onReady_wire k i w). simpl. lia.
    + destruct (step_unwired a w w1 Ha Hstep) as (es & Ht & Hes).
      rewrite Ht, unwired_count in IH by done. lia.
Qed.

(** *** States that differ in promises only *)

Lemma same_fields_refl w : same_fields w w.
Proof. by destruct w. Qed.

Lemma same_fields_promises w w' st t :
  same_fields w w' → same_fields w (set_trace t (set_store st w')).
Proof. unfold same_fields. intros <-. by destruct w'. Qed.

Lemma same_fields_loader w w' : same_fields w w' → _loader w' = _loader w.
Proof. unfold same_fields. intros <-. done. Qed.

Lemma same_fields_promiseLODs w w' k : same_fields w w' → promiseLODs k w' = promiseLODs k w.
Proof. unfold same_fields. intros <-. by destruct k. Qed.

Lemma same_fields_bufferLODs w w' : same_fields w w' → _bufferLODs w' = _bufferLODs w.
Proof. unfold same_fields. intros <-. done. Qed.

Lemma same_fields_heap w w' : same_fields w w' → bufferLOD_heap w' = bufferLOD_heap w.
Proof. unfold same_fields. intros <-. done. Qed.

(** The first two loops of [onReady]: for each level, the promise of
    all the promises kept for the level, and its reaction. *)
Lemma onReady_levels_run k count : ∀ first w loader,
  _loader w = Some loader →
  ∃ w' es, for_range first count (onReady_level k) w = (Ok tt, w') ∧
    same_fields w w' ∧ trace w' = es ++ trace w ∧
    Forall (λ e, ∃ p kd, e = EvNew p kd) es ∧
    ∀ i, first ≤ i < first + count →
      ∃ all, EvNew (S all) (KThen all (CbLevelLoaded k i)) ∈ es ∧
             EvNew all (KAll (js_get (promiseLODs k w) i)) ∈ es.
Proof.
  induction count as [|count IH]; intros first w loader Hl; cbn [for_range].
  { exists w, []. split_and!; [done|apply same_fields_refl|done|constructor|lia]. }
  unfold mbind, M_bind. rewrite onReady_level_run, Hl. cbv zeta.
  set (w1 := set_trace _ _).
  assert (same_fields w w1) as Hsame by (apply same_fields_promises, same_fields_refl).
  destruct (IH (S first) w1 loader) as (w' & es & Hrun & Hsame' & Ht & Hes & Hwires).
  { by rewrite (same_fields_loader w w1). }
  exists w', (es ++ [EvNew (S (length (store w))) (KThen (length (store w)) (CbLevelLoaded k first));
                     EvNew (length (store w)) (KAll (js_get (promiseLODs k w) first))]).
  split_and!.
  - done.
  - unfold same_fields in *. rewrite <- Hsame at 3. rewrite <- Hsame'. by destruct w'.
  - rewrite Ht. unfold w1. simpl. by rewrite <- app_assoc.
  - apply Forall_app. split; [done|]. repeat constructor; eauto.
  - intros i Hi. destruct (decide (i = first)) as [->|Hne].
    + exists (length (store w)). split; apply elem_of_app; right.
      * by left.
      * right. by left.
    + destruct (Hwires i) as (all & H1 & H2); [lia|].
      rewrite (same_fields_promiseLODs w w1) in H2 by done.
      exists all. split; apply elem_of_app; by left.
Qed.

Lemma js_get_lt {A} (a : list (option A)) i x : js_get a i = Some x → i < length a.
Proof.
  unfold js_get. destruct (a !! i) eqn:Hi; [|done]. intros _. by eapply lookup_lt_Some.
Qed.

(** [onReady] chains the event of level [i] on the promises that are
    kept for level [i] at that moment. *)
Lemma onReady_wires_tracked w loader k i srcs :
  _loader w = Some loader → js_get (promiseLODs k w) i = Some srcs →
  ∃ all, EvNew (S all) (KThen all (CbLevelLoaded k i)) ∈ trace (onReady w).2 ∧
         EvNew all (KAll (Some srcs)) ∈ trace (onReady w).2.
Proof.
  intros Hl Hsrcs. apply js_get_lt in Hsrcs as Hlt.
  unfold onReady. erewrite (bind_run (gets _)) by reflexivity. cbv beta.
  destruct (onReady_levels_run NodeLOD (length (_nodePromiseLODs w)) 0 w loader Hl)
    as (w1 & es1 & Hrun1 & Hsame1 & Ht1 & _ & Hwires1).
  rewrite (bind_run _ _ w tt w1) by done.
  erewrite (bind_run (gets _)) by reflexivity. cbv beta.
  destruct (onReady_levels_run MaterialLOD (length (_materialPromiseLODs w1)) 0 w1 loader)
    as (w2 & es2 & Hrun2 & Hsame2 & Ht2 & _ & Hwires2).
  { by rewrite (same_fields_loader w w1). }
  rewrite (bind_run _ _ w1 tt w2) by done.
  erewrite (bind_run (gets _)) by reflexivity. cbv beta.
  assert (tracks passive (for_range 1 (length (_bufferLODs w2) - 1) _loadBufferLOD)) as Hreads.
  { tracks_auto. apply tracks_loadBufferLOD. }
  destruct (Hreads w2) as (es3 & -> & _).
  rewrite Ht2, Ht1.
  destruct k; simpl in *.
  - destruct (Hwires1 i) as (all & H1 & H2); [lia|]. rewrite Hsrcs in H2.
    exists all. split; apply elem_of_app; right; apply elem_of_app; right;
      apply elem_of_app; by left.
  - pose proof (same_fields_promiseLODs w w1 MaterialLOD Hsame1) as Heq. simpl in Heq.
    destruct (Hwires2 i) as (all & H1 & H2); [rewrite Heq; lia|].
    simpl in H2. rewrite Heq, Hsrcs in H2.
    exists all. split; apply elem_of_app; right; apply elem_of_app; by left.
Qed.

(** The reaction that announces a level which is not the last resolves
    the signal of the level, when there is one. *)
Lemma level_loaded_resolves w p k i d c loader :
  _loader w = Some loader →
  Z.of_nat i ≠ (Z.of_nat (length (promiseLODs k w)) - 1)%Z →
  js_get (signalLODs k w) i = Some d →
  store w !! d = Some c → kind c = KDeferred →
  ∃ w', cb_level_loaded p k i w = (Ok tt, w') ∧
    trace w' = (if settled (state c) then [] else [EvSettled d (Fulfilled VUndefined)])
               ++ EvNotify p k i :: trace w ∧
    store w' = (if settled (state c) then store w
                else <[d := {| kind := KDeferred; state := Fulfilled VUndefined |}]> (store w)).
Proof.
  intros Hl Hlast Hd Hc Hk. unfold cb_level_loaded.
  rewrite (bind_run _ _ w tt w)
    by (destruct (negb _); simpl; [by eapply loader_call_run|done]).
  rewrite (bind_run _ _ w tt w) by (by eapply loader_call_run).
  erewrite (bind_run (emit _)) by reflexivity.
  erewrite (bind_run (gets _)) by reflexivity. cbv beta.
  assert (∀ t, promiseLODs k (set_trace t w) = promiseLODs k w) as -> by (by destruct k).
  destruct (Z.eqb_spec (Z.of_nat i) (Z.of_nat (length (promiseLODs k w)) - 1)) as [?|_];
    [done|]. simpl.
  unfold resolve_signal, Deferred_settle.
  erewrite (bind_run loader_call) by (by eapply loader_call_run).
  erewrite (bind_run (gets _)) by reflexivity. cbv beta.
  assert (∀ t, signalLODs k (set_trace t w) = signalLODs k w) as -> by (by destruct k).
  rewrite Hd.
  erewrite (bind_run (gets _)) by reflexivity. simpl. rewrite Hc. simpl. rewrite Hk.
  erewrite settle_run by exact Hc. rewrite Hk.
  destruct (settled (state c)); eexists; split; try reflexivity; done.
Qed.

(** The reaction that announces the last level resolves no signal. *)
Lemma level_loaded_last w p k i loader :
  _loader w = Some loader →
  Z.of_nat i = (Z.of_nat (length (promiseLODs k w)) - 1)%Z →
  cb_level_loaded p k i w = (Ok tt, set_trace (EvNotify p k i :: trace w) w).
Proof.
  intros Hl Hlast. unfold cb_level_loaded.
  rewrite (bind_run _ _ w tt w)
    by (destruct (negb _); simpl; [by eapply loader_call_run|done]).
  rewrite (bind_run _ _ w tt w) by (by eapply loader_call_run).
  erewrite (bind_run (emit _)) by reflexivity.
  erewrite (bind_run (gets _)) by reflexivity. cbv beta.
  assert (∀ t, promiseLODs k (set_trace t w) = promiseLODs k w) as -> by (by destruct k).
  by rewrite Hlast, Z.eqb_refl.
Qed.

(** With its loader, the reaction always announces its level. *)
Lemma level_loaded_notifies w p k i loader :
  _loader w = Some loader →
  ∃ es, trace (cb_level_loaded p k i w).2 = es ++ EvNotify p k i :: trace w.
Proof.
  intros Hl. unfold cb_level_loaded.
  rewrite (bind_run _ _ w tt w)
    by (destruct (negb _); simpl; [by eapply loader_call_run|done]).
  rewrite (bind_run _ _ w tt w) by (by eapply loader_call_run).
  erewrite (bind_run (emit _)) by reflexivity.
  assert (tracks (quiet p)
    (n ← gets (λ w, length (promiseLODs k w));
     when (negb (Z.of_nat i =? Z.of_nat n - 1)%Z) (resolve_signal k i)))
    as Hrest by (tracks_auto; apply tracks_resolve_signal).
  match goal with |- context [?m ?w1] =>
    match type of Hrest with tracks _ ?m' => unify m m';
      destruct (Hrest w1) as (es & -> & _) end end.
  by exists es.
Qed.

(** When every promise kept for a level is fulfilled, the scheduler can
    run the two reactions that are ready, and the level is announced. *)
Lemma level_fires w p all srcs k i loader :
  _loader w = Some loader →
  store w !! p = Some {| kind := KThen all (CbLevelLoaded k i); state := Pending |} →
  store w !! all = Some {| kind := KAll (Some srcs); state := Pending |} →
  (∀ q, q ∈ srcs → is_fulfilled w q = true) →
  ∃ w', exec [ARun all; ARun p] w = Some w' ∧ EvNotify p k i ∈ trace w'.
Proof.
  intros Hl Hp Hall Hsrcs.
  assert (p ≠ all) as Hne by (intros ->; rewrite Hp in Hall; done).
  assert (existsb (is_rejected w) srcs = false) as Hrej.
  { apply not_true_iff_false. intros (q & Hq & Hr)%existsb_exists.
    apply list_elem_of_In in Hq. specialize (Hsrcs q Hq).
    unfold is_rejected, is_fulfilled in *. by destruct (cell_state w q) as [[]|]. }
  assert (forallb (is_fulfilled w) srcs = true) as Hful.
  { apply forallb_forall. intros q Hq. apply Hsrcs. by apply list_elem_of_In. }
  simpl. unfold run at 1. rewrite Hall. simpl. rewrite Hrej, Hful.
  rewrite (settle_run w all _ _ Hall). simpl.
  set (w1 := set_trace _ _).
  assert (store w1 !! p = Some {| kind := KThen all (CbLevelLoaded k i); state := Pending |})
    as Hp1 by (unfold w1; simpl; by rewrite list_lookup_insert_ne).
  assert (cell_state w1 all = Some (Fulfilled VUndefined)) as Hall1.
  { unfold cell_state, w1. simpl.
    rewrite list_lookup_insert_eq by (by eapply lookup_lt_Some). done. }
  unfold run. rewrite Hp1. simpl. rewrite Hall1.
  eexists. split; [reflexivity|].
  destruct (level_loaded_notifies w1 p k i loader Hl) as [es Hes].
  unfold react. simpl. rewrite <- (snd_bind_ret _ (inl VUndefined : Value + nat)) in Hes.
  destruct ((cb_level_loaded p k i ≫= λ _, mret (inl VUndefined)) w1) as [[[v|q]|err] w2];
    simpl in *.
  - destruct (settle_trace p (Fulfilled v) w2) as (es' & -> & _). rewrite Hes.
    apply elem_of_app. right. apply elem_of_app. right. by left.
  - destruct (adopt_trace p q w2) as (es' & -> & _). rewrite Hes.
    apply elem_of_app. right. apply elem_of_app. right. by left.
  - destruct (settle_trace p Rejected w2) as (es' & -> & _). rewrite Hes.
    apply elem_of_app. right. apply elem_of_app. right. by left.
Qed.

(** C2 (as the code has it). In a run in which [onReady] is called at
    most once, the event "level [i] loaded" of either kind fires at most
    once; it fires only after every promise that was kept for level [i]
    when [onReady] was called has been fulfilled; when it fires for a
    level that is not the last, the signal of the level, if there is
    one, is resolved right after; and when all of these promises are
    fulfilled the event can fire. (It never fires when one of them is
    rejected: [Promise.all] then rejects and the reaction does not run.) *)
Theorem level_event_after_all_loaded :
  (∀ loader maxLODs acts w k i,
     run_from loader maxLODs acts w →
     length (List.filter is_onReady acts) ≤ 1 →
     count_events (is_notify k i) (trace w) ≤ 1) ∧
  (∀ loader maxLODs acts w newer p k i past,
     run_from loader maxLODs acts w →
     trace w = newer ++ EvNotify p k i :: past →
     ∃ all srcs,
       EvNew p (KThen all (CbLevelLoaded k i)) ∈ past ∧
       EvNew all (KAll (Some srcs)) ∈ past ∧
       ∀ q, q ∈ srcs → ∃ v, EvSettled q (Fulfilled v) ∈ past) ∧
  (∀ w loader k i srcs,
     _loader w = Some loader → js_get (promiseLODs k w) i = Some srcs →
     ∃ all, EvNew (S all) (KThen all (CbLevelLoaded k i)) ∈ trace (onReady w).2 ∧
            EvNew all (KAll (Some srcs)) ∈ trace (onReady w).2) ∧
  (∀ w p k i d c loader,
     _loader w = Some loader →
     Z.of_nat i ≠ (Z.of_nat (length (promiseLODs k w)) - 1)%Z →
     js_get (signalLODs k w) i = Some d →
     store w !! d = Some c → kind c = KDeferred →
     ∃ w', cb_level_loaded p k i w = (Ok tt, w') ∧
       trace w' = (if settled (state c) then [] else [EvSettled d (Fulfilled VUndefined)])
                  ++ EvNotify p k i :: trace w ∧
       store w' = (if settled (state c) then store w
                   else <[d := {| kind := KDeferred; state := Fulfilled VUndefined |}]>
                          (store w))) ∧
  (∀ w p all srcs k i loader,
     _loader w = Some loader →
     store w !! p = Some {| kind := KThen all (CbLevelLoaded k i); state := Pending |} →
     store w !! all = Some {| kind := KAll (Some srcs); state := Pending |} →
     (∀ q, q ∈ srcs → is_fulfilled w q = true) →
     ∃ w', exec [ARun all; ARun p] w = Some w' ∧ EvNotify p k i ∈ trace w').
Proof.
  split_and!.
  - intros loader maxLODs acts w k i Hrun Honce.
    pose proof (consistent_exec acts _ w (consistent_initial loader maxLODs) Hrun) as Hw.
    apply notify_once; [apply Hw|].
    pose proof (exec_wire k i acts _ w Hrun) as Hwire. simpl in Hwire.
    unfold count_events in *. simpl in *. lia.
  - intros loader maxLODs acts w newer p k i past Hrun Htrace.
    pose proof (consistent_exec acts _ w (consistent_initial loader maxLODs) Hrun) as Hw.
    pose proof (consistent_history w Hw) as Hok. rewrite Htrace in Hok.
    apply history_ok_split in Hok. simpl in Hok. apply Hok.
  - intros. by eapply onReady_wires_tracked.
  - intros. by eapply level_loaded_resolves.
  - intros. by eapply level_fires.
Qed.

(** ** Requests outside of LOD levels *)




(** ** When the reads are issued *)

Lemma read_ranges_app es t : read_ranges (es ++ t) = read_ranges es ++ read_ranges t.
Proof. unfold read_ranges. apply omap_app. Qed.

Lemma read_ranges_calm es : Forall calm es → read_ranges es = [].
Proof.
  induction 1 as [|e es [_ He] _ IH]; [done|]. destruct e; try done; exact IH.
Qed.

Lemma read_ranges_new es : Forall (λ e, ∃ p k, e = EvNew p k) es → read_ranges es = [].
Proof.
  induction 1 as [|e es (p & k & ->) _ IH]; [done|]. exact IH.
Qed.

(** No reaction and no settlement issues a read: reads are issued by
    calls of the loader and by [onReady] only. *)
Lemma run_reads p w w' : run p w = Some w' → read_ranges (trace w') = read_ranges (trace w).
Proof.
  intros Hrun. destruct (run_trace p w w' Hrun) as (es & -> & Hes).
  by rewrite read_ranges_app, read_ranges_calm.
Qed.

Lemma bucket_range_fields w w' i :
  _bufferLODs w' = _bufferLODs w → bufferLOD_heap w' = bufferLOD_heap w →
  bucket_range w' i = bucket_range w i.
Proof. unfold bucket_range. by intros -> ->. Qed.

Lemma bucket_range_Some w i r :
  bucket_range w i = Some r →
  ∃ b bucket, js_get (_bufferLODs w) i = Some b ∧ bufferLOD_heap w !! b = Some bucket ∧
              r = (start bucket, end_ bucket - start bucket + 1)%Z.
Proof.
  unfold bucket_range. destruct (js_get (_bufferLODs w) i) as [b|]; simpl; [|done].
  destruct (bufferLOD_heap w !! b) as [bucket|] eqn:Hb; simpl; [|done].
  intros Heq. injection Heq as <-. by exists b, bucket.
Qed.

(** The last loop of [onReady]: one read for each level, in order. *)
Lemma for_range_reads count : ∀ first w,
  range_ready w →
  (∀ i, first ≤ i < first + count → is_Some (bucket_range w i)) →
  ∃ w', for_range first count _loadBufferLOD w = (Ok tt, w') ∧
    read_ranges (trace w')
      = reverse (omap (bucket_range w) (seq first count)) ++ read_ranges (trace w) ∧
    _bufferLODs w' = _bufferLODs w ∧ bufferLOD_heap w' = bufferLOD_heap w ∧
    _loader w' = _loader w.
Proof.
  induction count as [|count IH]; intros first w Hready Hall; cbn [for_range seq].
  { by exists w. }
  destruct (Hall first) as [r Hr]; [lia|].
  destruct (bucket_range_Some w first r Hr) as (b & bucket & Hb & Hbucket & ->).
  destruct (loadBufferLOD_reads w first b bucket)
    as (w1 & Hrun1 & Ht1 & _ & Hbufs1 & Hheap1 & Hl1 & _); try done.
  rewrite (bind_run _ _ w tt w1) by done.
  destruct (IH (S first) w1) as (w' & Hrun & Hreads & Hbufs & Hheap & Hl').
  { by eapply range_ready_fields. }
  { intros i Hi. rewrite (bucket_range_fields w w1) by done. apply Hall. lia. }
  exists w'. split_and!; try congruence.
  rewrite Hreads, Ht1. simpl. rewrite Hr. simpl.
  rewrite reverse_cons, <- app_assoc. simpl.
  unfold bucket_range. by rewrite Hbufs1, Hheap1.
Qed.

(** [onReady] issues the reads of all the levels from 1 on, one for each
    level, in ascending order. *)
Lemma onReady_reads w :
  range_ready w →
  (∀ i, 1 ≤ i < length (_bufferLODs w) → is_Some (bucket_range w i)) →
  ∃ w', onReady w = (Ok tt, w') ∧
    read_ranges (trace w')
      = reverse (omap (bucket_range w) (seq 1 (length (_bufferLODs w) - 1)))
        ++ read_ranges (trace w).
Proof.
  intros Hready Hall. destruct Hready as (loader & Hl & Hr & Hb).
  unfold onReady. erewrite (bind_run (gets _)) by reflexivity. cbv beta.
  destruct (onReady_levels_run NodeLOD (length (_nodePromiseLODs w)) 0 w loader Hl)
    as (w1 & es1 & Hrun1 & Hsame1 & Ht1 & Hes1 & _).
  rewrite (bind_run _ _ w tt w1) by done.
  erewrite (bind_run (gets _)) by reflexivity. cbv beta.
  destruct (onReady_levels_run MaterialLOD (length (_materialPromiseLODs w1)) 0 w1 loader)
    as (w2 & es2 & Hrun2 & Hsame2 & Ht2 & Hes2 & _).
  { by rewrite (same_fields_loader w w1). }
  rewrite (bind_run _ _ w1 tt w2) by done.
  erewrite (bind_run (gets _)) by reflexivity. cbv beta.
  assert (_bufferLODs w2 = _bufferLODs w) as Hbufs.
  { by rewrite (same_fields_bufferLODs w1 w2), (same_fields_bufferLODs w w1). }
  assert (bufferLOD_heap w2 = bufferLOD_heap w) as Hheap.
  { by rewrite (same_fields_heap w1 w2), (same_fields_heap w w1). }
  assert (_loader w2 = Some loader) as Hl2.
  { by rewrite (same_fields_loader w1 w2), (same_fields_loader w w1). }
  destruct (for_range_reads (length (_bufferLODs w2) - 1) 1 w2)
    as (w' & Hrun & Hreads & _).
  { by exists loader. }
  { intros i Hi. rewrite (bucket_range_fields w w2) by done. apply Hall.
    rewrite Hbufs in Hi. lia. }
  exists w'. split; [done|].
  rewrite Hreads, Ht2, Ht1, !read_ranges_app, !read_ranges_new by done. simpl.
  rewrite Hbufs. unfold bucket_range. by rewrite Hbufs, Hheap.
Qed.


(** The turn of level 0 of a node LOD sequence, once the loader has
    returned the promise [src] of the load: the reaction is registered
    and, when level 0 has a bucket, its read is issued at once. *)
Lemma loadNodeAsync_after_level0 w nodeLODs src firstPromise b bucket :
  range_ready w →
  js_get (_bufferLODs w) 0 = Some b → bufferLOD_heap w !! b = Some bucket →
  ∃ w', loadNodeAsync_after nodeLODs 0 src firstPromise w
          = (Ok (Some (length (store w))), w') ∧
    trace w' = EvNew (S (S (length (store w)))) (KThen (S (length (store w))) (CbBufferRead b))
               :: EvReadAsync (start bucket) (end_ bucket - start bucket + 1)
                    (S (length (store w)))
               :: EvNew (S (length (store w))) KExternal
               :: EvNew (length (store w)) (KThen src (CbNodeLOD nodeLODs 0))
               :: trace w.
Proof.
  intros Hready Hb Hbucket. unfold loadNodeAsync_after.
  erewrite (bind_run (new_promise _)) by reflexivity. simpl.
  set (w1 := set_trace _ _).
  destruct (loadBufferLOD_reads w1 0 b bucket)
    as (w2 & Hrun2 & Ht2 & _); try done.
  erewrite (bind_run (gets _ ≫= _)); last first.
  { erewrite (bind_run (gets _)) by reflexivity. cbv beta.
    apply js_get_lt in Hb. unfold w1 at 1. simpl.
    destruct (length (_bufferLODs w)) eqn:Hlen; [lia|]. simpl.
    rewrite (bind_run _ _ w1 tt w2) by done. reflexivity. }
  mrun. eexists. split; [reflexivity|]. simpl. rewrite Ht2. unfold w1. simpl.
  rewrite length_app. simpl. by rewrite Nat.add_1_r.
Qed.

Lemma loadMaterialAsync_after_level0 w materialLODs babylonMesh babylonDrawMode src
    firstPromise b bucket :
  range_ready w →
  js_get (_bufferLODs w) 0 = Some b → bufferLOD_heap w !! b = Some bucket →
  ∃ w', _loadMaterialAsync_after materialLODs 0 babylonMesh babylonDrawMode src firstPromise w
          = (Ok (Some (length (store w))), w') ∧
    trace w' = EvNew (S (S (length (store w)))) (KThen (S (length (store w))) (CbBufferRead b))
               :: EvReadAsync (start bucket) (end_ bucket - start bucket + 1)
                    (S (length (store w)))
               :: EvNew (S (length (store w))) KExternal
               :: EvNew (length (store w))
                    (KThen src (CbMaterialLOD materialLODs 0 babylonMesh babylonDrawMode))
               :: trace w.
Proof.
  intros Hready Hb Hbucket. unfold _loadMaterialAsync_after.
  erewrite (bind_run (new_promise _)) by reflexivity. simpl.
  set (w1 := set_trace _ _).
  destruct (loadBufferLOD_reads w1 0 b bucket)
    as (w2 & Hrun2 & Ht2 & _); try done.
  erewrite (bind_run (gets _ ≫= _)); last first.
  { erewrite (bind_run (gets _)) by reflexivity. cbv beta.
    apply js_get_lt in Hb. unfold w1 at 1. simpl.
    destruct (length (_bufferLODs w)) eqn:Hlen; [lia|]. simpl.
    rewrite (bind_run _ _ w1 tt w2) by done. reflexivity. }
  mrun. eexists. split; [reflexivity|]. simpl. rewrite Ht2. unfold w1. simpl.
  rewrite length_app. simpl. by rewrite Nat.add_1_r.
Qed.

(** The turns of the levels above 0 issue no read. *)
Lemma loadNodeAsync_after_above w nodeLODs i src firstPromise :
  ∃ w', loadNodeAsync_after nodeLODs (S i) src firstPromise w = (Ok firstPromise, w') ∧
    trace w' = EvNew (length (store w)) (KThen src (CbNodeLOD nodeLODs (S i))) :: trace w.
Proof. unfold loadNodeAsync_after, new_promise. mrun. by eexists. Qed.

Lemma loadMaterialAsync_after_above w materialLODs i babylonMesh babylonDrawMode src
    firstPromise :
  ∃ w', _loadMaterialAsync_after materialLODs (S i) babylonMesh babylonDrawMode src
          firstPromise w = (Ok firstPromise, w') ∧
    trace w' = EvNew (length (store w))
                 (KThen src (CbMaterialLOD materialLODs (S i) babylonMesh babylonDrawMode))
               :: trace w.
Proof. unfold _loadMaterialAsync_after, new_promise. mrun. by eexists. Qed.

Lemma dispose_reads w : read_ranges (trace (dispose w).2) = read_ranges (trace w).
Proof.
  assert (emits (λ e, ∃ m, e = EvDisposeMaterial None m) dispose) as Hd.
  { unfold dispose. tracks_auto. apply tracks_disposeUnusedMaterials; eauto. }
  destruct (Hd w) as (es & -> & Hes & _). rewrite read_ranges_app.
  assert (read_ranges es = []) as ->; [|done].
  clear -Hes. induction Hes as [|e es [m ->] _ IH]; [done|exact IH].
Qed.

(** Apart from the calls of the loader and [onReady], no step of a run
    issues a read. *)
Lemma step_reads a w w' :
  step a w = Some w' →
  match a with AHost _ | AOnReady => False | _ => True end →
  read_ranges (trace w') = read_ranges (trace w).
Proof.
  destruct a as [s| | |p outcome|p]; simpl; try done.
  - intros [= <-] _. apply dispose_reads.
  - destruct (store w !! p) as [c|]; [|done].
    destruct (kind c); try done. destruct (state c); try done.
    intros [= <-] _.
    destruct (settle_trace p (match outcome with Some v => Fulfilled v | None => Rejected end) w)
      as (es & -> & Hes).
    by rewrite read_ranges_app, read_ranges_calm.
  - intros Hrun _. by eapply run_reads.
Qed.

(** C8 (as the code has it). The read of level 0 is issued in the turn
    of level 0 of each LOD sequence, as soon as the loader has returned
    the promise of that level's load and when level 0 has a bucket; the
    turns of the other levels issue no read. The reads of all the levels
    from 1 on are issued together by [onReady], in ascending order,
    whatever has been loaded or shown by then; and no reaction to a load
    (no swap of levels) and no settlement issues a read. *)
Theorem reads_at_level0_turn_and_onReady :
  (∀ w nodeLODs src firstPromise b bucket,
     range_ready w →
     js_get (_bufferLODs w) 0 = Some b → bufferLOD_heap w !! b = Some bucket →
     ∃ w', loadNodeAsync_after nodeLODs 0 src firstPromise w
             = (Ok (Some (length (store w))), w') ∧
       read_ranges (trace w')
         = (start bucket, end_ bucket - start bucket + 1)%Z :: read_ranges (trace w)) ∧
  (∀ w materialLODs babylonMesh babylonDrawMode src firstPromise b bucket,
     range_ready w →
     js_get (_bufferLODs w) 0 = Some b → bufferLOD_heap w !! b = Some bucket →
     ∃ w', _loadMaterialAsync_after materialLODs 0 babylonMesh babylonDrawMode src
             firstPromise w = (Ok (Some (length (store w))), w') ∧
       read_ranges (trace w')
         = (start bucket, end_ bucket - start bucket + 1)%Z :: read_ranges (trace w)) ∧
  (∀ w nodeLODs i src firstPromise,
     read_ranges (trace (loadNodeAsync_after nodeLODs (S i) src firstPromise w).2)
       = read_ranges (trace w)) ∧
  (∀ w materialLODs i babylonMesh babylonDrawMode src firstPromise,
     read_ranges (trace (_loadMaterialAsync_after materialLODs (S i) babylonMesh
                           babylonDrawMode src firstPromise w).2)
       = read_ranges (trace w)) ∧
  (∀ w,
     range_ready w →
     (∀ i, 1 ≤ i < length (_bufferLODs w) → is_Some (bucket_range w i)) →
     ∃ w', onReady w = (Ok tt, w') ∧
       read_ranges (trace w')
         = reverse (omap (bucket_range w) (seq 1 (length (_bufferLODs w) - 1)))
           ++ read_ranges (trace w)) ∧
  (∀ a w w',
     step a w = Some w' →
     match a with AHost _ | AOnReady => False | _ => True end →
     read_ranges (trace w') = read_ranges (trace w)).
Proof.
  split_and!.
  - intros w nodeLODs src fp b bucket Hready Hb Hbucket.
    destruct (loadNodeAsync_after_level0 w nodeLODs src fp b bucket) as (w' & Hrun & Ht);
      try done.
    exists w'. split; [done|]. by rewrite Ht.
  - intros w materialLODs mesh drawMode src fp b bucket Hready Hb Hbucket.
    destruct (loadMaterialAsync_after_level0 w materialLODs mesh drawMode src fp b bucket)
      as (w' & Hrun & Ht); try done.
    exists w'. split; [done|]. by rewrite Ht.
  - intros w nodeLODs i src fp.
    destruct (loadNodeAsync_after_above w nodeLODs i src fp) as (w' & Hrun & Ht).
    rewrite Hrun. simpl. by rewrite Ht.
  - intros w materialLODs i mesh drawMode src fp.
    destruct (loadMaterialAsync_after_above w materialLODs i mesh drawMode src fp)
      as (w' & Hrun & Ht).
    rewrite Hrun. simpl. by rewrite Ht.
  - apply onReady_reads.
  - apply step_reads.
Qed.

Lemma loadBufferAsync_widen_trace w buffer offset len b bucket :
  range_ready w → uri_missing buffer = true →
  js_get (_bufferLODs w) (current_level w) = Some b →
  bufferLOD_heap w !! b = Some bucket →
  trace (loadBufferAsync buffer offset len w).2
    = EvNew (length (store w)) (KThen (loaded bucket) (CbBufferView b offset len)) :: trace w.
Proof.
  intros (loader & Hl & Hr & Hb) Hu Hsome Hheap. unfold current_level in *.
  unfold loadBufferAsync, read_bufferLOD, new_promise. mrun.
  rewrite Hl. mrun. rewrite Hr, Hu, Hb. mrun. rewrite Hsome. mrun.
  rewrite Hheap. mrun.
  rewrite list_lookup_insert_eq by (by eapply lookup_lt_Some). mrun. done.
Qed.

(** C9 (as the code has it). A byte-range request that arrives after the
    read of its level was issued is no error: it is merged like any
    other, widening the bucket and chaining its future on the deferred of
    the bucket, and no further read is issued for it. One call of
    [onReady] issues one read for each level from 1 on. *)
Theorem late_request_is_merged :
  (∀ w buffer offset len b bucket,
     range_ready w → uri_missing buffer = true →
     js_get (_bufferLODs w) (current_level w) = Some b →
     bufferLOD_heap w !! b = Some bucket →
     ∃ w1, _loadBufferLOD (current_level w) w = (Ok tt, w1) ∧
       read_ranges (trace w1)
         = (start bucket, end_ bucket - start bucket + 1)%Z :: read_ranges (trace w) ∧
       ∃ p w2, loadBufferAsync buffer offset len w1 = (Ok (Some p), w2) ∧
         js_get (_bufferLODs w2) (current_level w) = Some b ∧
         bufferLOD_heap w2 !! b = Some (widen bucket (offset, len)) ∧
         store w2 !! p = Some {| kind := KThen (loaded bucket) (CbBufferView b offset len);
                                 state := Pending |} ∧
         read_ranges (trace w2) = read_ranges (trace w1)) ∧
  (∀ w,
     range_ready w →
     (∀ i, 1 ≤ i < length (_bufferLODs w) → is_Some (bucket_range w i)) →
     ∃ w', onReady w = (Ok tt, w') ∧
       read_ranges (trace w')
         = reverse (omap (bucket_range w) (seq 1 (length (_bufferLODs w) - 1)))
           ++ read_ranges (trace w)).
Proof.
  split; [|apply onReady_reads].
  intros w buffer offset len b bucket Hready Hu Hb Hbucket.
  destruct (loadBufferLOD_reads w (current_level w) b bucket)
    as (w1 & Hrun1 & Ht1 & Hstore1 & Hbufs1 & Hheap1 & Hl1 & Hi1); try done.
  exists w1. split; [done|]. split; [by rewrite Ht1|].
  assert (current_level w1 = current_level w) as Hcur by (unfold current_level; by rewrite Hi1).
  destruct (loadBufferAsync_widen w1 buffer offset len b bucket)
    as (w2 & Hrun2 & Hbufs2 & Hheap2 & Hstore2 & _ & _); try done.
  { by eapply range_ready_fields. }
  { by rewrite Hcur, Hbufs1. }
  { by rewrite Hheap1. }
  exists (length (store w1)), w2. split_and!; try done.
  - by rewrite Hbufs2, Hbufs1.
  - rewrite Hheap2. apply list_lookup_insert_eq. rewrite Hheap1. by eapply lookup_lt_Some.
  - rewrite Hstore2. by apply list_lookup_middle.
  - pose proof (loadBufferAsync_widen_trace w1 buffer offset len b bucket) as Ht2.
    rewrite Hrun2 in Ht2. simpl in Ht2. rewrite Ht2; try done.
    + by eapply range_ready_fields.
    + by rewrite Hcur, Hbufs1.
    + by rewrite Hheap1.
Qed.

(** ** Material LODs inside node LODs *)

Lemma bind_ok {A B} (m : M A) (f : A → M B) w b w' :
  (m ≫= f) w = (Ok b, w') → ∃ a w1, m w = (Ok a, w1) ∧ f a w1 = (Ok b, w').
Proof.
  unfold mbind, M_bind. destruct (m w) as [[a|e] w1]; [|done]. intros H. by exists a, w1.
Qed.

Lemma getLODs_loop_nonempty {T} C (property : T) array rids : ∀ acc l,
  getLODs_loop C property array rids acc = Ok l → l ≠ [].
Proof.
  induction rids as [|id rids IH]; intros acc l; simpl.
  - intros [= <-]. by destruct acc.
  - destruct (ArrayItem_Get array id) as [item|e]; [|done].
    destruct (_ =? _)%Z; [|by apply IH].
    intros [= <-]. by destruct acc.
Qed.

Lemma getLODs_nonempty {T} C (property : T) array ids l :
  _getLODs C property array ids = Ok l → l ≠ [].
Proof.
  unfold _getLODs. destruct (C <=? 0)%Z; [done|]. apply getLODs_loop_nonempty.
Qed.

(** What a turn of the loop over [materialLODs] leaves in [firstPromise]:
    the promise of level 0 at level 0, and what it was at the others. *)
Lemma loadMaterialAsync_after_first materialLODs indexLOD babylonMesh babylonDrawMode src
    firstPromise w r w' :
  _loadMaterialAsync_after materialLODs indexLOD babylonMesh babylonDrawMode src
    firstPromise w = (Ok r, w') →
  indexLOD = 0 ∨ is_Some firstPromise → is_Some r.
Proof.
  unfold _loadMaterialAsync_after. intros H Hcase.
  apply bind_ok in H as (promise & w1 & _ & H).
  apply bind_ok in H as (fp & w2 & Hfp & H).
  assert (r = fp) as -> by (revert H; mrun; congruence).
  destruct indexLOD as [|i]; simpl in Hfp.
  - apply bind_ok in Hfp as (n & w3 & _ & Hfp).
    apply bind_ok in Hfp as ([] & w4 & _ & Hfp).
    revert Hfp. mrun. intros [= <- _]. eauto.
  - revert Hfp. mrun. intros [= <- _]. by destruct Hcase.
Qed.

Lemma loadMaterialAsync_loop_first loader_loadMaterial materialLODs babylonMesh
    babylonDrawMode rest : ∀ indexLOD firstPromise w r w',
  _loadMaterialAsync_loop loader_loadMaterial materialLODs rest babylonMesh babylonDrawMode
    indexLOD firstPromise w = (Ok r, w') →
  rest ≠ [] ∧ indexLOD = 0 ∨ is_Some firstPromise → is_Some r.
Proof.
  induction rest as [|materialLOD rest IH]; intros indexLOD fp w r w' H Hcase.
  - simpl in H. revert H. mrun. intros [= <- _]. by destruct Hcase as [[? _]|?].
  - cbn [_loadMaterialAsync_loop] in H.
    apply bind_ok in H as ([] & w1 & _ & H).
    apply bind_ok in H as (src & w2 & _ & H).
    apply bind_ok in H as (fp' & w3 & Hafter & H).
    eapply IH; [done|]. right.
    eapply loadMaterialAsync_after_first; [done|]. destruct Hcase as [[_ ?]|?]; eauto.
Qed.


(** ** Disposal of superseded materials *)

(** The reaction to the load of level [i+1] of a material: the new
    material goes on the mesh and the material of level [i] for this
    draw mode is disposed, whatever meshes use it. *)
Lemma cb_material_lod_disposes w p materialLODs i babylonMesh babylonDrawMode m previous
    d data :
  materialLODs !! i = Some previous →
  material_data w !! material_index previous = Some d →
  js_get d babylonDrawMode = Some data →
  ∃ w', run_callback p (CbMaterialLOD materialLODs (S i) babylonMesh babylonDrawMode)
          (VMaterial m) w = (Ok (inl (VMaterial m)), w') ∧
    trace w' = EvDisposeMaterial (Some p) (babylonMaterial data) :: trace w ∧
    mesh_material w' = <[babylonMesh := m]> (mesh_material w).
Proof.
  intros Hprev Hd Hdata. unfold run_callback, cb_material_lod, assign_material. mrun.
  rewrite Nat.sub_0_r, Hprev. mrun. rewrite Hd. mrun. rewrite Hdata. mrun.
  by eexists.
Qed.

(** [_disposeUnusedMaterials] looks at the meshes first: a material that
    one of its meshes still has is kept. *)
Lemma dispose_if_unused_keeps by_ material drawMode w data :
  material_data w !! material_index material ≫= (λ d, js_get d drawMode) = Some data →
  no_mesh_uses w data = false →
  dispose_if_unused by_ material drawMode w = (Ok tt, w).
Proof. intros Hd Hused. unfold dispose_if_unused. mrun. rewrite Hd. mrun. by rewrite Hused. Qed.

(** * The properties on the sample assets *)


(** The uri of level 1 of [node_scene] is asked for by the reaction of
    promise 10, after the signal it was chained on was resolved. *)
Lemma deferred_uri_waits_witness :
  run_from node_asset 10 uri_run (outcome node_asset uri_run) ∧
  ∃ signal v,
    EvNew 10 (KThen signal (CbLoadUri "a.png")) ∈ drop 2 (trace (outcome node_asset uri_run)) ∧
    EvSettled signal (Fulfilled v) ∈ drop 2 (trace (outcome node_asset uri_run)).
Proof.
  split; [vm_compute; reflexivity|].
  apply (proj1 (proj2 deferred_uri_waits) node_asset 10%Z uri_run (outcome node_asset uri_run)
           (take 1 (trace (outcome node_asset uri_run))) 10 "a.png" 29).
  - vm_compute; reflexivity.
  - vm_compute; reflexivity.
Defined.


(** In [level0_run] the event of level 0 fires once, after the load it
    aggregates was fulfilled. *)
Lemma level_event_after_all_loaded_witness :
  run_from plain_asset 10 level0_run (outcome plain_asset level0_run) ∧
  count_events (is_notify NodeLOD 0) (trace (outcome plain_asset level0_run)) ≤ 1 ∧
  ∃ all srcs,
    EvNew 6 (KThen all (CbLevelLoaded NodeLOD 0))
      ∈ drop 2 (trace (outcome plain_asset level0_run)) ∧
    EvNew all (KAll (Some srcs)) ∈ drop 2 (trace (outcome plain_asset level0_run)) ∧
    ∀ q, q ∈ srcs →
      ∃ v, EvSettled q (Fulfilled v) ∈ drop 2 (trace (outcome plain_asset level0_run)).
Proof.
  split; [vm_compute; reflexivity|]. split.
  - apply (proj1 level_event_after_all_loaded plain_asset 10%Z level0_run).
    + vm_compute; reflexivity.
    + vm_compute. lia.
  - apply (proj1 (proj2 level_event_after_all_loaded) plain_asset 10%Z level0_run
             (outcome plain_asset level0_run)
             (take 1 (trace (outcome plain_asset level0_run))) 6 NodeLOD 0).
    + vm_compute; reflexivity.
    + vm_compute; reflexivity.
Defined.

(** C2 fails as stated: the load of level 0 is rejected, every promise
    of the run settles and every reaction runs, and the event of level
    0 has not fired: its promise is rejected with the aggregate. *)
Lemma level_event_lost_on_rejection :
  ∃ w, run_from plain_asset 10 failed_level0_run w ∧
    js_get (_nodePromiseLODs w) 0 = Some [1] ∧
    cell_state w 1 = Some Rejected ∧
    store w !! 6 = Some {| kind := KThen 5 (CbLevelLoaded NodeLOD 0); state := Rejected |} ∧
    Forall (λ c, kind c = KDeferred ∨ settled (state c) = true) (store w) ∧
    count_events (is_notify NodeLOD 0) (trace w) = 0 ∧
    count_events (is_notify NodeLOD 1) (trace w) = 1.
Proof.
  exists (outcome plain_asset failed_level0_run).
  split_and!; try (vm_compute; reflexivity).
  vm_compute. repeat (constructor; [first [by left|by right]|]). constructor.
Qed.




(** C6 fails as stated: in the turn of level 0 of a node LOD sequence
    the marker is 0, and a material with LODs is split all the same:
    the call returns the promise of its first level, and the loader's
    pass over [nested_scene] registers level 1 of the material. *)
Lemma material_split_at_node_level0 :
  let w := (loadNodeAsync_before 0 (initial plain_asset 10)).2 in
  _indexLOD w = Some 0 ∧
  (_loadMaterialAsync load_plain_material fine_material 0 0 w).1 = Ok (Some 1) ∧
  EvNew 3 (KThen 2 (CbMaterialLOD [coarse_material; fine_material] 1 0 0))
    ∈ trace (outcome plain_asset [AHost nested_scene]).
Proof.
  split_and!; [reflexivity|vm_compute; reflexivity|].
  apply list_elem_of_lookup_2 with 7. vm_compute; reflexivity.
Qed.

(** C7, on the code. Mesh 0 has material 1, whose coarser variant is
    material 0; mesh 1 has material 0 itself. When level 1 is loaded for
    mesh 0, its reaction disposes the Babylon material of material 0,
    which mesh 1 still has: no mesh is looked at, and the check of
    [_disposeUnusedMaterials] fails for it at that moment. *)
Theorem superseded_material_disposed_in_use :
  ∃ w data,
    run_from plain_asset 10 shared_material_run w ∧
    trace w !! 1 = Some (EvDisposeMaterial (Some 3) (babylonMaterial data)) ∧
    mesh_material w !! 1 = Some (babylonMaterial data) ∧
    1 ∈ babylonMeshes data ∧
    no_mesh_uses w data = false ∧
    material_data (outcome plain_asset (take 2 shared_material_run)) !! 0
      = Some [Some data].
Proof.
  exists (outcome plain_asset shared_material_run),
    {| babylonMaterial := 0; babylonMeshes := [0; 1] |}.
  split_and!; try (vm_compute; reflexivity).
  apply list_elem_of_lookup_2 with 1. reflexivity.
Qed.

(** After the loader's pass over [node_scene], [onReady] reads the
    buckets of levels 1 and 2; the swap of level 0 reads nothing. *)
Lemma reads_at_level0_turn_and_onReady_witness :
  let w := outcome node_asset [AHost node_scene] in
  range_ready w ∧
  (∃ w', onReady w = (Ok tt, w') ∧
     read_ranges (trace w') = [(0, 25); (50, 10); (10, 5)]%Z) ∧
  read_ranges (trace (outcome node_asset [AHost node_scene; ASettle 2 (Some (VNode 0)); ARun 3]))
    = read_ranges (trace (outcome node_asset [AHost node_scene; ASettle 2 (Some (VNode 0))])).
Proof.
  assert (range_ready (outcome node_asset [AHost node_scene])) as Hready.
  { exists node_asset. split_and!; vm_compute; reflexivity. }
  split; [exact Hready|]. split.
  - destruct (proj1 (proj2 (proj2 (proj2 (proj2 reads_at_level0_turn_and_onReady))))
               (outcome node_asset [AHost node_scene]) Hready) as (w' & Hrun & Hreads).
    + intros i Hi.
      assert (length (_bufferLODs (outcome node_asset [AHost node_scene])) = 3) as Hlen
        by (vm_compute; reflexivity).
      rewrite Hlen in Hi.
      assert (i = 1 ∨ i = 2) as [-> | ->] by lia; eexists; vm_compute; reflexivity.
    + exists w'. split; [exact Hrun|]. rewrite Hreads. vm_compute; reflexivity.
  - apply (proj2 (proj2 (proj2 (proj2 (proj2 reads_at_level0_turn_and_onReady)))) (ARun 3)).
    + vm_compute; reflexivity.
    + exact I.
Defined.

(** C8 fails as stated: level 0 of [node_scene] is loaded and shown and
    the loader is ready; the reads of levels 1 and 2 are both issued,
    while the load of level 1 is pending and only level 0 has been
    shown. *)
Lemma reads_issued_before_swap :
  ∃ w, run_from node_asset 10 early_reads_run w ∧
    read_ranges (trace w) = [(0, 25); (50, 10); (10, 5)]%Z ∧
    js_get (_nodePromiseLODs w) 1 = Some [12] ∧
    cell_state w 11 = Some Pending ∧ cell_state w 12 = Some Pending ∧
    List.filter is_show (trace w) = [EvSetEnabled (Some 3) 0 true].
Proof. exists (outcome node_asset early_reads_run). split_and!; vm_compute; reflexivity. Qed.

(** A request for bytes [[0, 7]] after the read of the bucket [[10, 14]]
    was issued. *)
Lemma late_request_is_merged_witness :
  let w := outcome node_asset [AHost (requests no_uri [(10, 5)%Z])] in
  ∃ w1, _loadBufferLOD 0 w = (Ok tt, w1) ∧
    read_ranges (trace w1) = [(10, 5)%Z] ∧
    ∃ p w2, loadBufferAsync no_uri 0 8 w1 = (Ok (Some p), w2) ∧
      bufferLOD_heap w2 !! 0 = Some {| start := 0; end_ := 14; loaded := 0 |} ∧
      read_ranges (trace w2) = [(10, 5)%Z].
Proof.
  intros w.
  destruct (proj1 late_request_is_merged w no_uri 0%Z 8%Z 0
              {| start := 10; end_ := 14; loaded := 0 |})
    as (w1 & Hrun1 & Hreads1 & p & w2 & Hrun2 & _ & Hheap2 & _ & Hreads2).
  - exists node_asset. split_and!; vm_compute; reflexivity.
  - reflexivity.
  - vm_compute; reflexivity.
  - vm_compute; reflexivity.
  - exists w1. split; [exact Hrun1|]. split; [exact Hreads1|].
    exists p, w2. split; [exact Hrun2|]. split; [exact Hheap2|].
    rewrite Hreads2. exact Hreads1.
Defined.

(** C9 fails as stated: the loader's pass over [node_scene] issues the
    read of level 0 for bytes [[10, 14]]; a request for bytes [[0, 7]]
    that comes after it, outside of any level, is answered with a
    pending promise like any other, the bucket of level 0 becomes
    [[0, 14]] and nothing is read again. *)
Lemma late_request_merged_silently :
  let w := outcome node_asset [AHost node_scene] in
  read_ranges (trace w) = [(10, 5)%Z] ∧ bucket_range w 0 = Some (10, 5)%Z ∧
  ∃ w', loadBufferAsync no_uri 0 8 w = (Ok (Some 19), w') ∧
    bucket_range w' 0 = Some (0, 15)%Z ∧
    store w' !! 19 = Some {| kind := KThen 0 (CbBufferView 0 0 8); state := Pending |} ∧
    read_ranges (trace w') = [(10, 5)%Z].
Proof.
  split_and!; try (vm_compute; reflexivity).
  eexists (loadBufferAsync no_uri 0 8 (outcome node_asset [AHost node_scene])).2.
  split_and!; vm_compute; reflexivity.
Qed.

(** * What the futures of byte-range requests yield *)

(** A reaction that is ready: its promise is pending and its source is
    fulfilled. *)
Lemma run_ready w p src cb v :
  store w !! p = Some {| kind := KThen src cb; state := Pending |} →
  cell_state w src = Some (Fulfilled v) →
  run p w = Some (react p (run_callback p cb v) w).
Proof. intros Hp Hsrc. unfold run. rewrite Hp. simpl. by rewrite Hsrc. Qed.

Lemma react_fulfils w p (m : M (Value + nat)) v w1 c :
  m w = (Ok (inl v), w1) → store w1 !! p = Some c → state c = Pending →
  store (react p m w) = <[p := {| kind := kind c; state := Fulfilled v |}]> (store w1) ∧
  bufferLOD_heap (react p m w) = bufferLOD_heap w1.
Proof.
  intros Hm Hc Hp. unfold react. rewrite Hm. rewrite (settle_run w1 p _ c) by done.
  rewrite Hp. done.
Qed.

(** From the read of a bucket to the future of one of its requests:
    the transport delivers the bytes of the bucket, the reaction to the
    read resolves the deferred of the bucket with them, and the reaction
    of the request cuts its view out of them. *)
Lemma read_serves w b bucket q r p offset len file data :
  bufferLOD_heap w !! b = Some bucket →
  store w !! loaded bucket = Some {| kind := KDeferred; state := Pending |} →
  store w !! q = Some {| kind := KExternal; state := Pending |} →
  store w !! r = Some {| kind := KThen q (CbBufferRead b); state := Pending |} →
  store w !! p = Some {| kind := KThen (loaded bucket) (CbBufferView b offset len);
                         state := Pending |} →
  fetched file (start bucket) (end_ bucket) data →
  (start bucket ≤ offset)%Z → (0 ≤ len)%Z → (offset + len - 1 ≤ end_ bucket)%Z →
  ∃ w' view,
    exec [ASettle q (Some (VView data)); ARun r; ARun p] w = Some w' ∧
    store w' !! p = Some {| kind := KThen (loaded bucket) (CbBufferView b offset len);
                            state := Fulfilled (VView view) |} ∧
    view_buffer view = view_buffer data ∧
    byteOffset view = (byteOffset data + (offset - start bucket))%Z ∧
    byteLength view = len ∧
    view_bytes view = take (Z.to_nat len) (drop (Z.to_nat offset) file).
Proof.
  intros Hheap Hd Hq Hr Hp Hfetched Hlo Hlen Hhi.
  set (d := loaded bucket) in *.
  assert (d ≠ q) as Hdq by (intros Heq; rewrite Heq, Hq in Hd; discriminate).
  assert (r ≠ q) as Hrq by (intros Heq; rewrite Heq, Hq in Hr; discriminate).
  assert (p ≠ q) as Hpq by (intros Heq; rewrite Heq, Hq in Hp; discriminate).
  assert (r ≠ d) as Hrd by (intros Heq; rewrite Heq, Hd in Hr; discriminate).
  assert (p ≠ d) as Hpd by (intros Heq; rewrite Heq, Hd in Hp; discriminate).
  assert (p ≠ r) as Hpr by (intros Heq; rewrite Heq, Hr in Hp; discriminate).
  (* the transport settles the read *)
  set (w1 := (settle q (Fulfilled (VView data)) w).2).
  assert (step (ASettle q (Some (VView data))) w = Some w1) as Hstep1.
  { simpl. by rewrite Hq. }
  assert (store w1 = <[q := {| kind := KExternal; state := Fulfilled (VView data) |}]> (store w)
          ∧ bufferLOD_heap w1 = bufferLOD_heap w) as [Hstore1 Hheap1].
  { unfold w1. by rewrite (settle_run w q _ _ Hq). }
  (* the reaction to the read resolves the deferred *)
  destruct (buffer_read_resolves w1 r b bucket (VView data)) as (w1' & Hcb2 & Hstore1' & Hheap1').
  { by rewrite Hheap1. }
  { rewrite Hstore1. by rewrite list_lookup_insert_ne. }
  set (w2 := react r (run_callback r (CbBufferRead b) (VView data)) w1).
  assert (step (ARun r) w1 = Some w2) as Hstep2.
  { simpl. apply (run_ready w1 r q (CbBufferRead b) (VView data)).
    - rewrite Hstore1. by rewrite list_lookup_insert_ne.
    - unfold cell_state. rewrite Hstore1, list_lookup_insert_eq by (by eapply lookup_lt_Some).
      done. }
  destruct (react_fulfils w1 r (run_callback r (CbBufferRead b) (VView data)) VUndefined w1'
              {| kind := KThen q (CbBufferRead b); state := Pending |})
    as [Hstore2 Hheap2]; [done| |done|].
  { rewrite Hstore1', Hstore1. by rewrite !list_lookup_insert_ne. }
  fold w2 in Hstore2, Hheap2. simpl in Hstore2.
  assert (store w2 !! p = Some {| kind := KThen d (CbBufferView b offset len);
                                 state := Pending |}) as Hp2.
  { rewrite Hstore2, Hstore1', Hstore1. by rewrite !list_lookup_insert_ne. }
  assert (cell_state w2 d = Some (Fulfilled (VView data))) as Hd2.
  { unfold cell_state. rewrite Hstore2, Hstore1'.
    rewrite list_lookup_insert_ne by done.
    rewrite list_lookup_insert_eq; [done|].
    rewrite Hstore1, length_insert. by eapply lookup_lt_Some. }
  (* the reaction of the request cuts its view *)
  destruct (buffer_view_slices file w2 b bucket data offset len)
    as (view & Hcb3 & Hbuf & Hoff & Hbl & Hbytes); try done.
  { by rewrite Hheap2, Hheap1', Hheap1. }
  set (w3 := react p (run_callback p (CbBufferView b offset len) (VView data)) w2).
  assert (step (ARun p) w2 = Some w3) as Hstep3.
  { simpl. by apply (run_ready w2 p d (CbBufferView b offset len) (VView data)). }
  destruct (react_fulfils w2 p (run_callback p (CbBufferView b offset len) (VView data))
              (VView view) w2
              {| kind := KThen d (CbBufferView b offset len); state := Pending |})
    as [Hstore3 _]; [|done|done|].
  { cbn [run_callback]. unfold fmap, M_fmap, mbind, M_bind. by rewrite Hcb3. }
  exists w3, view. split_and!; try done.
  - cbn [exec]. by rewrite Hstep1, Hstep2, Hstep3.
  - fold w3 in Hstore3. rewrite Hstore3. simpl.
    apply list_lookup_insert_eq. by eapply lookup_lt_Some.
Qed.

(** The turn of level 0 with a bucket at level 0, in full: the reaction
    to the load, then the read of the bucket and its reaction. *)
Lemma loadNodeAsync_after_level0_store w nodeLODs src firstPromise b bucket :
  range_ready w →
  js_get (_bufferLODs w) 0 = Some b → bufferLOD_heap w !! b = Some bucket →
  ∃ w', loadNodeAsync_after nodeLODs 0 src firstPromise w
          = (Ok (Some (length (store w))), w') ∧
    store w' = store w ++
      [{| kind := KThen src (CbNodeLOD nodeLODs 0); state := Pending |};
       {| kind := KExternal; state := Pending |};
       {| kind := KThen (S (length (store w))) (CbBufferRead b); state := Pending |}] ∧
    bufferLOD_heap w' = bufferLOD_heap w ∧ _bufferLODs w' = _bufferLODs w ∧
    read_ranges (trace w')
      = (start bucket, end_ bucket - start bucket + 1)%Z :: read_ranges (trace w).
Proof.
  intros Hready Hb Hbucket. unfold loadNodeAsync_after.
  erewrite (bind_run (new_promise _)) by reflexivity. simpl.
  set (w1 := set_trace _ _).
  destruct (loadBufferLOD_reads w1 0 b bucket)
    as (w2 & Hrun2 & Ht2 & Hstore2 & Hbufs2 & Hheap2 & _); try done.
  erewrite (bind_run (gets _ ≫= _)); last first.
  { erewrite (bind_run (gets _)) by reflexivity. cbv beta.
    apply js_get_lt in Hb. unfold w1 at 1. simpl.
    destruct (length (_bufferLODs w)) eqn:Hlen; [lia|]. simpl.
    rewrite (bind_run _ _ w1 tt w2) by done. reflexivity. }
  mrun. eexists. split; [reflexivity|]. simpl. rewrite Hstore2, Hheap2, Hbufs2, Ht2.
  unfold w1. simpl. rewrite length_app. simpl. rewrite Nat.add_1_r, <- app_assoc. done.
Qed.

Lemma loadBufferAsync_reads buffer offset len w :
  read_ranges (trace (loadBufferAsync buffer offset len w).2) = read_ranges (trace w).
Proof.
  unfold loadBufferAsync, read_bufferLOD, new_promise. mrun.
  repeat (case_match; simplify_eq; mrun; try done).
Qed.

Lemma requests_reads buffer reqs : ∀ w,
  read_ranges (trace (host (requests buffer reqs) w).2) = read_ranges (trace w).
Proof.
  induction reqs as [|[offset len] reqs IH]; intros w; simpl; [done|].
  pose proof (loadBufferAsync_reads buffer offset len w) as Hreads.
  unfold mbind, M_bind. destruct (loadBufferAsync buffer offset len w) as [[r|e] w1]; simpl in *.
  - by rewrite IH.
  - done.
Qed.


Lemma read_served w b bucket q r p offset len file data :
  bufferLOD_heap w !! b = Some bucket →
  store w !! loaded bucket = Some {| kind := KDeferred; state := Pending |} →
  store w !! q = Some {| kind := KExternal; state := Pending |} →
  store w !! r = Some {| kind := KThen q (CbBufferRead b); state := Pending |} →
  store w !! p = Some {| kind := KThen (loaded bucket) (CbBufferView b offset len);
                         state := Pending |} →
  fetched file (start bucket) (end_ bucket) data →
  (start bucket ≤ offset)%Z → (0 ≤ len)%Z → (offset + len - 1 ≤ end_ bucket)%Z →
  served w q r p file (start bucket) data offset len.
Proof.
  intros Hheap Hd Hq Hr Hp Hfetched Hlo Hlen Hhi.
  destruct (read_serves w b bucket q r p offset len file data)
    as (w' & view & Hexec & Hstore & Hview); try done.
  exists w', view. split; [done|]. split; [|done].
  unfold cell_state. by rewrite Hstore.
Qed.

(** The promises of [onReady]'s first loops come after those there
    are. *)
Lemma onReady_levels_store k count : ∀ first w,
  ∃ ext, store (for_range first count (onReady_level k) w).2 = store w ++ ext.
Proof.
  induction count as [|count IH]; intros first w; cbn [for_range].
  { exists []. by rewrite app_nil_r. }
  unfold mbind, M_bind. rewrite onReady_level_run. cbv zeta.
  destruct (_loader w).
  - destruct (IH (S first) (set_trace
        (EvNew (S (length (store w))) (KThen (length (store w)) (CbLevelLoaded k first))
         :: EvNew (length (store w)) (KAll (js_get (promiseLODs k w) first)) :: trace w)
        (set_store (store w ++ [{| kind := KAll (js_get (promiseLODs k w) first);
                                   state := Pending |};
                                {| kind := KThen (length (store w)) (CbLevelLoaded k first);
                                   state := Pending |}]) w))) as [ext Hext].
    rewrite Hext. simpl. rewrite <- app_assoc. eauto.
  - simpl. eauto.
Qed.

(** The last loop of [onReady], with the promises of each read. *)
Lemma for_range_reads_store count : ∀ first w,
  range_ready w →
  (∀ i, first ≤ i < first + count → is_Some (bucket_range w i)) →
  ∃ w' ext es, for_range first count _loadBufferLOD w = (Ok tt, w') ∧
    store w' = store w ++ ext ∧ trace w' = es ++ trace w ∧
    bufferLOD_heap w' = bufferLOD_heap w ∧
    ∀ i b bucket, first ≤ i < first + count →
      js_get (_bufferLODs w) i = Some b → bufferLOD_heap w !! b = Some bucket →
      ∃ q, store w' !! q = Some {| kind := KExternal; state := Pending |} ∧
           store w' !! S q = Some {| kind := KThen q (CbBufferRead b); state := Pending |} ∧
           EvReadAsync (start bucket) (end_ bucket - start bucket + 1) q ∈ es.
Proof.
  induction count as [|count IH]; intros first w Hready Hall; cbn [for_range].
  { exists w, [], []. split_and!; [done|by rewrite app_nil_r|done|done|lia]. }
  destruct (Hall first) as [r Hr]; [lia|].
  destruct (bucket_range_Some w first r Hr) as (b & bucket & Hb & Hbucket & ->).
  destruct (loadBufferLOD_reads w first b bucket)
    as (w1 & Hrun1 & Ht1 & Hstore1 & Hbufs1 & Hheap1 & Hl1 & _); try done.
  rewrite (bind_run _ _ w tt w1) by done.
  destruct (IH (S first) w1) as (w' & ext & es & Hrun & Hstore & Ht & Hheap & Hreads).
  { by eapply range_ready_fields. }
  { intros i Hi. rewrite (bucket_range_fields w w1) by done. apply Hall. lia. }
  exists w', ([{| kind := KExternal; state := Pending |};
                {| kind := KThen (length (store w)) (CbBufferRead b); state := Pending |}] ++ ext),
    (es ++ [EvNew (S (length (store w))) (KThen (length (store w)) (CbBufferRead b));
            EvReadAsync (start bucket) (end_ bucket - start bucket + 1) (length (store w));
            EvNew (length (store w)) KExternal]).
  split_and!.
  - done.
  - rewrite Hstore, Hstore1, <- app_assoc. done.
  - rewrite Ht, Ht1, <- app_assoc. done.
  - congruence.
  - intros i b' bucket' Hi Hb' Hbucket'. destruct (decide (i = first)) as [->|Hne].
    + rewrite Hb in Hb'. injection Hb' as <-. rewrite Hbucket in Hbucket'.
      injection Hbucket' as <-.
      exists (length (store w)). split_and!.
      * rewrite Hstore, Hstore1. rewrite lookup_app_l by (rewrite length_app; simpl; lia).
        by apply list_lookup_middle.
      * rewrite Hstore, Hstore1. rewrite lookup_app_l by (rewrite length_app; simpl; lia).
        rewrite lookup_app_r by lia. by replace (S (length (store w)) - length (store w)) with 1 by lia.
      * apply elem_of_app. right. right. left.
    + destruct (Hreads i b' bucket') as (q & Hq & Hq' & Hin); [lia|congruence|congruence|].
      exists q. split_and!; [done|done|]. apply elem_of_app. by left.
Qed.

(** [onReady] issues the read of each level from 1 on and keeps what
    there is of promises and buckets. *)
Lemma onReady_issues w level b bucket :
  range_ready w →
  (∀ i, 1 ≤ i < length (_bufferLODs w) → is_Some (bucket_range w i)) →
  1 ≤ level → js_get (_bufferLODs w) level = Some b → bufferLOD_heap w !! b = Some bucket →
  ∃ w' ext q, onReady w = (Ok tt, w') ∧
    store w' = store w ++ ext ∧ bufferLOD_heap w' = bufferLOD_heap w ∧
    store w' !! q = Some {| kind := KExternal; state := Pending |} ∧
    store w' !! S q = Some {| kind := KThen q (CbBufferRead b); state := Pending |} ∧
    EvReadAsync (start bucket) (end_ bucket - start bucket + 1) q ∈ trace w'.
Proof.
  intros Hready Hall Hlevel Hb Hbucket. destruct Hready as (loader & Hl & Hr & Hbin).
  unfold onReady. erewrite (bind_run (gets _)) by reflexivity. cbv beta.
  destruct (onReady_levels_run NodeLOD (length (_nodePromiseLODs w)) 0 w loader Hl)
    as (w1 & es1 & Hrun1 & Hsame1 & Ht1 & Hes1 & _).
  destruct (onReady_levels_store NodeLOD (length (_nodePromiseLODs w)) 0 w) as [ext1 Hext1].
  rewrite Hrun1 in Hext1. simpl in Hext1.
  rewrite (bind_run _ _ w tt w1) by done.
  erewrite (bind_run (gets _)) by reflexivity. cbv beta.
  destruct (onReady_levels_run MaterialLOD (length (_materialPromiseLODs w1)) 0 w1 loader)
    as (w2 & es2 & Hrun2 & Hsame2 & Ht2 & Hes2 & _).
  { by rewrite (same_fields_loader w w1). }
  destruct (onReady_levels_store MaterialLOD (length (_materialPromiseLODs w1)) 0 w1)
    as [ext2 Hext2].
  rewrite Hrun2 in Hext2. simpl in Hext2.
  rewrite (bind_run _ _ w1 tt w2) by done.
  erewrite (bind_run (gets _)) by reflexivity. cbv beta.
  assert (_bufferLODs w2 = _bufferLODs w) as Hbufs.
  { by rewrite (same_fields_bufferLODs w1 w2), (same_fields_bufferLODs w w1). }
  assert (bufferLOD_heap w2 = bufferLOD_heap w) as Hheap.
  { by rewrite (same_fields_heap w1 w2), (same_fields_heap w w1). }
  assert (_loader w2 = Some loader) as Hl2.
  { by rewrite (same_fields_loader w1 w2), (same_fields_loader w w1). }
  destruct (for_range_reads_store (length (_bufferLODs w2) - 1) 1 w2)
    as (w' & ext & es & Hrun & Hstore & Ht & Hheap' & Hreads).
  { by exists loader. }
  { intros i Hi. rewrite (bucket_range_fields w w2) by done. apply Hall.
    rewrite Hbufs in Hi. lia. }
  destruct (Hreads level b bucket) as (q & Hq & Hq' & Hin).
  { apply js_get_lt in Hb. rewrite Hbufs. lia. }
  { by rewrite Hbufs. }
  { by rewrite Hheap. }
  exists w', (ext1 ++ ext2 ++ ext), q. split_and!; try done.
  - rewrite Hstore, Hext2, Hext1. by rewrite <- !app_assoc.
  - congruence.
  - rewrite Ht. apply elem_of_app. by left.
Qed.

(** C5. The byte-range requests of one level, made before the read of
    the level is issued: the first creates a bucket that spans exactly
    [[offset, offset+length-1]]; each later one widens it to
    [[min(start, offset), max(end, offset+length-1)]]; every request's
    future is chained on the one deferred of the bucket, and the
    requests themselves read nothing. The read of the level is one read
    of the whole bucket, whichever way the level is read:
    [_loadBufferLOD] itself, the turn of level 0 of a LOD sequence for
    level 0, [onReady] for a level from 1 on. When the transport answers
    that read with the bytes of the bucket and the reactions run, the
    future of each request is fulfilled with the view of its bytes
    [[offset, offset+length)], cut out of the one buffer that was
    fetched at the request's offset relative to the start of the
    bucket. *)
Theorem range_coalescing w buffer (req0 : Z * Z) (reqs : list (Z * Z)) :
  range_ready w → uri_missing buffer = true →
  js_get (_bufferLODs w) (current_level w) = None →
  let indexLOD := current_level w in
  let d := length (store w) in
  let b := length (bufferLOD_heap w) in
  let first := {| start := req0.1; end_ := req0.1 + req0.2 - 1; loaded := d |} in
  let bucket := foldl widen first reqs in
  (∃ w0, loadBufferAsync buffer req0.1 req0.2 w = (Ok (Some (S d)), w0) ∧
     js_get (_bufferLODs w0) indexLOD = Some b ∧ bufferLOD_heap w0 !! b = Some first) ∧
  ∃ w1, host (requests buffer (req0 :: reqs)) w = (Ok tt, w1) ∧
    js_get (_bufferLODs w1) indexLOD = Some b ∧
    bufferLOD_heap w1 !! b = Some bucket ∧
    store w1 !! d = Some {| kind := KDeferred; state := Pending |} ∧
    (∀ i req, (req0 :: reqs) !! i = Some req →
       store w1 !! (S d + i)%nat =
         Some {| kind := KThen d (CbBufferView b req.1 req.2); state := Pending |}) ∧
    read_ranges (trace w1) = read_ranges (trace w) ∧
    (∃ w2, _loadBufferLOD indexLOD w1 = (Ok tt, w2) ∧
       let q := length (store w1) in
       trace w2 = EvNew (S q) (KThen q (CbBufferRead b))
                  :: EvReadAsync (start bucket) (end_ bucket - start bucket + 1) q
                  :: EvNew q KExternal :: trace w1 ∧
       ∀ file data i req,
         fetched file (start bucket) (end_ bucket) data →
         (req0 :: reqs) !! i = Some req → (0 ≤ req.2)%Z →
         served w2 q (S q) (S d + i) file (start bucket) data req.1 req.2) ∧
    (indexLOD = 0 → ∀ nodeLODs src firstPromise,
       ∃ w2, loadNodeAsync_after nodeLODs 0 src firstPromise w1
               = (Ok (Some (length (store w1))), w2) ∧
         let q := S (length (store w1)) in
         read_ranges (trace w2)
           = (start bucket, end_ bucket - start bucket + 1)%Z :: read_ranges (trace w1) ∧
         ∀ file data i req,
           fetched file (start bucket) (end_ bucket) data →
           (req0 :: reqs) !! i = Some req → (0 ≤ req.2)%Z →
           served w2 q (S q) (S d + i) file (start bucket) data req.1 req.2) ∧
    (1 ≤ indexLOD →
     (∀ i, 1 ≤ i < length (_bufferLODs w1) → is_Some (bucket_range w1 i)) →
       ∃ w2 q, onReady w1 = (Ok tt, w2) ∧
         EvReadAsync (start bucket) (end_ bucket - start bucket + 1) q ∈ trace w2 ∧
         ∀ file data i req,
           fetched file (start bucket) (end_ bucket) data →
           (req0 :: reqs) !! i = Some req → (0 ≤ req.2)%Z →
           served w2 q (S q) (S d + i) file (start bucket) data req.1 req.2).
Proof.
  intros Hready Hu Hnone indexLOD d b first bucket.
  destruct req0 as [offset len].
  destruct (loadBufferAsync_create w buffer offset len)
    as (w0 & Hrun0 & Hbufs0 & Hheap0 & Hstore0 & Hl0 & Hi0); try done.
  assert (js_get (_bufferLODs w0) indexLOD = Some b) as Hb0.
  { rewrite Hbufs0. apply js_get_set_eq. }
  assert (bufferLOD_heap w0 !! b = Some first) as Hfirst.
  { rewrite Hheap0. by apply list_lookup_middle. }
  split; [by exists w0|].
  destruct (requests_widen buffer reqs w0 b first)
    as (w1 & Hrun1 & Hbufs1 & Hheap1 & Hstore1 & Hl1 & Hi1); try done.
  { by eapply range_ready_fields. }
  { unfold current_level. by rewrite Hi0. }
  assert (bufferLOD_heap w1 !! b = Some bucket) as Hbucket.
  { rewrite Hheap1. apply list_lookup_insert_eq. by eapply lookup_lt_Some. }
  assert (js_get (_bufferLODs w1) indexLOD = Some b) as Hb1 by (by rewrite Hbufs1).
  assert (store w1 !! d = Some {| kind := KDeferred; state := Pending |}) as Hd1.
  { rewrite Hstore1, Hstore0. rewrite <- app_assoc. by apply list_lookup_middle. }
  assert (host (requests buffer ((offset, len) :: reqs)) w = (Ok tt, w1)) as Hhost.
  { simpl. mrun. rewrite Hrun0. mrun. by rewrite Hrun1. }
  assert (∀ i req, ((offset, len) :: reqs) !! i = Some req →
            store w1 !! (S d + i)%nat =
              Some {| kind := KThen d (CbBufferView b req.1 req.2); state := Pending |})
    as Hcells.
  { intros i req Hreq. rewrite Hstore1, Hstore0.
    destruct i as [|i]; simpl in Hreq.
    - injection Hreq as <-. rewrite Nat.add_0_r.
      rewrite lookup_app_l by (rewrite length_app; simpl; lia).
      rewrite lookup_app_r by lia. by replace (S d - length (store w))%nat with 1%nat by lia.
    - rewrite lookup_app_r by (rewrite length_app; simpl; lia).
      rewrite length_app. simpl.
      replace (S (d + S i) - (length (store w) + 2))%nat with i by (subst d; lia).
      rewrite list_lookup_fmap, Hreq. done. }
  assert (range_ready w1) as Hready1.
  { eapply range_ready_fields; [|done]. congruence. }
  assert (loaded bucket = d) as Hloaded.
  { unfold bucket. by rewrite foldl_widen_loaded. }
  assert (∀ req, req ∈ (offset, len) :: reqs →
            (start bucket ≤ req.1)%Z ∧ (req.1 + req.2 - 1 ≤ end_ bucket)%Z) as Hcovers.
  { intros req Hin. apply elem_of_cons in Hin as [->|Hin].
    - destruct (foldl_widen_grows reqs first). simpl in *. done.
    - by apply foldl_widen_covers. }
  (* whatever state the level is read in, if it extends [w1] *)
  assert (∀ w2 ext q file data i req,
            store w2 = store w1 ++ ext → bufferLOD_heap w2 !! b = Some bucket →
            store w2 !! q = Some {| kind := KExternal; state := Pending |} →
            store w2 !! S q = Some {| kind := KThen q (CbBufferRead b); state := Pending |} →
            fetched file (start bucket) (end_ bucket) data →
            ((offset, len) :: reqs) !! i = Some req → (0 ≤ req.2)%Z →
            served w2 q (S q) (S d + i) file (start bucket) data req.1 req.2) as Hserved.
  { intros w2 ext q file data i req Hstore2 Hheap2 Hq Hr Hfetched Hreq Hlen.
    destruct (Hcovers req) as [Hlo Hhi]; [by eapply list_elem_of_lookup_2|].
    apply (read_served w2 b bucket); try done.
    - rewrite Hloaded, Hstore2. rewrite lookup_app_l by (by eapply lookup_lt_Some). done.
    - rewrite Hloaded, Hstore2.
      rewrite lookup_app_l by (eapply lookup_lt_Some; by apply Hcells). by apply Hcells. }
  exists w1. split_and!; try done.
  - pose proof (requests_reads buffer ((offset, len) :: reqs) w) as Hr.
    by rewrite Hhost in Hr.
  - destruct (loadBufferLOD_reads w1 indexLOD b bucket)
      as (w2 & Hrun2 & Htrace2 & Hstore2 & Hbufs2 & Hheap2 & Hl2 & Hi2); try done.
    exists w2. split; [done|]. split; [done|].
    intros file data i req Hfetched Hreq Hlen.
    eapply Hserved; try done.
    + by rewrite Hheap2.
    + rewrite Hstore2. by apply list_lookup_middle.
    + rewrite Hstore2. rewrite lookup_app_r by lia.
      by replace (S (length (store w1)) - length (store w1)) with 1 by lia.
  - intros Hzero nodeLODs src fp.
    destruct (loadNodeAsync_after_level0_store w1 nodeLODs src fp b bucket)
      as (w2 & Hrun2 & Hstore2 & Hheap2 & _ & Hreads2); try done.
    { by rewrite <- Hzero. }
    exists w2. split; [done|]. split; [done|].
    intros file data i req Hfetched Hreq Hlen.
    eapply Hserved; try done.
    + by rewrite Hheap2.
    + rewrite Hstore2. rewrite lookup_app_r by lia.
      by replace (S (length (store w1)) - length (store w1)) with 1 by lia.
    + rewrite Hstore2. rewrite lookup_app_r by lia.
      by replace (S (S (length (store w1))) - length (store w1)) with 2 by lia.
  - intros Hlevel Hall.
    destruct (onReady_issues w1 indexLOD b bucket)
      as (w2 & ext & q & Hrun2 & Hstore2 & Hheap2 & Hq & Hr & Hin); try done.
    exists w2, q. split; [done|]. split; [done|].
    intros file data i req Hfetched Hreq Hlen.
    eapply Hserved; try done. by rewrite Hheap2.
Qed.




(** * The turns of a LOD sequence *)

(** What a read of a bucket that succeeds leaves of the promises. *)
Lemma loadBufferLOD_ok indexLOD w w' :
  _loadBufferLOD indexLOD w = (Ok tt, w') →
  (∃ ext, store w' = store w ++ ext) ∧ (∃ es, trace w' = es ++ trace w) ∧
  _nodePromiseLODs w' = _nodePromiseLODs w ∧
  _materialPromiseLODs w' = _materialPromiseLODs w.
Proof.
  unfold _loadBufferLOD, readAsync, read_bufferLOD, new_promise. mrun.
  repeat (case_match; simplify_eq; mrun; try done).
  intros [= <-]. simpl. split_and!; try done.
  - rewrite <- app_assoc. eauto.
  - eexists [_; _; _]. done.
Qed.

Lemma js_get_push_promise indexLOD promise (a : list (option (list nat))) :
  js_get (push_promise indexLOD promise a) indexLOD
    = Some (default [] (js_get a indexLOD) ++ [promise]).
Proof. unfold push_promise. apply js_get_set_eq. Qed.

(** The turn of a level of a node LOD sequence, from the promise [src]
    that the loader returned for the level: the reaction of the level is
    chained on [src] and kept with the promises of the level. *)
Lemma loadNodeAsync_after_registers nodeLODs indexLOD src firstPromise w r w' :
  loadNodeAsync_after nodeLODs indexLOD src firstPromise w = (Ok r, w') →
  store w' !! length (store w)
    = Some {| kind := KThen src (CbNodeLOD nodeLODs indexLOD); state := Pending |} ∧
  EvNew (length (store w)) (KThen src (CbNodeLOD nodeLODs indexLOD)) ∈ trace w' ∧
  (∃ l, js_get (_nodePromiseLODs w') indexLOD = Some (l ++ [length (store w)])) ∧
  r = match indexLOD with O => Some (length (store w)) | S _ => firstPromise end.
Proof.
  unfold loadNodeAsync_after. intros H.
  apply bind_ok in H as (promise & w1 & Hnew & H).
  unfold new_promise in Hnew. cbv zeta in Hnew. injection Hnew as <- <-.
  apply bind_ok in H as (fp & w2 & Hfp & H).
  revert H. mrun. intros [= <- <-]. simpl.
  destruct indexLOD as [|i]; simpl in Hfp.
  - apply bind_ok in Hfp as ([] & w3 & Hread & Hfp). injection Hfp as <- ->.
    assert ((∃ ext, store w2 = (store w ++ [{| kind := KThen src (CbNodeLOD nodeLODs 0);
                                               state := Pending |}]) ++ ext) ∧
            (∃ es, trace w2 = es ++ EvNew (length (store w)) (KThen src (CbNodeLOD nodeLODs 0))
                                    :: trace w) ∧
            _nodePromiseLODs w2 = _nodePromiseLODs w) as ([ext Hext] & [es Hes] & Hp).
    { revert Hread. unfold when. destruct (negb _).
      - intros Hread. apply loadBufferLOD_ok in Hread as (He & Ht & Hn & _). done.
      - intros [= <-]. simpl. split_and!; [exists []; by rewrite app_nil_r|by exists []|done]. }
    split_and!.
    + rewrite Hext, <- app_assoc. by apply list_lookup_middle.
    + rewrite Hes. apply elem_of_app. right. left.
    + rewrite js_get_push_promise. eauto.
    + done.
  - revert Hfp. mrun. intros [= <- <-]. simpl. split_and!.
    + by apply list_lookup_middle.
    + left.
    + rewrite js_get_push_promise. eauto.
    + done.
Qed.

Lemma loadMaterialAsync_after_registers materialLODs indexLOD babylonMesh babylonDrawMode
    src firstPromise w r w' :
  _loadMaterialAsync_after materialLODs indexLOD babylonMesh babylonDrawMode src
    firstPromise w = (Ok r, w') →
  store w' !! length (store w)
    = Some {| kind := KThen src (CbMaterialLOD materialLODs indexLOD babylonMesh
                                   babylonDrawMode);
              state := Pending |} ∧
  EvNew (length (store w))
    (KThen src (CbMaterialLOD materialLODs indexLOD babylonMesh babylonDrawMode))
    ∈ trace w' ∧
  (∃ l, js_get (_materialPromiseLODs w') indexLOD = Some (l ++ [length (store w)])) ∧
  r = match indexLOD with O => Some (length (store w)) | S _ => firstPromise end.
Proof.
  unfold _loadMaterialAsync_after. intros H.
  apply bind_ok in H as (promise & w1 & Hnew & H).
  unfold new_promise in Hnew. cbv zeta in Hnew. injection Hnew as <- <-.
  apply bind_ok in H as (fp & w2 & Hfp & H).
  revert H. mrun. intros [= <- <-]. simpl.
  destruct indexLOD as [|i]; simpl in Hfp.
  - apply bind_ok in Hfp as ([] & w3 & Hread & Hfp). injection Hfp as <- ->.
    assert ((∃ ext, store w2
               = (store w ++ [{| kind := KThen src (CbMaterialLOD materialLODs 0 babylonMesh
                                                      babylonDrawMode);
                                 state := Pending |}]) ++ ext) ∧
            (∃ es, trace w2
               = es ++ EvNew (length (store w))
                         (KThen src (CbMaterialLOD materialLODs 0 babylonMesh babylonDrawMode))
                       :: trace w) ∧
            _materialPromiseLODs w2 = _materialPromiseLODs w) as ([ext Hext] & [es Hes] & Hp).
    { revert Hread. unfold when. destruct (negb _).
      - intros Hread. apply loadBufferLOD_ok in Hread as (He & Ht & _ & Hn). done.
      - intros [= <-]. simpl. split_and!; [exists []; by rewrite app_nil_r|by exists []|done]. }
    split_and!.
    + rewrite Hext, <- app_assoc. by apply list_lookup_middle.
    + rewrite Hes. apply elem_of_app. right. left.
    + rewrite js_get_push_promise. eauto.
    + done.
  - revert Hfp. mrun. intros [= <- <-]. simpl. split_and!.
    + by apply list_lookup_middle.
    + left.
    + rewrite js_get_push_promise. eauto.
    + done.
Qed.

(** ** The reaction of a level is chained on the load of the level *)

Lemma tracks_ext {A} J P (m m' : M A) :
  (∀ w, m w = m' w) → tracks_with J P m' → tracks_with J P m.
Proof. intros Heq Hm w. rewrite Heq. apply Hm. Qed.

Lemma chained_or_new_Deferred d : tracks_with chained_on_load passive (or_new_Deferred d).
Proof. unfold or_new_Deferred. tracks_auto. Qed.

Lemma chained_readAsync offset len : tracks_with chained_on_load passive (readAsync offset len).
Proof. unfold readAsync. tracks_auto. Qed.

Lemma chained_loader_loadUriAsync uri :
  tracks_with chained_on_load passive (loader_loadUriAsync None uri).
Proof. unfold loader_loadUriAsync. tracks_auto. Qed.

Lemma chained_loadBufferLOD indexLOD :
  tracks_with chained_on_load passive (_loadBufferLOD indexLOD).
Proof.
  unfold _loadBufferLOD. tracks_auto;
    try apply tracks_the_loader; try apply tracks_read_bufferLOD.
  apply chained_readAsync.
Qed.

Lemma chained_loadBufferAsync buffer offset len :
  tracks_with chained_on_load passive (loadBufferAsync buffer offset len).
Proof.
  unfold loadBufferAsync. tracks_auto;
    try apply tracks_the_loader; try apply tracks_read_bufferLOD.
Qed.

Lemma chained_previous_signal k indexLOD :
  tracks_with chained_on_load passive (previous_signal k indexLOD).
Proof.
  unfold previous_signal. destruct k, indexLOD; tracks_auto;
    apply chained_or_new_Deferred.
Qed.

Lemma chained_loadUriAsync uri : tracks_with chained_on_load passive (_loadUriAsync uri).
Proof.
  unfold _loadUriAsync. tracks_auto;
    try apply tracks_loader_call; apply chained_previous_signal.
Qed.

Lemma chained_loader_loadNodeAsync body node assign :
  tracks_with chained_on_load passive body →
  (∀ n, tracks_with chained_on_load passive (assign n)) →
  tracks_with chained_on_load passive (loader_loadNodeAsync body node assign).
Proof.
  intros Hbody Hassign. unfold loader_loadNodeAsync. tracks_auto; try done.
  apply tracks_fresh_object.
Qed.

Lemma chained_loader_loadMaterialAsync body material babylonMesh babylonDrawMode assign :
  tracks_with chained_on_load passive body →
  (∀ m, tracks_with chained_on_load passive (assign m)) →
  tracks_with chained_on_load passive
    (loader_loadMaterialAsync body material babylonMesh babylonDrawMode assign).
Proof.
  intros Hbody Hassign. unfold loader_loadMaterialAsync. tracks_auto; try done.
  apply tracks_fresh_object.
Qed.

Lemma chained_loadNodeAsync_before indexLOD :
  tracks_with chained_on_load passive (loadNodeAsync_before indexLOD).
Proof.
  unfold loadNodeAsync_before. tracks_auto; try apply tracks_loader_call.
  apply chained_or_new_Deferred.
Qed.

Lemma chained_loadMaterialAsync_loop loader_loadMaterial materialLODs rest
    babylonMesh babylonDrawMode :
  (∀ material mesh drawMode assign, (∀ m, tracks_with chained_on_load passive (assign m)) →
     tracks_with chained_on_load passive (loader_loadMaterial material mesh drawMode assign)) →
  ∀ indexLOD firstPromise,
    tracks_with chained_on_load passive
      (_loadMaterialAsync_loop loader_loadMaterial materialLODs rest
         babylonMesh babylonDrawMode indexLOD firstPromise).
Proof.
  intros Hload. induction rest as [|materialLOD rest IH]; intros indexLOD firstPromise; simpl.
  - apply tracks_ret.
  - tracks_auto.
    + unfold _loadMaterialAsync_before. tracks_auto. apply tracks_loader_call.
    + apply Hload. intros m. tracks_auto. apply tracks_assign_material.
    + unfold _loadMaterialAsync_after. tracks_auto. apply chained_loadBufferLOD.
    + apply IH.
Qed.

Lemma chained_loadMaterialAsync loader_loadMaterial material babylonMesh babylonDrawMode :
  (∀ material mesh drawMode assign, (∀ m, tracks_with chained_on_load passive (assign m)) →
     tracks_with chained_on_load passive (loader_loadMaterial material mesh drawMode assign)) →
  tracks_with chained_on_load passive
    (_loadMaterialAsync loader_loadMaterial material babylonMesh babylonDrawMode).
Proof.
  intros Hload. unfold _loadMaterialAsync, LoadExtensionAsync. tracks_auto;
    try apply tracks_the_loader; try apply tracks_loader_call.
  by apply chained_loadMaterialAsync_loop.
Qed.

(** The end of the loader's load of a level and the start of the turn's
    [then]: the node is hidden, the promise of the load is created, and
    the reaction is chained on it. *)
Lemma chained_reaction n nodeLODs indexLOD :
  tracks_with chained_on_load passive
    (emit (EvSetEnabled None n false);;
     src ← new_promise KExternal;
     new_promise (KThen src (CbNodeLOD nodeLODs indexLOD))).
Proof.
  intros w.
  exists [EvNew (S (length (store w))) (KThen (length (store w)) (CbNodeLOD nodeLODs indexLOD));
          EvNew (length (store w)) KExternal; EvSetEnabled None n false].
  split_and!.
  - unfold emit, new_promise. mrun. simpl. by rewrite length_app, Nat.add_1_r.
  - repeat constructor; simpl; tauto.
  - unfold emit, new_promise. mrun. simpl.
    econstructor; [econstructor; [econstructor; [constructor|]|]|]; simpl; try done.
    split; [|done]. by rewrite length_app, Nat.add_1_r.
  - intros Hok. simpl. split_and!; eauto.
Qed.

(** One turn of the loop of [loadNodeAsync], from the call of the loader on. *)
Lemma chained_node_turn body node nodeLODs indexLOD firstPromise :
  tracks_with chained_on_load passive body →
  tracks_with chained_on_load passive
    (src ← loader_loadNodeAsync body node (λ n, emit (EvSetEnabled None n false));
     loadNodeAsync_after nodeLODs indexLOD src firstPromise).
Proof.
  intros Hbody.
  apply (tracks_ext _ _ _
    (babylonTransformNode ← fresh_object;
     modify (λ w, set_node_babylonTransformNode
       (<[node_index node := babylonTransformNode]> (node_babylonTransformNode w)) w);;
     body;;
     promise ← (emit (EvSetEnabled None babylonTransformNode false);;
                src ← new_promise KExternal;
                new_promise (KThen src (CbNodeLOD nodeLODs indexLOD)));
     firstPromise ←
       (if indexLOD =? 0 then
          n ← gets (λ w, length (_bufferLODs w));
          when (negb (n =? 0)) (_loadBufferLOD 0);;
          mret (Some promise)
        else
          modify (set_nodeIndexLOD None);;
          mret firstPromise);
     modify (set_indexLOD None);;
     modify (λ w, set_nodePromiseLODs (push_promise indexLOD promise (_nodePromiseLODs w)) w);;
     mret firstPromise)).
  - intros w. unfold loader_loadNodeAsync, loadNodeAsync_after, fresh_object, emit,
      new_promise, modify, mbind, M_bind. simpl.
    by destruct (body _) as [[[]|e] w1].
  - apply tracks_bind; [apply tracks_fresh_object|intros n].
    apply tracks_bind; [tracks_step|intros _].
    apply tracks_bind; [done|intros _].
    apply tracks_bind; [apply chained_reaction|intros promise].
    tracks_auto. apply chained_loadBufferLOD.
Qed.

Lemma chained_loadNodeAsync_loop body nodeLODs rest :
  (∀ i, tracks_with chained_on_load passive (body i)) →
  ∀ indexLOD firstPromise,
    tracks_with chained_on_load passive
      (loadNodeAsync_loop (λ n, loader_loadNodeAsync (body (node_index n)) n)
         nodeLODs rest indexLOD firstPromise).
Proof.
  intros Hbody. induction rest as [|nodeLOD rest IH]; intros indexLOD firstPromise; simpl.
  - apply tracks_ret.
  - apply (tracks_ext _ _ _
      (loadNodeAsync_before indexLOD;;
       firstPromise' ←
         (src ← loader_loadNodeAsync (body (node_index nodeLOD)) nodeLOD
                  (λ n, emit (EvSetEnabled None n false));
          loadNodeAsync_after nodeLODs indexLOD src firstPromise);
       loadNodeAsync_loop (λ n, loader_loadNodeAsync (body (node_index n)) n)
         nodeLODs rest (S indexLOD) firstPromise')).
    + intros w. unfold mbind, M_bind.
      destruct (loadNodeAsync_before indexLOD w) as [[[]|e] w1]; [|done].
      by destruct (loader_loadNodeAsync _ _ _ w1) as [[src|e] w2].
    + apply tracks_bind; [apply chained_loadNodeAsync_before|intros _].
      apply tracks_bind; [by apply chained_node_turn|intros firstPromise'].
      apply IH.
Qed.

Lemma chained_host s : tracks_with chained_on_load passive (host s).
Proof.
  induction s as [|buffer offset len next IH|uri next IH
                 |material babylonMesh babylonDrawMode inner IHinner next IH
                 |node inner IHinner next IH]; simpl.
  - apply tracks_ret.
  - tracks_auto; [apply chained_loadBufferAsync|done].
  - tracks_auto; [apply chained_loadUriAsync| |done].
    apply chained_loader_loadUriAsync.
  - tracks_auto; try done.
    + apply chained_loadMaterialAsync. intros m mesh drawMode assign Hassign.
      by apply chained_loader_loadMaterialAsync.
    + apply chained_loader_loadMaterialAsync; [done|].
      intros m. apply tracks_assign_material.
  - tracks_auto; try done.
    + unfold loadNodeAsync, LoadExtensionAsync. tracks_auto;
        try apply tracks_the_loader; try apply tracks_loader_call.
      by apply (chained_loadNodeAsync_loop (λ i, host (inner i))).
    + apply chained_loader_loadNodeAsync; [done|]. intros n. apply tracks_ret.
Qed.

(** What a reaction, a settlement, [onReady] and [dispose] add to the
    history: no reaction of a node level. *)
Lemma plain_run_callback p cb v : emits not_node_reaction (run_callback p cb v).
Proof.
  destruct cb; simpl.
  - unfold cb_level_loaded, resolve_signal. tracks_auto; try apply tracks_loader_call.
    by apply tracks_Deferred_settle.
  - unfold cb_node_lod, dispose_previous, enable_mesh. tracks_auto.
    by apply tracks_disposeUnusedMaterials.
  - unfold cb_material_lod. tracks_auto; apply tracks_assign_material.
  - unfold loader_loadUriAsync. tracks_auto. apply tracks_loader_call.
  - unfold cb_buffer_view. tracks_auto. apply tracks_read_bufferLOD.
  - tracks_auto; [apply tracks_read_bufferLOD|]. by apply tracks_Deferred_settle.
Qed.

Lemma plain_run_rejection cb handler :
  run_rejection cb = Some handler → emits not_node_reaction handler.
Proof.
  destruct cb; simpl; intros [= <-].
  tracks_auto; [apply tracks_read_bufferLOD|]. by apply tracks_Deferred_settle.
Qed.

Lemma plain_loadBufferLOD indexLOD : emits not_node_reaction (_loadBufferLOD indexLOD).
Proof.
  unfold _loadBufferLOD, readAsync. tracks_auto;
    try apply tracks_the_loader; try apply tracks_read_bufferLOD.
Qed.

Lemma plain_onReady : emits not_node_reaction onReady.
Proof.
  unfold onReady, onReady_level. tracks_auto;
    try apply tracks_loader_call; apply plain_loadBufferLOD.
Qed.

Lemma plain_dispose : emits not_node_reaction dispose.
Proof. unfold dispose. tracks_auto. by apply tracks_disposeUnusedMaterials. Qed.

Lemma plain_settle p s w :
  ∃ es, trace (settle p s w).2 = es ++ trace w ∧ Forall not_node_reaction es.
Proof.
  unfold settle. destruct (store w !! p) as [c|]; [|by exists []].
  destruct (settled (state c)); [by exists []|].
  exists [EvSettled p s]. split; [done|]. by repeat constructor.
Qed.

Lemma plain_adopt p q w :
  ∃ es, trace (adopt p q w).2 = es ++ trace w ∧ Forall not_node_reaction es.
Proof.
  unfold adopt. destruct (store w !! p) as [c|]; [|by exists []].
  destruct (state c); try (by exists []).
  exists [EvAdopted p q]. split; [done|]. by repeat constructor.
Qed.

Lemma plain_react p (m : M (Value + nat)) w :
  emits not_node_reaction m →
  ∃ es, trace (react p m w) = es ++ trace w ∧ Forall not_node_reaction es.
Proof.
  intros Hm. destruct (Hm w) as (es & Ht & Hes & _).
  unfold react. destruct (m w) as [[[v|q]|err] w1]; simpl in *.
  - destruct (plain_settle p (Fulfilled v) w1) as (es' & -> & Hes').
    exists (es' ++ es). rewrite Ht, app_assoc. split; [done|]. by apply Forall_app.
  - destruct (plain_adopt p q w1) as (es' & -> & Hes').
    exists (es' ++ es). rewrite Ht, app_assoc. split; [done|]. by apply Forall_app.
  - destruct (plain_settle p Rejected w1) as (es' & -> & Hes').
    exists (es' ++ es). rewrite Ht, app_assoc. split; [done|]. by apply Forall_app.
Qed.

Lemma plain_run p w w' :
  run p w = Some w' → ∃ es, trace w' = es ++ trace w ∧ Forall not_node_reaction es.
Proof.
  unfold run. destruct (store w !! p) as [c|]; [|done].
  destruct (state c) as [|q|v|]; try done.
  - destruct (kind c) as [| |src cb|[srcs|]]; try done.
    + destruct (cell_state w src) as [[|q|v|]|]; try done.
      * intros [= <-]. apply plain_react, plain_run_callback.
      * destruct (run_rejection cb) as [handler|] eqn:Hrej; intros [= <-].
        -- by eapply plain_react, plain_run_rejection.
        -- apply plain_settle.
    + destruct (existsb _ _); [intros [= <-]; apply plain_settle|].
      destruct (forallb _ _); [intros [= <-]; apply plain_settle|done].
    + intros [= <-]. apply plain_settle.
  - destruct (kind c); try done.
    destruct (cell_state w q) as [[|?|v|]|]; try done; intros [= <-]; apply plain_settle.
Qed.

Lemma chained_plain es t :
  Forall not_node_reaction es →
  history_ok_with chained_on_load t → history_ok_with chained_on_load (es ++ t).
Proof.
  intros Hes. apply history_ok_app. intros newer e older ->.
  apply Forall_app in Hes as [_ Hes]. apply Forall_cons in Hes as [He _].
  destruct e as [p [| |src []|]| | | | | | | |]; simpl in *; done.
Qed.

Lemma chained_step a w w' :
  step a w = Some w' →
  history_ok_with chained_on_load (trace w) → history_ok_with chained_on_load (trace w').
Proof.
  destruct a as [s| | |p outcome|p]; simpl.
  - intros [= <-]. destruct (chained_host s w) as (es & -> & _ & _ & Hok). done.
  - intros [= <-]. destruct (plain_onReady w) as (es & -> & Hes & _). by apply chained_plain.
  - intros [= <-]. destruct (plain_dispose w) as (es & -> & Hes & _). by apply chained_plain.
  - destruct (store w !! p) as [c|]; [|done].
    destruct (kind c); try done. destruct (state c); try done.
    intros [= <-].
    destruct (plain_settle p (match outcome with Some v => Fulfilled v | None => Rejected end) w)
      as (es & -> & Hes).
    by apply chained_plain.
  - intros Hrun. destruct (plain_run p w w' Hrun) as (es & -> & Hes). by apply chained_plain.
Qed.

Lemma chained_exec acts : ∀ w w',
  exec acts w = Some w' →
  history_ok_with chained_on_load (trace w) → history_ok_with chained_on_load (trace w').
Proof.
  induction acts as [|a acts IH]; simpl; intros w w'; [by intros [= <-]|].
  destruct (step a w) as [w1|] eqn:Hstep; [|done].
  intros Hexec Hok. eapply IH; [done|]. by eapply chained_step.
Qed.

(** ** The turns of the loops *)

Lemma the_loader_ok w loader w' :
  the_loader w = (Ok loader, w') → _loader w = Some loader ∧ w' = w.
Proof.
  unfold the_loader. mrun. destruct (_loader w); mrun; [|done]. by intros [= <- <-].
Qed.

Lemma loader_call_ok w w' : loader_call w = (Ok tt, w') → w' = w.
Proof.
  unfold loader_call. intros H. apply bind_ok in H as (loader & w1 & Hl & H).
  apply the_loader_ok in Hl as [_ ->]. by injection H as <-.
Qed.

Lemma loadNodeAsync_turn loader_loadNode nodeLODs indexLOD nodeLOD firstPromise w r w' :
  nodeLODs !! indexLOD = Some nodeLOD →
  loadNodeAsync_loop loader_loadNode nodeLODs (drop indexLOD nodeLODs) indexLOD
    firstPromise w = (Ok r, w') →
  ∃ w1 src w2 firstPromise' w3,
    loadNodeAsync_before indexLOD w = (Ok tt, w1) ∧
    loader_loadNode nodeLOD (λ n, emit (EvSetEnabled None n false)) w1 = (Ok src, w2) ∧
    loadNodeAsync_after nodeLODs indexLOD src firstPromise w2 = (Ok firstPromise', w3) ∧
    store w3 !! length (store w2)
      = Some {| kind := KThen src (CbNodeLOD nodeLODs indexLOD); state := Pending |} ∧
    EvNew (length (store w2)) (KThen src (CbNodeLOD nodeLODs indexLOD)) ∈ trace w3 ∧
    (∃ l, js_get (_nodePromiseLODs w3) indexLOD = Some (l ++ [length (store w2)])) ∧
    firstPromise'
      = match indexLOD with O => Some (length (store w2)) | S _ => firstPromise end ∧
    loadNodeAsync_loop loader_loadNode nodeLODs (drop (S indexLOD) nodeLODs) (S indexLOD)
      firstPromise' w3 = (Ok r, w').
Proof.
  intros Hlevel. rewrite (drop_S _ _ _ Hlevel). cbn [loadNodeAsync_loop]. intros H.
  apply bind_ok in H as ([] & w1 & Hbefore & H).
  apply bind_ok in H as (src & w2 & Hload & H).
  apply bind_ok in H as (fp' & w3 & Hafter & H).
  destruct (loadNodeAsync_after_registers _ _ _ _ _ _ _ Hafter) as (Hcell & Hnew & Hkept & Hfp).
  by exists w1, src, w2, fp', w3.
Qed.

Lemma loadMaterialAsync_turn loader_loadMaterial materialLODs indexLOD materialLOD
    babylonMesh babylonDrawMode firstPromise w r w' :
  materialLODs !! indexLOD = Some materialLOD →
  _loadMaterialAsync_loop loader_loadMaterial materialLODs (drop indexLOD materialLODs)
    babylonMesh babylonDrawMode indexLOD firstPromise w = (Ok r, w') →
  ∃ w1 src w2 firstPromise' w3,
    _loadMaterialAsync_before indexLOD w = (Ok tt, w1) ∧
    loader_loadMaterial materialLOD babylonMesh babylonDrawMode
      (λ babylonMaterial,
         when (indexLOD =? 0) (assign_material babylonMesh babylonMaterial)) w1
      = (Ok src, w2) ∧
    _loadMaterialAsync_after materialLODs indexLOD babylonMesh babylonDrawMode src
      firstPromise w2 = (Ok firstPromise', w3) ∧
    store w3 !! length (store w2)
      = Some {| kind := KThen src (CbMaterialLOD materialLODs indexLOD babylonMesh
                                     babylonDrawMode);
                state := Pending |} ∧
    EvNew (length (store w2))
      (KThen src (CbMaterialLOD materialLODs indexLOD babylonMesh babylonDrawMode))
      ∈ trace w3 ∧
    (∃ l, js_get (_materialPromiseLODs w3) indexLOD = Some (l ++ [length (store w2)])) ∧
    firstPromise'
      = match indexLOD with O => Some (length (store w2)) | S _ => firstPromise end ∧
    _loadMaterialAsync_loop loader_loadMaterial materialLODs (drop (S indexLOD) materialLODs)
      babylonMesh babylonDrawMode (S indexLOD) firstPromise' w3 = (Ok r, w').
Proof.
  intros Hlevel. rewrite (drop_S _ _ _ Hlevel). cbn [_loadMaterialAsync_loop]. intros H.
  apply bind_ok in H as ([] & w1 & Hbefore & H).
  apply bind_ok in H as (src & w2 & Hload & H).
  apply bind_ok in H as (fp' & w3 & Hafter & H).
  destruct (loadMaterialAsync_after_registers _ _ _ _ _ _ _ _ _ Hafter)
    as (Hcell & Hnew & Hkept & Hfp).
  by exists w1, src, w2, fp', w3.
Qed.

(** From level 1 on the loops leave the promise of the first level as it is. *)
Lemma loadNodeAsync_loop_keeps_first loader_loadNode nodeLODs rest :
  ∀ indexLOD firstPromise w r w',
    loadNodeAsync_loop loader_loadNode nodeLODs rest (S indexLOD) firstPromise w
      = (Ok r, w') →
    r = firstPromise.
Proof.
  induction rest as [|nodeLOD rest IH]; intros indexLOD fp w r w' H.
  - simpl in H. by injection H as <- _.
  - cbn [loadNodeAsync_loop] in H.
    apply bind_ok in H as ([] & w1 & _ & H).
    apply bind_ok in H as (src & w2 & _ & H).
    apply bind_ok in H as (fp' & w3 & Hafter & H).
    apply loadNodeAsync_after_registers in Hafter as (_ & _ & _ & ->).
    by eapply IH.
Qed.

Lemma loadMaterialAsync_loop_keeps_first loader_loadMaterial materialLODs babylonMesh
    babylonDrawMode rest :
  ∀ indexLOD firstPromise w r w',
    _loadMaterialAsync_loop loader_loadMaterial materialLODs rest babylonMesh
      babylonDrawMode (S indexLOD) firstPromise w = (Ok r, w') →
    r = firstPromise.
Proof.
  induction rest as [|materialLOD rest IH]; intros indexLOD fp w r w' H.
  - simpl in H. by injection H as <- _.
  - cbn [_loadMaterialAsync_loop] in H.
    apply bind_ok in H as ([] & w1 & _ & H).
    apply bind_ok in H as (src & w2 & _ & H).
    apply bind_ok in H as (fp' & w3 & Hafter & H).
    apply loadMaterialAsync_after_registers in Hafter as (_ & _ & _ & ->).
    by eapply IH.
Qed.

(** The hooks run their loops from level 0 on the list of [_getLODs]. *)
Lemma loadNodeAsync_enters loader_loadNode node ids w r w' :
  node_lod node = Some ids →
  loadNodeAsync loader_loadNode node w = (Ok r, w') →
  ∃ loader nodeLODs,
    _loader w = Some loader ∧
    _getLODs (maxLODsToLoad w) node (gltf_nodes loader) ids = Ok nodeLODs ∧
    loadNodeAsync_loop loader_loadNode nodeLODs (drop 0 nodeLODs) 0 None w = (Ok r, w').
Proof.
  intros Hids. unfold loadNodeAsync. rewrite Hids. simpl. intros H.
  apply bind_ok in H as (loader & w1 & Hl & H). apply the_loader_ok in Hl as [Hl ->].
  apply bind_ok in H as (maxLODs & w2 & Hmax & H). injection Hmax as <- <-.
  apply bind_ok in H as (nodeLODs & w3 & Hlods & H).
  unfold lift in Hlods. injection Hlods as Hlods <-.
  apply bind_ok in H as ([] & w4 & Hc & H). apply loader_call_ok in Hc as ->.
  apply bind_ok in H as (fp & w5 & Hloop & H).
  apply bind_ok in H as ([] & w6 & Hc & H). apply loader_call_ok in Hc as ->.
  injection H as <- <-. by exists loader, nodeLODs.
Qed.

Lemma loadMaterialAsync_enters loader_loadMaterial material babylonMesh babylonDrawMode
    ids w r w' :
  truthy (_indexLOD w) = false →
  material_lod material = Some ids →
  _loadMaterialAsync loader_loadMaterial material babylonMesh babylonDrawMode w
    = (Ok r, w') →
  ∃ loader materialLODs,
    _loader w = Some loader ∧
    _getLODs (maxLODsToLoad w) material (gltf_materials loader) ids = Ok materialLODs ∧
    _loadMaterialAsync_loop loader_loadMaterial materialLODs (drop 0 materialLODs)
      babylonMesh babylonDrawMode 0 None w = (Ok r, w').
Proof.
  intros Hi Hids. unfold _loadMaterialAsync.
  erewrite (bind_run (gets _)) by reflexivity. rewrite Hi, Hids. simpl. intros H.
  apply bind_ok in H as (loader & w1 & Hl & H). apply the_loader_ok in Hl as [Hl ->].
  apply bind_ok in H as (maxLODs & w2 & Hmax & H). injection Hmax as <- <-.
  apply bind_ok in H as (materialLODs & w3 & Hlods & H).
  unfold lift in Hlods. injection Hlods as Hlods <-.
  apply bind_ok in H as ([] & w4 & Hc & H). apply loader_call_ok in Hc as ->.
  apply bind_ok in H as (fp & w5 & Hloop & H).
  apply bind_ok in H as ([] & w6 & Hc & H). apply loader_call_ok in Hc as ->.
  injection H as <- <-. by exists loader, materialLODs.
Qed.

(** In a run, the reaction of a level of a node LOD sequence found in the
    past was created right after the promise it is chained on, which the
    loader created when it had hidden the node it built. *)
Lemma reaction_chained_on_load loader maxLODs acts w newer past p src nodeLODs i :
  run_from loader maxLODs acts w →
  trace w = newer ++ past →
  EvNew p (KThen src (CbNodeLOD nodeLODs i)) ∈ past →
  p = S src ∧
  ∃ mid m older,
    past = mid ++ EvNew p (KThen src (CbNodeLOD nodeLODs i))
                 :: EvNew src KExternal :: EvSetEnabled None m false :: older.
Proof.
  intros Hrun Htrace Hnew.
  assert (history_ok_with chained_on_load (trace w)) as Hok.
  { by apply (chained_exec acts (initial loader maxLODs) w Hrun). }
  apply list_elem_of_split in Hnew as (mid & past' & ->).
  rewrite Htrace, app_assoc in Hok. apply history_ok_split in Hok as (-> & m & older & ->).
  split; [done|]. by exists mid, m, older.
Qed.

(** C3. In every run, when the node of level [i] of a node LOD sequence
    is disposed, it is disposed by the reaction [p] to the load of level
    [i+1] of that sequence: [p] was created right after the promise [src]
    of that load, which the loader created when it had hidden the node it
    built; that load has been fulfilled before, and the reaction has not
    enabled the mesh of level [i+1] yet. A mesh the reaction enables is
    the one its load delivered. The reaction does both in this order: it
    disposes the node of level [i], then enables the mesh of level [i+1].
    The promise [src] is the one the loader returned for the node of the
    level: the turn of level [indexLOD] of the loop calls the loader on
    [nodeLODs[indexLOD]], chains the reaction of level [indexLOD] on the
    promise the loader returns and keeps it with the promises of that
    level, whatever the loader is; and [loadNodeAsync] runs these turns
    from level 0 on the list of [_getLODs]. *)
Theorem dispose_after_load_before_show :
  (∀ loader maxLODs acts w newer p node n past,
     run_from loader maxLODs acts w →
     trace w = newer ++ EvDisposeNode p node n :: past →
     (∃ src nodeLODs i v,
        EvNew p (KThen src (CbNodeLOD nodeLODs (S i))) ∈ past ∧
        nodeLODs !! i = Some node ∧
        EvSettled src (Fulfilled v) ∈ past ∧
        p = S src ∧
        ∃ mid m older,
          past = mid ++ EvNew p (KThen src (CbNodeLOD nodeLODs (S i)))
                       :: EvNew src KExternal :: EvSetEnabled None m false :: older) ∧
     ∀ n', EvSetEnabled (Some p) n' true ∉ past) ∧
  (∀ loader maxLODs acts w newer p n enabled past,
     run_from loader maxLODs acts w →
     trace w = newer ++ EvSetEnabled (Some p) n enabled :: past →
     enabled = true ∧
     ∃ src nodeLODs i,
       EvNew p (KThen src (CbNodeLOD nodeLODs i)) ∈ past ∧
       EvSettled src (Fulfilled (VNode n)) ∈ past ∧
       p = S src ∧
       ∃ mid m older,
         past = mid ++ EvNew p (KThen src (CbNodeLOD nodeLODs i))
                      :: EvNew src KExternal :: EvSetEnabled None m false :: older) ∧
  (∀ w p nodeLODs i node n m loader,
     _loader w = Some loader → nodeLODs !! i = Some node →
     node_babylonTransformNode w !! node_index node = Some n →
     ∃ es w', cb_node_lod p nodeLODs (S i) (VNode m) w = (Ok (VNode m), w') ∧
       Forall (quiet p) es ∧
       trace w' = EvSetEnabled (Some p) m true :: es ++ EvDisposeNode p node n :: trace w) ∧
  (∀ loader_loadNode nodeLODs indexLOD nodeLOD firstPromise w r w',
     nodeLODs !! indexLOD = Some nodeLOD →
     loadNodeAsync_loop loader_loadNode nodeLODs (drop indexLOD nodeLODs) indexLOD
       firstPromise w = (Ok r, w') →
     ∃ w1 src w2 firstPromise' w3,
       loadNodeAsync_before indexLOD w = (Ok tt, w1) ∧
       loader_loadNode nodeLOD (λ n, emit (EvSetEnabled None n false)) w1 = (Ok src, w2) ∧
       loadNodeAsync_after nodeLODs indexLOD src firstPromise w2 = (Ok firstPromise', w3) ∧
       store w3 !! length (store w2)
         = Some {| kind := KThen src (CbNodeLOD nodeLODs indexLOD); state := Pending |} ∧
       EvNew (length (store w2)) (KThen src (CbNodeLOD nodeLODs indexLOD)) ∈ trace w3 ∧
       (∃ l, js_get (_nodePromiseLODs w3) indexLOD = Some (l ++ [length (store w2)])) ∧
       firstPromise'
         = match indexLOD with O => Some (length (store w2)) | S _ => firstPromise end ∧
       loadNodeAsync_loop loader_loadNode nodeLODs (drop (S indexLOD) nodeLODs)
         (S indexLOD) firstPromise' w3 = (Ok r, w')) ∧
  (∀ loader_loadNode node ids w r w',
     node_lod node = Some ids →
     loadNodeAsync loader_loadNode node w = (Ok r, w') →
     ∃ loader nodeLODs,
       _loader w = Some loader ∧
       _getLODs (maxLODsToLoad w) node (gltf_nodes loader) ids = Ok nodeLODs ∧
       loadNodeAsync_loop loader_loadNode nodeLODs (drop 0 nodeLODs) 0 None w
         = (Ok r, w')).
Proof.
  split_and!.
  - intros loader maxLODs acts w newer p node n past Hrun Htrace.
    pose proof (consistent_exec acts _ w (consistent_initial loader maxLODs) Hrun) as Hw.
    pose proof (consistent_history w Hw) as Hok. rewrite Htrace in Hok.
    apply history_ok_split in Hok as [(src & nodeLODs & i & v & Hnew & Hlevel & Hsrc) Hfresh].
    split; [|done]. exists src, nodeLODs, i, v. split_and!; try done;
      eapply (reaction_chained_on_load _ _ _ _ (newer ++ [EvDisposeNode p node n]));
      try done; by rewrite <- app_assoc.
  - intros loader maxLODs acts w newer p n enabled past Hrun Htrace.
    pose proof (consistent_exec acts _ w (consistent_initial loader maxLODs) Hrun) as Hw.
    pose proof (consistent_history w Hw) as Hok. rewrite Htrace in Hok.
    apply history_ok_split in Hok as [-> (src & nodeLODs & i & Hnew & Hsrc)].
    split; [done|]. exists src, nodeLODs, i. split_and!; try done;
      eapply (reaction_chained_on_load _ _ _ _ (newer ++ [EvSetEnabled (Some p) n true]));
      try done; by rewrite <- app_assoc.
  - intros. by eapply node_lod_swaps.
  - intros. by eapply loadNodeAsync_turn.
  - intros. by eapply loadNodeAsync_enters.
Qed.

(** C6 (as the code has it). The guard of [_loadMaterialAsync] is
    [if (this._indexLOD)]: with the marker at a level from 1 on, the
    call returns [null] and changes nothing, so the loader loads the
    material as the single variant it names. With the marker at level 0,
    as with no marker, the guard lets the call through: for a material
    that declares LODs the call splits it. It runs the loop from level 0
    on the list of [_getLODs], which is not empty; the turn of each level
    calls the loader on the material of that level and chains the
    reaction of the level on the promise the loader returns; and the
    result is the reaction of level 0, not [null]: the turns from level
    1 on leave it as it is. *)
Theorem material_split_suppressed_above_level0
    (loader_loadMaterial : IMaterial → nat → nat → (nat → M unit) → M nat)
    (material : IMaterial) (babylonMesh babylonDrawMode : nat) (w : World) :
  (∀ i, _indexLOD w = Some (S i) →
     _loadMaterialAsync loader_loadMaterial material babylonMesh babylonDrawMode w
       = (Ok None, w)) ∧
  (∀ ids r w',
     _indexLOD w = None ∨ _indexLOD w = Some 0 →
     material_lod material = Some ids →
     _loadMaterialAsync loader_loadMaterial material babylonMesh babylonDrawMode w
       = (Ok r, w') →
     is_Some r) ∧
  (∀ ids r w',
     _indexLOD w = None ∨ _indexLOD w = Some 0 →
     material_lod material = Some ids →
     _loadMaterialAsync loader_loadMaterial material babylonMesh babylonDrawMode w
       = (Ok r, w') →
     ∃ loader materialLODs materialLOD w1 src w2 w3,
       _loader w = Some loader ∧
       _getLODs (maxLODsToLoad w) material (gltf_materials loader) ids = Ok materialLODs ∧
       materialLODs !! 0 = Some materialLOD ∧
       _loadMaterialAsync_before 0 w = (Ok tt, w1) ∧
       loader_loadMaterial materialLOD babylonMesh babylonDrawMode
         (assign_material babylonMesh) w1 = (Ok src, w2) ∧
       _loadMaterialAsync_after materialLODs 0 babylonMesh babylonDrawMode src None w2
         = (Ok (Some (length (store w2))), w3) ∧
       store w3 !! length (store w2)
         = Some {| kind := KThen src (CbMaterialLOD materialLODs 0 babylonMesh
                                        babylonDrawMode);
                   state := Pending |} ∧
       _loadMaterialAsync_loop loader_loadMaterial materialLODs (drop 1 materialLODs)
         babylonMesh babylonDrawMode 1 (Some (length (store w2))) w3 = (Ok r, w') ∧
       r = Some (length (store w2))) ∧
  (∀ materialLODs indexLOD materialLOD firstPromise w0 r w',
     materialLODs !! indexLOD = Some materialLOD →
     _loadMaterialAsync_loop loader_loadMaterial materialLODs (drop indexLOD materialLODs)
       babylonMesh babylonDrawMode indexLOD firstPromise w0 = (Ok r, w') →
     ∃ w1 src w2 firstPromise' w3,
       _loadMaterialAsync_before indexLOD w0 = (Ok tt, w1) ∧
       loader_loadMaterial materialLOD babylonMesh babylonDrawMode
         (λ babylonMaterial,
            when (indexLOD =? 0) (assign_material babylonMesh babylonMaterial)) w1
         = (Ok src, w2) ∧
       _loadMaterialAsync_after materialLODs indexLOD babylonMesh babylonDrawMode src
         firstPromise w2 = (Ok firstPromise', w3) ∧
       store w3 !! length (store w2)
         = Some {| kind := KThen src (CbMaterialLOD materialLODs indexLOD babylonMesh
                                        babylonDrawMode);
                   state := Pending |} ∧
       EvNew (length (store w2))
         (KThen src (CbMaterialLOD materialLODs indexLOD babylonMesh babylonDrawMode))
         ∈ trace w3 ∧
       (∃ l, js_get (_materialPromiseLODs w3) indexLOD
               = Some (l ++ [length (store w2)])) ∧
       firstPromise'
         = match indexLOD with O => Some (length (store w2)) | S _ => firstPromise end ∧
       _loadMaterialAsync_loop loader_loadMaterial materialLODs
         (drop (S indexLOD) materialLODs) babylonMesh babylonDrawMode (S indexLOD)
         firstPromise' w3 = (Ok r, w')).
Proof.
  assert (∀ ids r w',
     _indexLOD w = None ∨ _indexLOD w = Some 0 →
     material_lod material = Some ids →
     _loadMaterialAsync loader_loadMaterial material babylonMesh babylonDrawMode w
       = (Ok r, w') →
     ∃ loader materialLODs materialLOD w1 src w2 w3,
       _loader w = Some loader ∧
       _getLODs (maxLODsToLoad w) material (gltf_materials loader) ids = Ok materialLODs ∧
       materialLODs !! 0 = Some materialLOD ∧
       _loadMaterialAsync_before 0 w = (Ok tt, w1) ∧
       loader_loadMaterial materialLOD babylonMesh babylonDrawMode
         (assign_material babylonMesh) w1 = (Ok src, w2) ∧
       _loadMaterialAsync_after materialLODs 0 babylonMesh babylonDrawMode src None w2
         = (Ok (Some (length (store w2))), w3) ∧
       store w3 !! length (store w2)
         = Some {| kind := KThen src (CbMaterialLOD materialLODs 0 babylonMesh
                                        babylonDrawMode);
                   state := Pending |} ∧
       _loadMaterialAsync_loop loader_loadMaterial materialLODs (drop 1 materialLODs)
         babylonMesh babylonDrawMode 1 (Some (length (store w2))) w3 = (Ok r, w') ∧
       r = Some (length (store w2))) as Hsplit.
  { intros ids r w' Hi Hids Hcall.
    assert (truthy (_indexLOD w) = false) as Hguard by (by destruct Hi as [-> | ->]).
    destruct (loadMaterialAsync_enters _ _ _ _ _ _ _ _ Hguard Hids Hcall)
      as (loader & materialLODs & Hloader & Hlods & Hloop).
    destruct materialLODs as [|materialLOD rest] eqn:Hlist.
    { by apply getLODs_nonempty in Hlods. }
    rewrite <- Hlist in *.
    assert (materialLODs !! 0 = Some materialLOD) as Hfirst by (by rewrite Hlist).
    destruct (loadMaterialAsync_turn _ _ _ _ _ _ _ _ _ _ Hfirst Hloop)
      as (w1 & src & w2 & fp' & w3 & Hbefore & Hload & Hafter & Hcell & _ & _ & -> & Hrest).
    exists loader, materialLODs, materialLOD, w1, src, w2, w3.
    split_and!; try done.
    by eapply loadMaterialAsync_loop_keeps_first. }
  split_and!.
  - intros i Hi. unfold _loadMaterialAsync. mrun. by rewrite Hi.
  - intros ids r w' Hi Hids Hcall.
    destruct (Hsplit ids r w' Hi Hids Hcall) as (? & ? & ? & ? & ? & ? & ? & H).
    destruct H as (_ & _ & _ & _ & _ & _ & _ & _ & ->). eauto.
  - done.
  - intros. by eapply loadMaterialAsync_turn.
Qed.

(** * Futures, turns and splits on the sample assets *)

(** The requests (10, 5) then (0, 8) on a fresh extension: one bucket,
    [[0, 14]]; one read of it, and when the transport answers with the
    fifteen bytes the future of the first request has the bytes 10 to
    14. *)
Lemma range_coalescing_witness :
  ∃ w1, host (requests no_uri [(10, 5); (0, 8)]%Z) (initial node_asset 10) = (Ok tt, w1) ∧
    js_get (_bufferLODs w1) 0 = Some 0 ∧
    bufferLOD_heap w1 !! 0 = Some {| start := 0; end_ := 14; loaded := 0 |} ∧
    ∃ w2, _loadBufferLOD 0 w1 = (Ok tt, w2) ∧
      served w2 (length (store w1)) (S (length (store w1))) 1
        fifteen_bytes 0 bytes_0_to_14 10 5.
Proof.
  destruct (range_coalescing (initial node_asset 10) no_uri (10, 5)%Z [(0, 8)%Z])
    as [_ (w1 & Hrun & Hb & Hheap & _ & _ & _ & (w2 & Hread & _ & Hserved) & _)].
  - exists node_asset. by split_and!.
  - reflexivity.
  - reflexivity.
  - exists w1. split_and!; [exact Hrun|exact Hb|exact Hheap|].
    exists w2. split; [exact Hread|].
    apply (Hserved fifteen_bytes bytes_0_to_14 0 (10, 5)%Z).
    + unfold fetched. simpl. split_and!; try lia. reflexivity.
    + reflexivity.
    + simpl. lia.
Defined.

(** In [swap_run] the node of level 0 is disposed by the reaction to the
    load of level 1, which was created right after the promise of that
    load, and nothing was shown by that reaction before. And the turn of
    level 0 of the two levels of [plain_node] chains the reaction of the
    level on the promise the loader returns for node 1. *)
Lemma dispose_after_load_before_show_witness :
  run_from plain_asset 10 swap_run (outcome plain_asset swap_run) ∧
  ((∃ src nodeLODs i v,
      EvNew 4 (KThen src (CbNodeLOD nodeLODs (S i)))
        ∈ drop 3 (trace (outcome plain_asset swap_run)) ∧
      nodeLODs !! i = Some {| node_index := 1; node_lod := None |} ∧
      EvSettled src (Fulfilled v) ∈ drop 3 (trace (outcome plain_asset swap_run)) ∧
      4 = S src ∧
      ∃ mid m older,
        drop 3 (trace (outcome plain_asset swap_run))
          = mid ++ EvNew 4 (KThen src (CbNodeLOD nodeLODs (S i)))
                :: EvNew src KExternal :: EvSetEnabled None m false :: older) ∧
   ∀ n', EvSetEnabled (Some 4) n' true ∉ drop 3 (trace (outcome plain_asset swap_run))) ∧
  (let w := initial plain_asset 10 in
   let nodeLODs := [{| node_index := 1; node_lod := None |}; plain_node] in
   let w' := (loadNodeAsync_loop load_plain_node nodeLODs nodeLODs 0 None w).2 in
   loadNodeAsync_loop load_plain_node nodeLODs nodeLODs 0 None w = (Ok (Some 1), w') ∧
   ∃ w1 src w2 firstPromise' w3,
     loadNodeAsync_before 0 w = (Ok tt, w1) ∧
     load_plain_node {| node_index := 1; node_lod := None |}
       (λ n, emit (EvSetEnabled None n false)) w1 = (Ok src, w2) ∧
     loadNodeAsync_after nodeLODs 0 src None w2 = (Ok firstPromise', w3) ∧
     store w3 !! length (store w2)
       = Some {| kind := KThen src (CbNodeLOD nodeLODs 0); state := Pending |} ∧
     EvNew (length (store w2)) (KThen src (CbNodeLOD nodeLODs 0)) ∈ trace w3 ∧
     (∃ l, js_get (_nodePromiseLODs w3) 0 = Some (l ++ [length (store w2)])) ∧
     firstPromise' = Some (length (store w2)) ∧
     loadNodeAsync_loop load_plain_node nodeLODs (drop 1 nodeLODs) 1 firstPromise' w3
       = (Ok (Some 1), w')).
Proof.
  split; [vm_compute; reflexivity|split].
  - apply (proj1 dispose_after_load_before_show plain_asset 10%Z swap_run
             (outcome plain_asset swap_run)
             (take 2 (trace (outcome plain_asset swap_run))) 4
             {| node_index := 1; node_lod := None |} 0).
    + vm_compute; reflexivity.
    + vm_compute; reflexivity.
  - cbv zeta. split; [vm_compute; reflexivity|].
    apply (proj1 (proj2 (proj2 (proj2 dispose_after_load_before_show))) load_plain_node
             [{| node_index := 1; node_lod := None |}; plain_node] 0
             {| node_index := 1; node_lod := None |} None (initial plain_asset 10) (Some 1)
             (loadNodeAsync_loop load_plain_node
                [{| node_index := 1; node_lod := None |}; plain_node]
                [{| node_index := 1; node_lod := None |}; plain_node] 0 None
                (initial plain_asset 10)).2).
    + reflexivity.
    + vm_compute; reflexivity.
Defined.

(** With the marker at level 1 the material with LODs is not split; on a
    fresh extension it is, and the result is the reaction to the load of
    its level 0. *)
Lemma material_split_suppressed_above_level0_witness :
  (let w := (loadNodeAsync_before 1 (initial plain_asset 10)).2 in
   _indexLOD w = Some 1 ∧
   _loadMaterialAsync load_plain_material fine_material 0 0 w = (Ok None, w)) ∧
  (let w := initial plain_asset 10 in
   let w' := (_loadMaterialAsync load_plain_material fine_material 0 0 w).2 in
   _loadMaterialAsync load_plain_material fine_material 0 0 w = (Ok (Some 1), w') ∧
   ∃ loader materialLODs materialLOD w1 src w2 w3,
     _loader w = Some loader ∧
     _getLODs (maxLODsToLoad w) fine_material (gltf_materials loader) [0%Z]
       = Ok materialLODs ∧
     materialLODs !! 0 = Some materialLOD ∧
     _loadMaterialAsync_before 0 w = (Ok tt, w1) ∧
     load_plain_material materialLOD 0 0 (assign_material 0) w1 = (Ok src, w2) ∧
     _loadMaterialAsync_after materialLODs 0 0 0 src None w2
       = (Ok (Some (length (store w2))), w3) ∧
     store w3 !! length (store w2)
       = Some {| kind := KThen src (CbMaterialLOD materialLODs 0 0 0); state := Pending |} ∧
     _loadMaterialAsync_loop load_plain_material materialLODs (drop 1 materialLODs)
       0 0 1 (Some (length (store w2))) w3 = (Ok (Some 1), w') ∧
     Some 1 = Some (length (store w2))).
Proof.
  split.
  - split; [reflexivity|].
    by apply (proj1 (material_split_suppressed_above_level0 load_plain_material fine_material
                       0 0 (loadNodeAsync_before 1 (initial plain_asset 10)).2) 0).
  - cbv zeta. split; [vm_compute; reflexivity|].
    apply (proj1 (proj2 (proj2 (material_split_suppressed_above_level0 load_plain_material
                                  fine_material 0 0 (initial plain_asset 10))))
             [0%Z] (Some 1)
             (_loadMaterialAsync load_plain_material fine_material 0 0
                (initial plain_asset 10)).2).
    + by left.
    + reflexivity.
    + vm_compute; reflexivity.
Defined.


(** * More on the LOD list *)

Lemma getLODs_loop_bad_id {T} C (property : T) array good : ∀ acc id rest,
  (Z.of_nat (length acc + length good) < C)%Z →
  (∀ i, i ∈ good → ∃ x, resolves array i x) →
  ArrayItem_Get array id = Throw (ErrArrayItem id) →
  getLODs_loop C property array (good ++ id :: rest) acc = Throw (ErrArrayItem id).
Proof.
  induction good as [|g good IH]; intros acc id rest Hlen Hgood Hbad; simpl.
  - by rewrite Hbad.
  - destruct (Hgood g) as [x Hx]; [left|]. unfold resolves in Hx. rewrite Hx.
    simpl in Hlen. rewrite length_app. simpl.
    destruct (Z.eqb_spec (Z.of_nat (length acc + 1)) C) as [?|_]; [lia|].
    apply IH; [rewrite length_app; simpl; lia| |done].
    intros i Hi. apply Hgood. by right.
Qed.

Lemma ArrayItem_Get_error {T} (array : option (list T)) id :
  (∀ x, ¬ resolves array id x) → ArrayItem_Get array id = Throw (ErrArrayItem id).
Proof.
  unfold resolves, ArrayItem_Get. intros Hno.
  destruct array as [a|]; [|done]. destruct (id <? 0)%Z; [done|].
  destruct (a !! Z.to_nat id) as [x|] eqn:Hx; [|done]. by destruct (Hno x).
Qed.

(** [_getLODs] refuses a cap that is not positive, whatever the ids;
    under a positive cap it resolves the ids from the last one back and
    throws at the first that names no item of the array, provided the
    cap has not been reached before it. *)
Theorem getLODs_errors {T} (C : Z) (property : T) (array : option (list T)) (ids : list Z) :
  ((C ≤ 0)%Z → _getLODs C property array ids = Throw ErrMaxLODs) ∧
  (∀ before id after,
     (1 ≤ C)%Z → ids = before ++ id :: after →
     (Z.of_nat (length after) < C)%Z →
     (∀ i, i ∈ after → ∃ x, resolves array i x) →
     (∀ x, ¬ resolves array id x) →
     _getLODs C property array ids = Throw (ErrArrayItem id)).
Proof.
  split.
  - intros HC. unfold _getLODs. by destruct (Z.leb_spec C 0); [|lia].
  - intros before id after HC -> Hlen Hgood Hbad. unfold _getLODs.
    destruct (Z.leb_spec C 0); [lia|].
    rewrite reverse_app, reverse_cons, <- app_assoc. simpl.
    apply getLODs_loop_bad_id.
    + simpl. by rewrite length_reverse.
    + intros i Hi. apply Hgood. by apply elem_of_reverse.
    + by apply ArrayItem_Get_error.
Qed.

Lemma getLODs_errors_witness :
  _getLODs 0 7%nat (Some [3; 4; 5]%nat) [1; 2]%Z = Throw ErrMaxLODs ∧
  _getLODs 10 7%nat (Some [3; 4; 5]%nat) [1; 9; 2]%Z = Throw (ErrArrayItem 9).
Proof.
  split.
  - apply (proj1 (getLODs_errors 0 7%nat (Some [3; 4; 5]%nat) [1; 2]%Z)). lia.
  - apply (proj2 (getLODs_errors 10 7%nat (Some [3; 4; 5]%nat) [1; 9; 2]%Z) [1%Z] 9%Z [2%Z]).
    + lia.
    + reflexivity.
    + simpl. lia.
    + intros i Hi. apply list_elem_of_singleton in Hi as ->. by exists 5%nat.
    + intros x. unfold resolves. simpl. discriminate.
Defined.

Lemma getLODs_loop_cut {T} C (property : T) array rids extra : ∀ acc,
  (Z.of_nat (length acc) < C)%Z → (C ≤ Z.of_nat (length acc + length rids))%Z →
  getLODs_loop C property array (rids ++ extra) acc
    = getLODs_loop C property array rids acc.
Proof.
  induction rids as [|id rids IH]; intros acc Hlt Hge; simpl in *; [lia|].
  destruct (ArrayItem_Get array id) as [item|e]; [|done].
  rewrite length_app. simpl.
  destruct (Z.eqb_spec (Z.of_nat (length acc + 1)) C) as [?|?]; [done|].
  apply IH; rewrite length_app; simpl; lia.
Qed.

(** Under a cap [C] only the last [C] ids count: the ids declared before
    them are never looked at, so they change nothing, whether they name
    an item of the array or not. *)
Theorem getLODs_ignores_beyond_cap {T} (C : Z) (property : T) (array : option (list T))
    (before ids : list Z) :
  (1 ≤ C)%Z → (C ≤ Z.of_nat (length ids))%Z →
  _getLODs C property array (before ++ ids) = _getLODs C property array ids.
Proof.
  intros HC Hlen. unfold _getLODs. destruct (Z.leb_spec C 0); [lia|].
  rewrite reverse_app. apply getLODs_loop_cut; simpl; [lia|].
  by rewrite length_reverse.
Qed.

Lemma getLODs_ignores_beyond_cap_witness :
  _getLODs 2 7%nat (Some [3; 4; 5]%nat) ([9; -1] ++ [1; 2])%Z = Ok [5; 4]%nat.
Proof.
  rewrite (getLODs_ignores_beyond_cap 2 7%nat (Some [3; 4; 5]%nat) [9; -1]%Z [1; 2]%Z).
  - reflexivity.
  - lia.
  - simpl. lia.
Defined.

(** An error of the LOD list ends [loadNodeAsync] and
    [_loadMaterialAsync] before they touch anything: no marker is set,
    no promise is made, the loader is not asked for any level. *)
Theorem lod_list_error_changes_nothing :
  (∀ loader_loadNode node w loader ids e,
     _loader w = Some loader → node_lod node = Some ids →
     _getLODs (maxLODsToLoad w) node (gltf_nodes loader) ids = Throw e →
     loadNodeAsync loader_loadNode node w = (Throw e, w)) ∧
  (∀ loader_loadMaterial material babylonMesh babylonDrawMode w loader ids e,
     _loader w = Some loader → material_lod material = Some ids →
     truthy (_indexLOD w) = false →
     _getLODs (maxLODsToLoad w) material (gltf_materials loader) ids = Throw e →
     _loadMaterialAsync loader_loadMaterial material babylonMesh babylonDrawMode w
       = (Throw e, w)).
Proof.
  split.
  - intros load node w loader ids e Hl Hids Hget.
    unfold loadNodeAsync. rewrite Hids. simpl. mrun. rewrite Hl. mrun. by rewrite Hget.
  - intros load material mesh drawMode w loader ids e Hl Hids Hi Hget.
    unfold _loadMaterialAsync. mrun. rewrite Hi, Hids. simpl. mrun. rewrite Hl. mrun.
    by rewrite Hget.
Qed.

(** * More on the byte-range buckets *)

Lemma foldl_widen_attained reqs : ∀ bucket,
  (start (foldl widen bucket reqs) = start bucket ∨
   ∃ req, req ∈ reqs ∧ start (foldl widen bucket reqs) = req.1) ∧
  (end_ (foldl widen bucket reqs) = end_ bucket ∨
   ∃ req, req ∈ reqs ∧ end_ (foldl widen bucket reqs) = (req.1 + req.2 - 1)%Z).
Proof.
  induction reqs as [|req reqs IH]; intros bucket; simpl; [by split; left|].
  destruct (IH (widen bucket req)) as [Hs He]. simpl in Hs, He. split.
  - destruct Hs as [Hs|(r & Hr & Hs)].
    + rewrite Hs. destruct (Z.min_spec (start bucket) req.1) as [[_ ->]|[_ ->]]; [by left|].
      right. exists req. split; [left|done].
    + right. exists r. split; [by right|done].
  - destruct He as [He|(r & Hr & He)].
    + rewrite He.
      destruct (Z.max_spec (end_ bucket) (req.1 + req.2 - 1)) as [[_ ->]|[_ ->]]; [|by left].
      right. exists req. split; [left|done].
    + right. exists r. split; [by right|done].
Qed.

(** The requests that make the bucket of a level and fill it. *)
Lemma requests_fill w buffer (req0 : Z * Z) (reqs : list (Z * Z)) :
  range_ready w → uri_missing buffer = true →
  js_get (_bufferLODs w) (current_level w) = None →
  ∃ w1, host (requests buffer (req0 :: reqs)) w = (Ok tt, w1) ∧
    _bufferLODs w1 = js_set (current_level w) (length (bufferLOD_heap w)) (_bufferLODs w) ∧
    bufferLOD_heap w1 !! length (bufferLOD_heap w)
      = Some (foldl widen {| start := req0.1; end_ := req0.1 + req0.2 - 1;
                             loaded := length (store w) |} reqs) ∧
    _loader w1 = _loader w.
Proof.
  intros Hready Hu Hnone. destruct req0 as [offset len].
  set (first := {| start := offset; end_ := offset + len - 1; loaded := length (store w) |}).
  destruct (loadBufferAsync_create w buffer offset len)
    as (w0 & Hrun0 & Hbufs0 & Hheap0 & Hstore0 & Hl0 & Hi0); try done.
  destruct (requests_widen buffer reqs w0 (length (bufferLOD_heap w)) first)
    as (w1 & Hrun1 & Hbufs1 & Hheap1 & Hstore1 & Hl1 & Hi1); try done.
  { by eapply range_ready_fields. }
  { unfold current_level. rewrite Hi0, Hbufs0. apply js_get_set_eq. }
  { rewrite Hheap0. by apply list_lookup_middle. }
  exists w1. split_and!.
  - simpl. mrun. rewrite Hrun0. mrun. by rewrite Hrun1.
  - by rewrite Hbufs1, Hbufs0.
  - rewrite Hheap1. apply list_lookup_insert_eq. rewrite Hheap0, length_app. simpl. lia.
  - by rewrite Hl1, Hl0.
Qed.

(** The bucket of a level is the hull of its requests, whatever their
    order: it starts at the lowest first byte asked for and ends at the
    highest last byte, so the one read of the level fetches no byte
    below or above what was asked. *)
Theorem bucket_is_hull w buffer (req0 : Z * Z) (reqs : list (Z * Z)) :
  range_ready w → uri_missing buffer = true →
  js_get (_bufferLODs w) (current_level w) = None →
  ∃ w1 b bucket,
    host (requests buffer (req0 :: reqs)) w = (Ok tt, w1) ∧
    js_get (_bufferLODs w1) (current_level w) = Some b ∧
    bufferLOD_heap w1 !! b = Some bucket ∧
    (∀ req, req ∈ req0 :: reqs →
       (start bucket ≤ req.1)%Z ∧ (req.1 + req.2 - 1 ≤ end_ bucket)%Z) ∧
    (∃ req, req ∈ req0 :: reqs ∧ start bucket = req.1) ∧
    (∃ req, req ∈ req0 :: reqs ∧ end_ bucket = (req.1 + req.2 - 1)%Z).
Proof.
  intros Hready Hu Hnone.
  destruct (requests_fill w buffer req0 reqs) as (w1 & Hrun & Hbufs & Hheap & _); try done.
  set (first := {| start := req0.1; end_ := req0.1 + req0.2 - 1;
                   loaded := length (store w) |}) in *.
  exists w1, (length (bufferLOD_heap w)), (foldl widen first reqs). split_and!.
  - done.
  - rewrite Hbufs. apply js_get_set_eq.
  - done.
  - intros req Hin. apply elem_of_cons in Hin as [->|Hin].
    + destruct (foldl_widen_grows reqs first). simpl in *. lia.
    + by apply foldl_widen_covers.
  - destruct (foldl_widen_attained reqs first) as [[Hs|(r & Hr & Hs)] _].
    + exists req0. split; [left|done].
    + exists r. split; [by right|done].
  - destruct (foldl_widen_attained reqs first) as [_ [He|(r & Hr & He)]].
    + exists req0. split; [left|done].
    + exists r. split; [by right|done].
Qed.

(** A request is filed under the level of the marker and changes no
    other level: what the other levels will read stays as it was. The
    array of buckets grows to hold the level, leaving holes below it. *)
Theorem request_touches_one_level w buffer offset len :
  range_ready w → uri_missing buffer = true →
  (∀ j b, js_get (_bufferLODs w) j = Some b → is_Some (bufferLOD_heap w !! b)) →
  (∀ j j' b, js_get (_bufferLODs w) j = Some b → js_get (_bufferLODs w) j' = Some b → j = j') →
  ∃ p w', loadBufferAsync buffer offset len w = (Ok (Some p), w') ∧
    (∀ j, j ≠ current_level w → bucket_range w' j = bucket_range w j) ∧
    length (_bufferLODs w') = length (_bufferLODs w) `max` S (current_level w).
Proof.
  intros Hready Hu Hwf Hinj.
  destruct (js_get (_bufferLODs w) (current_level w)) as [b|] eqn:Hb.
  - destruct (Hwf _ _ Hb) as [bucket Hbucket].
    destruct (loadBufferAsync_widen w buffer offset len b bucket)
      as (w' & Hrun & Hbufs & Hheap & _); try done.
    exists (length (store w)), w'. split_and!; [done| |].
    + intros j Hj. unfold bucket_range. rewrite Hbufs, Hheap.
      destruct (js_get (_bufferLODs w) j) as [b'|] eqn:Hb'; simpl; [|done].
      rewrite list_lookup_insert_ne; [done|]. intros ->. by destruct (Hj (Hinj _ _ _ Hb' Hb)).
    + rewrite Hbufs. apply js_get_lt in Hb. lia.
  - destruct (loadBufferAsync_create w buffer offset len)
      as (w' & Hrun & Hbufs & Hheap & _); try done.
    exists (S (length (store w))), w'. split_and!; [done| |].
    + intros j Hj. unfold bucket_range. rewrite Hbufs, Hheap.
      rewrite js_get_set_ne by done.
      destruct (js_get (_bufferLODs w) j) as [b'|] eqn:Hb'; simpl; [|done].
      destruct (Hwf _ _ Hb') as [bucket Hbucket].
      rewrite lookup_app_l by (by eapply lookup_lt_Some). done.
    + rewrite Hbufs. unfold js_set. case_decide.
      * rewrite length_insert. lia.
      * rewrite !length_app, length_replicate. simpl. lia.
Qed.

(** * Levels without a bucket *)

Lemma loadBufferLOD_missing w indexLOD :
  js_get (_bufferLODs w) indexLOD = None →
  _loadBufferLOD indexLOD w = (Throw TypeError, w).
Proof.
  intros Hnone. unfold _loadBufferLOD. mrun. rewrite Hnone.
  destruct (_loader w) as [loader|]; mrun; [|done]. by destruct (bin loader).
Qed.

Lemma for_range_app (body : nat → M unit) a : ∀ first b w,
  for_range first (a + b) body w
    = (for_range first a body;; for_range (first + a) b body) w.
Proof.
  induction a as [|a IH]; intros first b w; simpl.
  - by rewrite Nat.add_0_r.
  - replace (first + S a) with (S first + a) by lia.
    unfold mbind, M_bind in *. destruct (body first w) as [[[]|e] w1]; [|done].
    apply IH.
Qed.

(** The reads of a range of levels, up to the first level without a
    bucket. *)
Lemma for_range_reads_until count rest first w :
  range_ready w →
  (∀ i, first ≤ i < first + count → is_Some (bucket_range w i)) →
  js_get (_bufferLODs w) (first + count) = None →
  ∃ w', for_range first (count + S rest) _loadBufferLOD w = (Throw TypeError, w') ∧
    read_ranges (trace w')
      = reverse (omap (bucket_range w) (seq first count)) ++ read_ranges (trace w).
Proof.
  intros Hready Hall Hnone.
  destruct (for_range_reads count first w Hready Hall) as (w1 & Hrun1 & Hreads & Hbufs & _).
  exists w1. split; [|done].
  rewrite for_range_app. rewrite (bind_run _ _ w tt w1) by done.
  cbn [for_range]. apply bind_throw. apply loadBufferLOD_missing. by rewrite Hbufs.
Qed.

(** [onReady] up to its last loop. *)
Lemma onReady_to_reads w loader :
  _loader w = Some loader →
  ∃ w2 es, onReady w = for_range 1 (length (_bufferLODs w) - 1) _loadBufferLOD w2 ∧
    _bufferLODs w2 = _bufferLODs w ∧ bufferLOD_heap w2 = bufferLOD_heap w ∧
    _loader w2 = _loader w ∧ trace w2 = es ++ trace w ∧ read_ranges es = [].
Proof.
  intros Hl. unfold onReady. erewrite (bind_run (gets _)) by reflexivity. cbv beta.
  destruct (onReady_levels_run NodeLOD (length (_nodePromiseLODs w)) 0 w loader Hl)
    as (w1 & es1 & Hrun1 & Hsame1 & Ht1 & Hes1 & _).
  rewrite (bind_run _ _ w tt w1) by done.
  erewrite (bind_run (gets _)) by reflexivity. cbv beta.
  destruct (onReady_levels_run MaterialLOD (length (_materialPromiseLODs w1)) 0 w1 loader)
    as (w2 & es2 & Hrun2 & Hsame2 & Ht2 & Hes2 & _).
  { by rewrite (same_fields_loader w w1). }
  rewrite (bind_run _ _ w1 tt w2) by done.
  erewrite (bind_run (gets _)) by reflexivity. cbv beta.
  assert (_bufferLODs w2 = _bufferLODs w) as Hbufs.
  { by rewrite (same_fields_bufferLODs w1 w2), (same_fields_bufferLODs w w1). }
  exists w2, (es2 ++ es1). split_and!.
  - by rewrite Hbufs.
  - done.
  - by rewrite (same_fields_heap w1 w2), (same_fields_heap w w1).
  - by rewrite (same_fields_loader w1 w2), (same_fields_loader w w1).
  - by rewrite Ht2, Ht1, app_assoc.
  - by rewrite read_ranges_app, !read_ranges_new.
Qed.

(** A level without a bucket cannot be read: [_loadBufferLOD] throws a
    [TypeError] on it. So the turn of level 0 of a LOD sequence throws
    when the array of buckets is not empty but has a hole at level 0,
    before the marker is reset and before the promise of the level is
    kept; and [onReady] throws at the first hole from level 1 on, after
    the reads of the levels below it and without those above. *)
Theorem missing_bucket_throws :
  (∀ w indexLOD,
     js_get (_bufferLODs w) indexLOD = None →
     _loadBufferLOD indexLOD w = (Throw TypeError, w)) ∧
  (∀ w nodeLODs src firstPromise,
     _bufferLODs w ≠ [] → js_get (_bufferLODs w) 0 = None →
     ∃ w', loadNodeAsync_after nodeLODs 0 src firstPromise w = (Throw TypeError, w') ∧
       _indexLOD w' = _indexLOD w ∧ _nodePromiseLODs w' = _nodePromiseLODs w) ∧
  (∀ w materialLODs babylonMesh babylonDrawMode src firstPromise,
     _bufferLODs w ≠ [] → js_get (_bufferLODs w) 0 = None →
     ∃ w', _loadMaterialAsync_after materialLODs 0 babylonMesh babylonDrawMode src
             firstPromise w = (Throw TypeError, w') ∧
       _indexLOD w' = _indexLOD w ∧ _materialPromiseLODs w' = _materialPromiseLODs w) ∧
  (∀ w hole,
     range_ready w → 1 ≤ hole < length (_bufferLODs w) →
     (∀ i, 1 ≤ i < hole → is_Some (bucket_range w i)) →
     js_get (_bufferLODs w) hole = None →
     ∃ w', onReady w = (Throw TypeError, w') ∧
       read_ranges (trace w')
         = reverse (omap (bucket_range w) (seq 1 (hole - 1))) ++ read_ranges (trace w)).
Proof.
  split_and!.
  - apply loadBufferLOD_missing.
  - intros w nodeLODs src fp Hne Hnone. unfold loadNodeAsync_after.
    erewrite (bind_run (new_promise _)) by reflexivity. simpl.
    set (w1 := set_trace _ _). exists w1. split; [|done].
    apply bind_throw. erewrite (bind_run (gets _)) by reflexivity. cbv beta.
    unfold w1 at 1. simpl. destruct (_bufferLODs w) eqn:Hbufs; [done|]. simpl.
    apply bind_throw. apply loadBufferLOD_missing. unfold w1. simpl. by rewrite Hbufs.
  - intros w materialLODs mesh drawMode src fp Hne Hnone. unfold _loadMaterialAsync_after.
    erewrite (bind_run (new_promise _)) by reflexivity. simpl.
    set (w1 := set_trace _ _). exists w1. split; [|done].
    apply bind_throw. erewrite (bind_run (gets _)) by reflexivity. cbv beta.
    unfold w1 at 1. simpl. destruct (_bufferLODs w) eqn:Hbufs; [done|]. simpl.
    apply bind_throw. apply loadBufferLOD_missing. unfold w1. simpl. by rewrite Hbufs.
  - intros w hole Hready Hhole Hall Hnone. destruct Hready as (loader & Hl & Hr & Hb).
    destruct (onReady_to_reads w loader Hl) as (w2 & es & -> & Hbufs & Hheap & Hl2 & Ht & Hes).
    replace (length (_bufferLODs w) - 1) with ((hole - 1) + S (length (_bufferLODs w) - 1 - hole))
      by lia.
    destruct (for_range_reads_until (hole - 1) (length (_bufferLODs w) - 1 - hole) 1 w2)
      as (w' & Hrun & Hreads).
    + exists loader. by rewrite Hl2.
    + intros i Hi. rewrite (bucket_range_fields w w2) by done. apply Hall. lia.
    + replace (1 + (hole - 1)) with hole by lia. by rewrite Hbufs.
    + exists w'. split; [done|]. rewrite Hreads, Ht, read_ranges_app, Hes. simpl.
      unfold bucket_range. by rewrite Hbufs, Hheap.
Qed.

(** * Views and the start of the bucket *)

(** A view is cut when the data arrives, at the position of the request
    relative to the start the bucket has then. When the data was read
    for the bytes [[first, last]] and the bucket starts at [first], the
    view holds the bytes asked for; when the bucket has been widened
    downwards since the read was issued, it holds the bytes
    [first - start bucket] further on in the file, and a view that would
    pass the end of the buffer is a [RangeError]. *)
Theorem view_follows_bucket_start file w b bucket data first last offset len :
  bufferLOD_heap w !! b = Some bucket →
  fetched file first last data →
  (start bucket ≤ offset)%Z → (0 ≤ len)%Z →
  ((offset - start bucket + len ≤ last - first + 1)%Z →
   ∃ view, cb_buffer_view b offset len (VView data) w = (Ok (VView view), w) ∧
     byteOffset view = (byteOffset data + (offset - start bucket))%Z ∧
     view_bytes view
       = take (Z.to_nat len) (drop (Z.to_nat (offset + (first - start bucket))) file)) ∧
  ((Z.of_nat (length (view_buffer data)) < byteOffset data + (offset - start bucket) + len)%Z →
   cb_buffer_view b offset len (VView data) w = (Throw RangeError, w)).
Proof.
  intros Hheap (Hs & He & Hbo & Hfit & Hbl & Hbytes) Hlo Hlen. split.
  - intros Hin.
    unfold cb_buffer_view, read_bufferLOD, new_Uint8Array. mrun. rewrite Hheap. mrun.
    destruct (Z.ltb_spec (byteOffset data + offset - start bucket) 0); [lia|].
    destruct (Z.ltb_spec len 0); [lia|].
    destruct (Z.ltb_spec (Z.of_nat (length (view_buffer data)))
                (byteOffset data + offset - start bucket + len)); [lia|].
    mrun. eexists. split; [done|]. simpl. split; [lia|].
    unfold view_bytes in *. simpl.
    transitivity (take (Z.to_nat len) (drop (Z.to_nat (offset - start bucket))
                    (take (Z.to_nat (byteLength data))
                       (drop (Z.to_nat (byteOffset data)) (view_buffer data))))).
    + rewrite take_drop_take by lia. rewrite drop_drop. do 2 f_equal. lia.
    + rewrite Hbytes. rewrite take_drop_take by lia. rewrite drop_drop. do 2 f_equal. lia.
  - intros Hout.
    unfold cb_buffer_view, read_bufferLOD, new_Uint8Array. mrun. rewrite Hheap. mrun.
    destruct (Z.ltb_spec (byteOffset data + offset - start bucket) 0); [done|].
    destruct (Z.ltb_spec len 0); [done|].
    destruct (Z.ltb_spec (Z.of_nat (length (view_buffer data)))
                (byteOffset data + offset - start bucket + len)); [done|lia].
Qed.

(** * The swap of material levels *)

(** The reaction to the load of a level of a material. At level 0 it
    does nothing. At level [i+1] it puts the new material on the mesh,
    then disposes what is kept of level [i] for this draw mode and
    forgets it, so a second reaction finds nothing to dispose; the other
    draw modes of level [i] are kept. When level [i] was never loaded
    (it has no data at all) the reaction throws after the assignment. *)
Theorem material_lod_swaps :
  (∀ w p materialLODs babylonMesh babylonDrawMode v,
     cb_material_lod p materialLODs 0 babylonMesh babylonDrawMode v w = (Ok v, w)) ∧
  (∀ w p materialLODs i babylonMesh babylonDrawMode m previous d data,
     materialLODs !! i = Some previous →
     material_data w !! material_index previous = Some d →
     js_get d babylonDrawMode = Some data →
     ∃ w' d', cb_material_lod p materialLODs (S i) babylonMesh babylonDrawMode (VMaterial m) w
                = (Ok (VMaterial m), w') ∧
       trace w' = EvDisposeMaterial (Some p) (babylonMaterial data) :: trace w ∧
       mesh_material w' = <[babylonMesh := m]> (mesh_material w) ∧
       material_data w' = <[material_index previous := d']> (material_data w) ∧
       js_get d' babylonDrawMode = None ∧
       ∀ drawMode, drawMode ≠ babylonDrawMode → js_get d' drawMode = js_get d drawMode) ∧
  (∀ w p materialLODs i babylonMesh babylonDrawMode m previous d,
     materialLODs !! i = Some previous →
     material_data w !! material_index previous = Some d →
     js_get d babylonDrawMode = None →
     cb_material_lod p materialLODs (S i) babylonMesh babylonDrawMode (VMaterial m) w
       = (Ok (VMaterial m), set_mesh_material (<[babylonMesh := m]> (mesh_material w)) w)) ∧
  (∀ w p materialLODs i babylonMesh babylonDrawMode m previous,
     materialLODs !! i = Some previous →
     material_data w !! material_index previous = None →
     cb_material_lod p materialLODs (S i) babylonMesh babylonDrawMode (VMaterial m) w
       = (Throw TypeError, set_mesh_material (<[babylonMesh := m]> (mesh_material w)) w)).
Proof.
  split_and!.
  - intros. unfold cb_material_lod. by mrun.
  - intros w p lods i mesh dm m prev d data Hprev Hd Hdata.
    unfold cb_material_lod, assign_material. mrun.
    rewrite Nat.sub_0_r, Hprev. mrun. rewrite Hd. mrun. rewrite Hdata. mrun.
    eexists _, (<[dm := None]> d). split; [done|]. simpl. split_and!; try done.
    + apply js_get_lt in Hdata. unfold js_get. by rewrite list_lookup_insert_eq.
    + intros dm' Hne. unfold js_get. by rewrite list_lookup_insert_ne.
  - intros w p lods i mesh dm m prev d Hprev Hd Hnone.
    unfold cb_material_lod, assign_material. mrun.
    rewrite Nat.sub_0_r, Hprev. mrun. rewrite Hd. mrun. by rewrite Hnone.
  - intros w p lods i mesh dm m prev Hprev Hd.
    unfold cb_material_lod, assign_material. mrun.
    rewrite Nat.sub_0_r, Hprev. mrun. by rewrite Hd.
Qed.

(** * The marker after a LOD sequence *)

Lemma loadNodeAsync_after_marker nodeLODs indexLOD src firstPromise w r w' :
  loadNodeAsync_after nodeLODs indexLOD src firstPromise w = (Ok r, w') →
  _indexLOD w' = None.
Proof.
  unfold loadNodeAsync_after. intros H.
  apply bind_ok in H as (promise & w1 & _ & H).
  apply bind_ok in H as (fp & w2 & _ & H).
  revert H. mrun. by intros [= _ <-].
Qed.

Lemma loadMaterialAsync_after_marker materialLODs indexLOD babylonMesh babylonDrawMode src
    firstPromise w r w' :
  _loadMaterialAsync_after materialLODs indexLOD babylonMesh babylonDrawMode src
    firstPromise w = (Ok r, w') →
  _indexLOD w' = None.
Proof.
  unfold _loadMaterialAsync_after. intros H.
  apply bind_ok in H as (promise & w1 & _ & H).
  apply bind_ok in H as (fp & w2 & _ & H).
  revert H. mrun. by intros [= _ <-].
Qed.

Lemma loadNodeAsync_loop_marker loader_loadNode nodeLODs rest :
  ∀ indexLOD firstPromise w r w',
  rest ≠ [] →
  loadNodeAsync_loop loader_loadNode nodeLODs rest indexLOD firstPromise w = (Ok r, w') →
  _indexLOD w' = None.
Proof.
  induction rest as [|nodeLOD rest IH]; intros indexLOD fp w r w' Hne H; [done|].
  cbn [loadNodeAsync_loop] in H.
  apply bind_ok in H as ([] & w1 & _ & H).
  apply bind_ok in H as (src & w2 & _ & H).
  apply bind_ok in H as (fp' & w3 & Hafter & H).
  destruct rest as [|nodeLOD' rest].
  - simpl in H. revert H. mrun. intros [= _ <-]. by eapply loadNodeAsync_after_marker.
  - by eapply IH.
Qed.

Lemma loadMaterialAsync_loop_marker loader_loadMaterial materialLODs babylonMesh
    babylonDrawMode rest : ∀ indexLOD firstPromise w r w',
  rest ≠ [] →
  _loadMaterialAsync_loop loader_loadMaterial materialLODs rest babylonMesh babylonDrawMode
    indexLOD firstPromise w = (Ok r, w') →
  _indexLOD w' = None.
Proof.
  induction rest as [|materialLOD rest IH]; intros indexLOD fp w r w' Hne H; [done|].
  cbn [_loadMaterialAsync_loop] in H.
  apply bind_ok in H as ([] & w1 & _ & H).
  apply bind_ok in H as (src & w2 & _ & H).
  apply bind_ok in H as (fp' & w3 & Hafter & H).
  destruct rest as [|materialLOD' rest].
  - simpl in H. revert H. mrun. intros [= _ <-]. by eapply loadMaterialAsync_after_marker.
  - by eapply IH.
Qed.

(** A LOD sequence that returns leaves the marker of the level at
    [null], whatever the marker was at the call and whatever the loader
    did in between: a sequence that is loaded inside a level of another
    one ends the marker of that level, and the requests that follow in
    the enclosing level are filed under level 0. *)
Theorem marker_null_after_sequence :
  (∀ loader_loadNode node ids w r w',
     node_lod node = Some ids →
     loadNodeAsync loader_loadNode node w = (Ok r, w') →
     _indexLOD w' = None ∧ current_level w' = 0) ∧
  (∀ loader_loadMaterial material babylonMesh babylonDrawMode ids w r w',
     material_lod material = Some ids → truthy (_indexLOD w) = false →
     _loadMaterialAsync loader_loadMaterial material babylonMesh babylonDrawMode w
       = (Ok r, w') →
     _indexLOD w' = None ∧ current_level w' = 0).
Proof.
  split.
  - intros load node ids w r w' Hids. unfold loadNodeAsync. rewrite Hids. simpl. intros H.
    apply bind_ok in H as (loader & w1 & _ & H).
    apply bind_ok in H as (maxLODs & w2 & _ & H).
    apply bind_ok in H as (nodeLODs & w3 & Hlods & H).
    apply bind_ok in H as ([] & w4 & _ & H).
    apply bind_ok in H as (fp & w5 & Hloop & H).
    apply bind_ok in H as ([] & w6 & Hclose & H).
    assert (w' = w5) as ->.
    { revert Hclose H. mrun. destruct (_loader w5); mrun; congruence. }
    assert (_indexLOD w5 = None) as Hnone.
    { eapply loadNodeAsync_loop_marker; [|done].
      revert Hlods. unfold lift.
      destruct (_getLODs _ _ _ _) as [l|e] eqn:Hget; [|done].
      intros [= <- _]. by eapply getLODs_nonempty. }
    split; [done|]. unfold current_level. by rewrite Hnone.
  - intros load material mesh drawMode ids w r w' Hids Hi. unfold _loadMaterialAsync.
    erewrite (bind_run (gets _)) by reflexivity. rewrite Hi, Hids. simpl. intros H.
    apply bind_ok in H as (loader & w1 & _ & H).
    apply bind_ok in H as (maxLODs & w2 & _ & H).
    apply bind_ok in H as (materialLODs & w3 & Hlods & H).
    apply bind_ok in H as ([] & w4 & _ & H).
    apply bind_ok in H as (fp & w5 & Hloop & H).
    apply bind_ok in H as ([] & w6 & Hclose & H).
    assert (w' = w5) as ->.
    { revert Hclose H. mrun. destruct (_loader w5); mrun; congruence. }
    assert (_indexLOD w5 = None) as Hnone.
    { eapply loadMaterialAsync_loop_marker; [|done].
      revert Hlods. unfold lift.
      destruct (_getLODs _ _ _ _) as [l|e] eqn:Hget; [|done].
      intros [= <- _]. by eapply getLODs_nonempty. }
    split; [done|]. unfold current_level. by rewrite Hnone.
Qed.

(** * [_disposeUnusedMaterials] and [dispose] *)

Lemma no_mesh_uses_fields w w' data :
  mesh_material w' = mesh_material w → no_mesh_uses w' data = no_mesh_uses w data.
Proof. unfold no_mesh_uses. by intros ->. Qed.

Lemma pruned_mesh_material by_ w0 w : pruned by_ w0 w → mesh_material w = mesh_material w0.
Proof. intros [<- _]. done. Qed.

Lemma pruned_refl by_ w : pruned by_ w w.
Proof.
  split_and!; try done.
  - by destruct w.
  - exists []. split; [done|constructor].
Qed.

Lemma pruned_trans by_ w0 w1 w2 : pruned by_ w0 w1 → pruned by_ w1 w2 → pruned by_ w0 w2.
Proof.
  intros H01 H12. pose proof (pruned_mesh_material _ _ _ H01) as Hmesh.
  destruct H01 as (Hf1 & Hsub1 & Hkept1 & es1 & Ht1 & Hes1).
  destruct H12 as (Hf2 & Hsub2 & Hkept2 & es2 & Ht2 & Hes2).
  split_and!.
  - rewrite <- Hf1 at 3. rewrite <- Hf2. by destruct w2.
  - eauto.
  - intros index dm data Hd Hused. apply Hkept2; [by apply Hkept1|].
    by rewrite (no_mesh_uses_fields w0 w1).
  - exists (es2 ++ es1). split; [by rewrite Ht2, Ht1, app_assoc|].
    apply Forall_app. split; [|done].
    eapply Forall_impl; [done|]. intros e (index & dm & data & -> & Hd & Hunused).
    exists index, dm, data. split_and!; [done|by apply Hsub1|].
    by rewrite <- (no_mesh_uses_fields w0 w1).
Qed.

Lemma tracked_material_delete w index drawMode d index' drawMode' :
  material_data w !! index = Some d →
  tracked_material
    (set_material_data (<[index := <[drawMode := None]> d]> (material_data w)) w)
    index' drawMode'
  = if decide (index' = index ∧ drawMode' = drawMode) then None
    else tracked_material w index' drawMode'.
Proof.
  intros Hd. unfold tracked_material. simpl.
  destruct (decide (index' = index)) as [->|Hne].
  - rewrite lookup_insert_eq, Hd. simpl. unfold js_get.
    destruct (decide (drawMode' = drawMode)) as [->|Hne'].
    + rewrite decide_True by done.
      destruct (decide (drawMode < length d)).
      * by rewrite list_lookup_insert_eq.
      * rewrite list_insert_ge by lia. by rewrite lookup_ge_None_2 by lia.
    + rewrite decide_False by tauto. by rewrite list_lookup_insert_ne.
  - rewrite lookup_insert_ne by done. rewrite decide_False by tauto. done.
Qed.

(** One entry: it goes when no mesh has its material, else it stays. *)
Lemma dispose_if_unused_pruned by_ material drawMode w :
  ∃ w', dispose_if_unused by_ material drawMode w = (Ok tt, w') ∧ pruned by_ w w' ∧
    ∀ data, tracked_material w' (material_index material) drawMode = Some data →
            no_mesh_uses w' data = false.
Proof.
  unfold dispose_if_unused. erewrite (bind_run (gets _)) by reflexivity. cbv beta.
  fold (tracked_material w (material_index material) drawMode).
  destruct (tracked_material w (material_index material) drawMode) as [data|] eqn:Hd.
  - erewrite (bind_run (gets _)) by reflexivity. cbv beta.
    destruct (no_mesh_uses w data) eqn:Hunused; mrun.
    + unfold tracked_material in Hd.
      destruct (material_data w !! material_index material) as [d|] eqn:Hdata; [|done].
      simpl in Hd. eexists. split; [done|]. split.
      * split_and!.
        -- by destruct w.
        -- intros index dm data'.
           rewrite (tracked_material_delete (set_trace _ w) _ _ d) by done.
           case_decide; [done|]. done.
        -- intros index dm data' Hd' Hused.
           rewrite (tracked_material_delete (set_trace _ w) _ _ d) by done.
           case_decide as Heq; [|done]. destruct Heq as [-> ->].
           unfold tracked_material in Hd'. rewrite Hdata in Hd'. simpl in Hd'. congruence.
        -- exists [EvDisposeMaterial by_ (babylonMaterial data)]. split; [done|].
           repeat constructor. exists (material_index material), drawMode, data.
           split_and!; [done| |done]. unfold tracked_material. by rewrite Hdata.
      * intros data'. rewrite (tracked_material_delete (set_trace _ w) _ _ d) by done.
        by rewrite decide_True.
    + exists w. split_and!; [done|apply pruned_refl|]. intros data'. rewrite Hd. congruence.
  - exists w. split_and!; [done|apply pruned_refl|]. by rewrite Hd.
Qed.

Lemma for_range_pruned by_ material count : ∀ first w,
  ∃ w', for_range first count (dispose_if_unused by_ material) w = (Ok tt, w') ∧
    pruned by_ w w' ∧
    ∀ drawMode data, first ≤ drawMode < first + count →
      tracked_material w' (material_index material) drawMode = Some data →
      no_mesh_uses w' data = false.
Proof.
  induction count as [|count IH]; intros first w; cbn [for_range].
  { exists w. split_and!; [done|apply pruned_refl|lia]. }
  destruct (dispose_if_unused_pruned by_ material first w) as (w1 & Hrun1 & Hp1 & Hdone1).
  rewrite (bind_run _ _ w tt w1) by done.
  destruct (IH (S first) w1) as (w' & Hrun & Hp & Hdone).
  exists w'. split_and!; [done|by eapply pruned_trans|].
  intros dm data Hdm Hd. destruct (decide (dm = first)) as [->|Hne].
  - rewrite (no_mesh_uses_fields w1 w') by (by eapply pruned_mesh_material).
    apply Hdone1. by apply (proj1 (proj2 Hp)).
  - apply (Hdone dm); [lia|done].
Qed.

(** The entries of one material. *)
Lemma dispose_material_pruned by_ material w :
  ∃ w', (d ← gets (λ w, material_data w !! material_index material);
         match d with
         | None => mret tt
         | Some data => for_range 0 (length data) (dispose_if_unused by_ material)
         end) w = (Ok tt, w') ∧
    pruned by_ w w' ∧
    ∀ drawMode data,
      tracked_material w' (material_index material) drawMode = Some data →
      no_mesh_uses w' data = false.
Proof.
  erewrite (bind_run (gets _)) by reflexivity. cbv beta.
  destruct (material_data w !! material_index material) as [d|] eqn:Hd.
  - destruct (for_range_pruned by_ material (length d) 0 w) as (w' & Hrun & Hp & Hdone).
    exists w'. split_and!; [done|done|].
    intros dm data Hdata. destruct (decide (dm < length d)) as [Hlt|Hge].
    + apply (Hdone dm); [lia|done].
    + apply (proj1 (proj2 Hp)) in Hdata. unfold tracked_material in Hdata.
      rewrite Hd in Hdata. simpl in Hdata. apply js_get_lt in Hdata. lia.
  - exists w. split_and!; [done|apply pruned_refl|].
    intros dm data. unfold tracked_material. by rewrite Hd.
Qed.

Lemma for_each_pruned by_ (materials : list IMaterial) : ∀ w,
  ∃ w', for_each materials (λ material,
          d ← gets (λ w, material_data w !! material_index material);
          match d with
          | None => mret tt
          | Some data => for_range 0 (length data) (dispose_if_unused by_ material)
          end) w = (Ok tt, w') ∧
    pruned by_ w w' ∧
    ∀ material drawMode data, material ∈ materials →
      tracked_material w' (material_index material) drawMode = Some data →
      no_mesh_uses w' data = false.
Proof.
  induction materials as [|material materials IH]; intros w; cbn [for_each].
  { exists w. split_and!; [done|apply pruned_refl|]. intros ??? Hin. by apply elem_of_nil in Hin. }
  destruct (dispose_material_pruned by_ material w) as (w1 & Hrun1 & Hp1 & Hdone1).
  rewrite (bind_run _ _ w tt w1) by done.
  destruct (IH w1) as (w' & Hrun & Hp & Hdone).
  exists w'. split_and!; [done|by eapply pruned_trans|].
  intros m dm data Hin Hd. apply elem_of_cons in Hin as [->|Hin].
  - rewrite (no_mesh_uses_fields w1 w') by (by eapply pruned_mesh_material).
    apply (Hdone1 dm). by apply (proj1 (proj2 Hp)).
  - by apply (Hdone m dm).
Qed.

Lemma disposeUnusedMaterials_pruned by_ w loader :
  _loader w = Some loader →
  ∃ w', _disposeUnusedMaterials by_ w = (Ok tt, w') ∧ pruned by_ w w' ∧
    ∀ materials material drawMode data,
      gltf_materials loader = Some materials → material ∈ materials →
      tracked_material w' (material_index material) drawMode = Some data →
      no_mesh_uses w' data = false.
Proof.
  intros Hl. unfold _disposeUnusedMaterials. mrun. rewrite Hl. mrun.
  destruct (gltf_materials loader) as [materials|] eqn:Hm.
  - destruct (for_each_pruned by_ materials w) as (w' & Hrun & Hp & Hdone).
    exists w'. split_and!; [done|done|].
    intros ms m dm data [= <-]. by apply Hdone.
  - exists w. split_and!; [done|apply pruned_refl|done].
Qed.

Lemma disposeUnusedMaterials_no_loader by_ w :
  _loader w = None → _disposeUnusedMaterials by_ w = (Throw TypeError, w).
Proof. intros Hl. unfold _disposeUnusedMaterials. mrun. by rewrite Hl. Qed.

(** [_disposeUnusedMaterials] disposes the materials that no mesh has
    and only those. It changes nothing but the data kept of the
    materials: each disposal is of an entry whose material none of its
    meshes had, every entry one of its meshes had is kept, and of the
    materials of the asset no entry is left that no mesh has. Without
    loader it throws. *)
Theorem disposeUnusedMaterials_spec by_ w :
  (∀ loader, _loader w = Some loader →
     ∃ w', _disposeUnusedMaterials by_ w = (Ok tt, w') ∧ pruned by_ w w' ∧
       ∀ materials material drawMode data,
         gltf_materials loader = Some materials → material ∈ materials →
         tracked_material w' (material_index material) drawMode = Some data →
         no_mesh_uses w' data = false) ∧
  (_loader w = None → _disposeUnusedMaterials by_ w = (Throw TypeError, w)).
Proof.
  split; [apply disposeUnusedMaterials_pruned|apply disposeUnusedMaterials_no_loader].
Qed.

(** * The extension after [dispose] *)

(** [dispose] first disposes the materials that no mesh has, then lets
    go of the loader and of all it kept of the levels. The promises are
    left as they are: what was pending stays pending. A second
    [dispose] throws, the loader being gone. *)
Theorem dispose_spec w :
  (∀ loader, _loader w = Some loader →
     ∃ w1 w', _disposeUnusedMaterials None w = (Ok tt, w1) ∧ pruned None w w1 ∧
       dispose w = (Ok tt, w') ∧ disposed w' ∧
       _nodeSignalLODs w' = [] ∧ _materialSignalLODs w' = [] ∧
       trace w' = trace w1 ∧ material_data w' = material_data w1 ∧
       store w' = store w ∧ mesh_material w' = mesh_material w ∧
       node_babylonTransformNode w' = node_babylonTransformNode w) ∧
  (_loader w = None → dispose w = (Throw TypeError, w)).
Proof.
  split.
  - intros loader Hl.
    destruct (disposeUnusedMaterials_pruned None w loader Hl) as (w1 & Hrun & Hp & _).
    exists w1. eexists. split; [done|]. split; [done|].
    unfold dispose. rewrite (bind_run _ _ w tt w1) by done. mrun.
    split; [done|]. destruct Hp as (Hf & _). rewrite <- Hf. by split_and!.
  - intros Hl. unfold dispose. apply bind_throw. by apply disposeUnusedMaterials_no_loader.
Qed.

Lemma onReady_disposed w : disposed w → onReady w = (Ok tt, w).
Proof.
  intros (_ & _ & _ & _ & Hn & Hm & Hb). unfold onReady. mrun. rewrite Hn. cbn. rewrite Hm. cbn. by rewrite Hb.
Qed.

Lemma loadBufferAsync_disposed buffer offset len w :
  _loader w = None → loadBufferAsync buffer offset len w = (Throw TypeError, w).
Proof. intros Hl. unfold loadBufferAsync. mrun. by rewrite Hl. Qed.

Lemma loadUriAsync_disposed uri w : disposed w → _loadUriAsync uri w = (Ok None, w).
Proof. intros (_ & _ & Hn & Hm & _). by apply loadUriAsync_null. Qed.

Lemma loadNodeAsync_disposed loader_loadNode node w :
  _loader w = None →
  loadNodeAsync loader_loadNode node w
    = (match node_lod node with Some _ => Throw TypeError | None => Ok None end, w).
Proof.
  intros Hl. unfold loadNodeAsync. destruct (node_lod node); simpl; [|done].
  mrun. by rewrite Hl.
Qed.

Lemma loadMaterialAsync_disposed loader_loadMaterial material babylonMesh babylonDrawMode w :
  disposed w →
  _loadMaterialAsync loader_loadMaterial material babylonMesh babylonDrawMode w
    = (match material_lod material with Some _ => Throw TypeError | None => Ok None end, w).
Proof.
  intros (Hl & Hi & _). unfold _loadMaterialAsync. mrun. rewrite Hi. simpl.
  destruct (material_lod material); simpl; [|done]. mrun. by rewrite Hl.
Qed.

(** The hooks of a disposed extension. [onReady] has nothing to do;
    requests for uris are left to the loader; a request for a byte
    range throws, and so does the load of a node or material that
    declares LODs, while one that declares none is left to the loader.
    None of them changes anything. *)
Theorem hooks_after_dispose w :
  disposed w →
  onReady w = (Ok tt, w) ∧
  (∀ uri, _loadUriAsync uri w = (Ok None, w)) ∧
  (∀ buffer offset len, loadBufferAsync buffer offset len w = (Throw TypeError, w)) ∧
  (∀ loader_loadNode node,
     loadNodeAsync loader_loadNode node w
       = (match node_lod node with Some _ => Throw TypeError | None => Ok None end, w)) ∧
  (∀ loader_loadMaterial material babylonMesh babylonDrawMode,
     _loadMaterialAsync loader_loadMaterial material babylonMesh babylonDrawMode w
       = (match material_lod material with Some _ => Throw TypeError | None => Ok None end, w)).
Proof.
  intros Hd. split_and!.
  - by apply onReady_disposed.
  - intros uri. by apply loadUriAsync_disposed.
  - intros. apply loadBufferAsync_disposed. apply Hd.
  - intros. apply loadNodeAsync_disposed. apply Hd.
  - intros. by apply loadMaterialAsync_disposed.
Qed.

(** ** What is left to run after [dispose] *)

Section keeps_calculus.
Context (P : Event → Prop).

Lemma keeps_silent {A} (m : M A) : (∀ w, disposed w → (m w).2 = w) → keeps P m.
Proof.
  intros Hm w Hd. rewrite (Hm w Hd). split; [done|]. exists []. split; [done|constructor].
Qed.

Lemma keeps_ret {A} (a : A) : keeps P (mret a).
Proof. by apply keeps_silent. Qed.

Lemma keeps_throw {A} e : keeps P (throw e : M A).
Proof. by apply keeps_silent. Qed.

Lemma keeps_gets {A} (f : World → A) : keeps P (gets f).
Proof. by apply keeps_silent. Qed.

Lemma keeps_lift {A} (r : Res A) : keeps P (lift r).
Proof. by apply keeps_silent. Qed.

Lemma keeps_bind {A B} (m : M A) (f : A → M B) :
  keeps P m → (∀ a, keeps P (f a)) → keeps P (m ≫= f).
Proof.
  intros Hm Hf w Hd. destruct (Hm w Hd) as (Hd1 & es1 & Ht1 & HP1).
  unfold mbind, M_bind. destruct (m w) as [[a|e] w1]; simpl in *.
  - destruct (Hf a w1 Hd1) as (Hd2 & es2 & Ht2 & HP2). split; [done|].
    exists (es2 ++ es1). split; [by rewrite Ht2, Ht1, app_assoc|by apply Forall_app].
  - split; [done|]. by exists es1.
Qed.

Lemma keeps_fmap {A B} (g : A → B) (m : M A) : keeps P m → keeps P (g <$> m).
Proof. intros Hm. apply keeps_bind; [done|]. intros a. apply keeps_ret. Qed.

Lemma keeps_when b (m : M unit) : keeps P m → keeps P (when b m).
Proof. intros Hm. destruct b; [done|apply keeps_ret]. Qed.

Lemma keeps_modify (f : World → World) :
  (∀ w, disposed w → disposed (f w)) → (∀ w, trace (f w) = trace w) → keeps P (modify f).
Proof.
  intros Hf Ht w Hd. simpl. split; [by apply Hf|].
  exists []. split; [apply Ht|constructor].
Qed.

Lemma keeps_emit e : P e → keeps P (emit e).
Proof.
  intros He w Hd. simpl. split; [done|]. exists [e]. split; [done|by repeat constructor].
Qed.

Lemma keeps_new_promise k : P (EvNew 0 k) → (∀ p, P (EvNew 0 k) → P (EvNew p k)) →
  keeps P (new_promise k).
Proof.
  intros He Hp w Hd. simpl. split; [done|].
  eexists [_]. split; [done|]. repeat constructor. by apply Hp.
Qed.

Lemma keeps_for_range (body : nat → M unit) count : ∀ first,
  (∀ i, keeps P (body i)) → keeps P (for_range first count body).
Proof.
  induction count as [|count IH]; intros first Hbody; simpl; [apply keeps_ret|].
  apply keeps_bind; [done|]. intros _. by apply IH.
Qed.

Lemma keeps_for_each {A} (l : list A) (body : A → M unit) :
  (∀ x, keeps P (body x)) → keeps P (for_each l body).
Proof.
  intros Hbody. induction l as [|x l IH]; simpl; [apply keeps_ret|].
  apply keeps_bind; [done|]. by intros _.
Qed.

Lemma keeps_settle p s : P (EvSettled p s) → keeps P (settle p s).
Proof.
  intros He w Hd. unfold settle. destruct (store w !! p) as [c|].
  - destruct (settled (state c)); simpl.
    + split; [done|]. exists []. split; [done|constructor].
    + split; [done|]. exists [EvSettled p s]. split; [done|by repeat constructor].
  - split; [done|]. exists []. split; [done|constructor].
Qed.

Lemma keeps_adopt p q : P (EvAdopted p q) → keeps P (adopt p q).
Proof.
  intros He w Hd. unfold adopt. destruct (store w !! p) as [c|].
  - destruct (state c); simpl;
      try (split; [done|]; exists []; split; [done|constructor]).
    split; [done|]. exists [EvAdopted p q]. split; [done|by repeat constructor].
  - split; [done|]. exists []. split; [done|constructor].
Qed.

End keeps_calculus.

Ltac keeps_step :=
  lazymatch goal with
  | |- keeps _ (mret _) => apply keeps_ret
  | |- keeps _ (throw _) => apply keeps_throw
  | |- keeps _ (gets _) => apply keeps_gets
  | |- keeps _ (lift _) => apply keeps_lift
  | |- keeps _ (_ ≫= _) => apply keeps_bind; [|intros ?]
  | |- keeps _ (_ <$> _) => apply keeps_fmap
  | |- keeps _ (when _ _) => apply keeps_when
  | |- keeps _ (for_range _ _ _) => apply keeps_for_range; intros ?
  | |- keeps _ (for_each _ _) => apply keeps_for_each; intros ?
  | |- keeps _ (modify _) => apply keeps_modify; [intros ? ?; assumption|intros ?; reflexivity]
  | |- keeps _ (emit _) => apply keeps_emit; simpl; eauto
  | |- keeps _ (match ?x with _ => _ end) => destruct x
  | |- keeps _ (let _ := _ in _) => cbv zeta
  end.

Ltac keeps_auto := repeat keeps_step.

Lemma keeps_the_loader P : keeps P the_loader.
Proof. unfold the_loader. keeps_auto. Qed.

Lemma keeps_loader_call P : keeps P loader_call.
Proof. unfold loader_call. keeps_auto. apply keeps_the_loader. Qed.

Lemma keeps_external : keeps abandoned (new_promise KExternal).
Proof. by apply keeps_new_promise. Qed.

(** What needs the loader stops at once. *)
Lemma keeps_the_loader_then {B} P (f : GLTFLoader → M B) : keeps P (the_loader ≫= f).
Proof.
  apply keeps_silent; intros w (Hl & _). unfold the_loader. mrun. by rewrite Hl.
Qed.

Lemma keeps_loader_call_then {B} P (g : unit → M B) : keeps P (loader_call ≫= g).
Proof.
  apply keeps_silent; intros w (Hl & _). unfold loader_call. mrun. by rewrite Hl.
Qed.

Lemma keeps_loader_loadUriAsync uri : keeps abandoned (loader_loadUriAsync None uri).
Proof. unfold loader_loadUriAsync. keeps_auto. apply keeps_external. Qed.

Lemma keeps_fresh_object P : keeps P fresh_object.
Proof. intros w Hd. simpl. split; [done|]. exists []. split; [done|constructor]. Qed.

Lemma keeps_loader_loadNodeAsync body node assign :
  keeps abandoned body → (∀ n, keeps abandoned (assign n)) →
  keeps abandoned (loader_loadNodeAsync body node assign).
Proof.
  intros Hbody Hassign. unfold loader_loadNodeAsync. keeps_auto; try done.
  - apply keeps_fresh_object.
  - apply keeps_external.
Qed.

Lemma keeps_assign_material P babylonMesh babylonMaterial_ :
  keeps P (assign_material babylonMesh babylonMaterial_).
Proof. unfold assign_material. keeps_auto. Qed.

Lemma keeps_loader_loadMaterialAsync body material babylonMesh babylonDrawMode assign :
  keeps abandoned body → (∀ m, keeps abandoned (assign m)) →
  keeps abandoned (loader_loadMaterialAsync body material babylonMesh babylonDrawMode assign).
Proof.
  intros Hbody Hassign. unfold loader_loadMaterialAsync. keeps_auto; try done.
  - apply keeps_fresh_object.
  - apply keeps_external.
Qed.

(** The calls of the loader, with the hooks answering as a disposed
    extension does. *)
Lemma keeps_host s : keeps abandoned (host s).
Proof.
  induction s as [|buffer offset len next IH|uri next IH
                 |material babylonMesh babylonDrawMode inner IHinner next IH
                 |node inner IHinner next IH]; simpl.
  - apply keeps_ret.
  - apply keeps_bind; [|done].
    apply keeps_silent. intros w Hd. rewrite loadBufferAsync_disposed; [done|apply Hd].
  - keeps_auto; try done.
    + apply keeps_silent. intros w Hd. by rewrite loadUriAsync_disposed.
    + apply keeps_loader_loadUriAsync.
  - keeps_auto; try done.
    + apply keeps_silent. intros w Hd. by rewrite loadMaterialAsync_disposed.
    + apply keeps_loader_loadMaterialAsync; [done|]. intros m. apply keeps_assign_material.
  - keeps_auto; try done.
    + apply keeps_silent. intros w Hd. rewrite loadNodeAsync_disposed; [done|apply Hd].
    + apply keeps_loader_loadNodeAsync; [done|]. intros n. apply keeps_ret.
Qed.

Lemma keeps_read_bufferLOD P b : keeps P (read_bufferLOD b).
Proof. unfold read_bufferLOD. keeps_auto. Qed.

Lemma keeps_Deferred_settle d s : keeps abandoned (Deferred_settle d s).
Proof.
  unfold Deferred_settle. apply keeps_bind; [apply keeps_gets|]. intros c.
  destruct (kind <$> c) as [[]|]; try apply keeps_throw. by apply keeps_settle.
Qed.

(** The reactions that are still pending when the extension is
    disposed. *)
Lemma keeps_run_callback p cb v : keeps abandoned (run_callback p cb v).
Proof.
  destruct cb as [k i|nodeLODs i|materialLODs i babylonMesh babylonDrawMode|uri
                 |b offset len|b]; simpl.
  - apply keeps_bind; [|intros; apply keeps_ret].
    apply keeps_silent. intros w (Hl & _).
    unfold cb_level_loaded. destruct (negb (i =? 0)); mrun; by rewrite Hl.
  - unfold cb_node_lod, dispose_previous, enable_mesh. keeps_auto.
    unfold _disposeUnusedMaterials. apply keeps_the_loader_then.
  - unfold cb_material_lod. keeps_auto. apply keeps_assign_material.
  - apply keeps_loader_call_then.
  - unfold cb_buffer_view. keeps_auto. apply keeps_read_bufferLOD.
  - keeps_auto; [apply keeps_read_bufferLOD|apply keeps_Deferred_settle].
Qed.

Lemma keeps_run_rejection cb handler :
  run_rejection cb = Some handler → keeps abandoned handler.
Proof.
  destruct cb; try done. intros [= <-].
  keeps_auto; [apply keeps_read_bufferLOD|apply keeps_Deferred_settle].
Qed.

Lemma keeps_react p (m : M (Value + nat)) w :
  keeps abandoned m → disposed w →
  disposed (react p m w) ∧ ∃ es, trace (react p m w) = es ++ trace w ∧ Forall abandoned es.
Proof.
  intros Hm Hd. destruct (Hm w Hd) as (Hd1 & es1 & Ht1 & Hes1).
  unfold react. destruct (m w) as [[[v|q]|err] w1]; simpl in *.
  - destruct (keeps_settle abandoned p (Fulfilled v) I w1 Hd1) as (Hd2 & es2 & Ht2 & Hes2).
    split; [done|]. exists (es2 ++ es1).
    split; [by rewrite Ht2, Ht1, app_assoc|by apply Forall_app].
  - destruct (keeps_adopt abandoned p q I w1 Hd1) as (Hd2 & es2 & Ht2 & Hes2).
    split; [done|]. exists (es2 ++ es1).
    split; [by rewrite Ht2, Ht1, app_assoc|by apply Forall_app].
  - destruct (keeps_settle abandoned p Rejected I w1 Hd1) as (Hd2 & es2 & Ht2 & Hes2).
    split; [done|]. exists (es2 ++ es1).
    split; [by rewrite Ht2, Ht1, app_assoc|by apply Forall_app].
Qed.

Lemma keeps_run p w w' :
  disposed w → run p w = Some w' →
  disposed w' ∧ ∃ es, trace w' = es ++ trace w ∧ Forall abandoned es.
Proof.
  intros Hd. unfold run. destruct (store w !! p) as [c|]; [|done].
  destruct (state c) as [|q|v|]; try done.
  - destruct (kind c) as [| |src cb|[srcs|]]; try done.
    + destruct (cell_state w src) as [[|q|v|]|]; try done.
      * intros [= <-]. apply keeps_react; [apply keeps_run_callback|done].
      * destruct (run_rejection cb) as [handler|] eqn:Hrej; intros [= <-].
        -- apply keeps_react; [by eapply keeps_run_rejection|done].
        -- by apply (keeps_settle abandoned p Rejected I).
    + destruct (existsb _ _); [intros [= <-]; by apply (keeps_settle abandoned p _ I)|].
      destruct (forallb _ _); [intros [= <-]; by apply (keeps_settle abandoned p _ I)|done].
    + intros [= <-]. by apply (keeps_settle abandoned p _ I).
  - destruct (kind c); try done.
    destruct (cell_state w q) as [[|?|v|]|]; try done; intros [= <-];
      by apply (keeps_settle abandoned p _ I).
Qed.

Lemma keeps_step a w w' :
  disposed w → step a w = Some w' →
  disposed w' ∧ ∃ es, trace w' = es ++ trace w ∧ Forall abandoned es.
Proof.
  intros Hd. destruct a as [s| | |p outcome|p]; simpl.
  - intros [= <-]. by apply keeps_host.
  - intros [= <-]. rewrite onReady_disposed by done. simpl.
    split; [done|]. exists []. split; [done|constructor].
  - intros [= <-]. unfold dispose.
    rewrite (bind_throw _ _ w TypeError w)
      by (apply disposeUnusedMaterials_no_loader; apply Hd).
    simpl. split; [done|]. exists []. split; [done|constructor].
  - destruct (store w !! p) as [c|]; [|done].
    destruct (kind c); try done. destruct (state c); try done.
    intros [= <-]. by apply (keeps_settle abandoned p _ I).
  - by apply keeps_run.
Qed.

(** Once the extension is disposed it stays so, whatever runs
    afterwards: calls of the loader, settlements of loads that were
    pending, their reactions. None of it fires the event of a level,
    issues a read of a bucket, starts a deferred load of a uri or makes
    a promise of the extension; what does happen is the loader's own
    and what the reactions to the pending loads do to nodes and
    materials. *)
Theorem nothing_after_dispose acts : ∀ w w',
  disposed w → exec acts w = Some w' →
  disposed w' ∧ ∃ es, trace w' = es ++ trace w ∧ Forall abandoned es.
Proof.
  induction acts as [|a acts IH]; intros w w' Hd; simpl.
  - intros [= <-]. split; [done|]. exists []. split; [done|constructor].
  - destruct (step a w) as [w1|] eqn:Hstep; [|done]. intros Hexec.
    destruct (keeps_step a w w1 Hd Hstep) as (Hd1 & es1 & Ht1 & Hes1).
    destruct (IH w1 w' Hd1 Hexec) as (Hd' & es & Ht & Hes).
    split; [done|]. exists (es ++ es1).
    split; [by rewrite Ht, Ht1, app_assoc|by apply Forall_app].
Qed.

(** The reaction to the load of a node of level [i+1] that runs after
    [dispose]: it disposes the node of level [i] and then throws, the
    loader being gone, before the node of level [i+1] is shown. *)
Theorem late_swap_after_dispose w p nodeLODs i node n m :
  _loader w = None → nodeLODs !! i = Some node →
  node_babylonTransformNode w !! node_index node = Some n →
  ∃ w', cb_node_lod p nodeLODs (S i) (VNode m) w = (Throw TypeError, w') ∧
    trace w' = EvDisposeNode p node n :: trace w ∧
    node_babylonTransformNode w' = delete (node_index node) (node_babylonTransformNode w).
Proof.
  intros Hl Hnode Hn. unfold cb_node_lod, dispose_previous, _disposeUnusedMaterials. mrun.
  rewrite Nat.sub_0_r, Hnode. mrun. rewrite Hn. mrun. rewrite Hl. mrun. by eexists.
Qed.

(** * Level 0 outside of LOD sequences *)

(** Requests that are made outside of any LOD sequence fill the bucket
    of level 0, and neither they nor [onReady] read it: [onReady] reads
    the levels from 1 on, and level 0 is read by the turn of level 0 of
    a LOD sequence only. *)
Theorem level0_bucket_waits_for_a_sequence w buffer (req0 : Z * Z) (reqs : list (Z * Z)) :
  range_ready w → uri_missing buffer = true →
  _indexLOD w = None → _bufferLODs w = [] →
  ∃ w1 w2 range,
    host (requests buffer (req0 :: reqs)) w = (Ok tt, w1) ∧
    bucket_range w1 0 = Some range ∧
    onReady w1 = (Ok tt, w2) ∧
    read_ranges (trace w2) = read_ranges (trace w).
Proof.
  intros Hready Hu Hi Hbufs.
  assert (current_level w = 0) as Hlevel by (unfold current_level; by rewrite Hi).
  destruct (requests_fill w buffer req0 reqs) as (w1 & Hrun & Hbufs1 & Hheap & Hl);
    try done.
  { by rewrite Hlevel, Hbufs. }
  rewrite Hlevel, Hbufs in Hbufs1.
  destruct (onReady_reads w1) as (w2 & Hready2 & Hreads2).
  { by eapply range_ready_fields. }
  { intros i Hi'. rewrite Hbufs1 in Hi'. simpl in Hi'. lia. }
  eexists w1, w2, _. split_and!.
  - done.
  - unfold bucket_range. rewrite Hbufs1. simpl. rewrite Hheap. done.
  - done.
  - rewrite Hreads2, Hbufs1. simpl.
    pose proof (requests_reads buffer (req0 :: reqs) w) as Hr. by rewrite Hrun in Hr.
Qed.

Lemma level0_bucket_waits_for_a_sequence_witness :
  ∃ w1 w2,
    host (requests no_uri [(10, 5); (0, 8)]%Z) (initial node_asset 10) = (Ok tt, w1) ∧
    bucket_range w1 0 = Some (0, 15)%Z ∧
    onReady w1 = (Ok tt, w2) ∧ read_ranges (trace w2) = [].
Proof.
  destruct (level0_bucket_waits_for_a_sequence (initial node_asset 10) no_uri (10, 5)%Z
              [(0, 8)%Z]) as (w1 & w2 & range & Hrun & Hrange & Hready & Hreads).
  - exists node_asset. by split_and!.
  - reflexivity.
  - reflexivity.
  - reflexivity.
  - exists w1, w2. split_and!; [exact Hrun| |exact Hready|exact Hreads].
    assert (w1 = (host (requests no_uri [(10, 5); (0, 8)]%Z) (initial node_asset 10)).2) as ->
      by (by rewrite Hrun).
    vm_compute; reflexivity.
Defined.

(** * The further properties on the sample assets *)

(** A cap of 0 on [plain_node]. *)
Lemma lod_list_error_changes_nothing_witness :
  loadNodeAsync load_plain_node plain_node (initial plain_asset 0)
    = (Throw ErrMaxLODs, initial plain_asset 0) ∧
  _loadMaterialAsync load_plain_material fine_material 0 0 (initial plain_asset 0)
    = (Throw ErrMaxLODs, initial plain_asset 0).
Proof.
  split.
  - by apply (proj1 lod_list_error_changes_nothing load_plain_node plain_node
                (initial plain_asset 0) plain_asset [1%Z] ErrMaxLODs).
  - by apply (proj2 lod_list_error_changes_nothing load_plain_material fine_material 0 0
                (initial plain_asset 0) plain_asset [0%Z] ErrMaxLODs).
Defined.

(** The requests (10, 5) then (0, 8): the hull is [[0, 14]]. *)
Lemma bucket_is_hull_witness :
  ∃ w1 b bucket,
    host (requests no_uri [(10, 5); (0, 8)]%Z) (initial node_asset 10) = (Ok tt, w1) ∧
    bufferLOD_heap w1 !! b = Some bucket ∧
    (∃ req, req ∈ [(10, 5); (0, 8)]%Z ∧ start bucket = req.1) ∧
    (∃ req, req ∈ [(10, 5); (0, 8)]%Z ∧ end_ bucket = (req.1 + req.2 - 1)%Z).
Proof.
  destruct (bucket_is_hull (initial node_asset 10) no_uri (10, 5)%Z [(0, 8)%Z])
    as (w1 & b & bucket & Hrun & _ & Hheap & _ & Hs & He).
  - exists node_asset. by split_and!.
  - reflexivity.
  - reflexivity.
  - by exists w1, b, bucket.
Defined.

(** A request outside of any level after the loader's pass over
    [node_scene]: the levels 1 and 2 keep their ranges. *)
Lemma request_touches_one_level_witness :
  ∃ p w', loadBufferAsync no_uri 0 8 (outcome node_asset [AHost node_scene])
            = (Ok (Some p), w') ∧
    bucket_range w' 1 = Some (50, 10)%Z ∧ bucket_range w' 2 = Some (0, 25)%Z ∧
    length (_bufferLODs w') = 3.
Proof.
  destruct (request_touches_one_level (outcome node_asset [AHost node_scene]) no_uri 0 8)
    as (p & w' & Hrun & Hother & Hlen).
  - exists node_asset. split_and!; vm_compute; reflexivity.
  - reflexivity.
  - intros j b. destruct j as [|[|[|j]]]; vm_compute; intros [= <-]; eauto.
  - intros j j' b.
    destruct j as [|[|[|j]]]; vm_compute; intros [= <-];
      destruct j' as [|[|[|j']]]; vm_compute; intros [= ]; reflexivity.
  - exists p, w'. split_and!; [exact Hrun| | |].
    + rewrite (Hother 1) by (vm_compute; lia). vm_compute; reflexivity.
    + rewrite (Hother 2) by (vm_compute; lia). vm_compute; reflexivity.
    + rewrite Hlen. vm_compute; reflexivity.
Defined.

(** After the loader's pass over [late_bucket_scene] level 0 has no
    bucket while level 1 has one: the turn of level 0 of a second LOD
    sequence throws. After the pass over [gap_scene] level 1 has none:
    [onReady] throws and the bucket of level 2 is not read. *)
Lemma missing_bucket_throws_witness :
  (∃ w', loadNodeAsync_after [plain_node] 0 0 None (outcome node_asset [AHost late_bucket_scene])
           = (Throw TypeError, w')) ∧
  (∃ w', onReady (outcome node_asset [AHost gap_scene]) = (Throw TypeError, w') ∧
     read_ranges (trace w') = [(10, 5)%Z]).
Proof.
  split.
  - destruct (proj1 (proj2 missing_bucket_throws)
               (outcome node_asset [AHost late_bucket_scene]) [plain_node] 0 None)
      as (w' & Hrun & _).
    + vm_compute. discriminate.
    + vm_compute; reflexivity.
    + by exists w'.
  - destruct (proj2 (proj2 (proj2 missing_bucket_throws))
               (outcome node_asset [AHost gap_scene]) 1) as (w' & Hrun & Hreads).
    + exists node_asset. split_and!; vm_compute; reflexivity.
    + vm_compute. lia.
    + intros i Hi. lia.
    + vm_compute; reflexivity.
    + exists w'. split; [exact Hrun|]. rewrite Hreads. vm_compute; reflexivity.
Defined.

(** The bytes 2 to 4 of [six_bytes] were read for a bucket that has
    since been widened down to byte 0: the view of the request (2, 1)
    holds byte 4, and the view of the request (2, 2) is a
    [RangeError]. *)
Lemma view_follows_bucket_start_witness :
  let w := set_bufferLOD_heap [{| start := 0; end_ := 4; loaded := 0 |}]
             (initial node_asset 10) in
  (∃ view, cb_buffer_view 0 2 1 (VView bytes_2_to_4) w = (Ok (VView view), w) ∧
     view_bytes view = [x04]) ∧
  cb_buffer_view 0 2 2 (VView bytes_2_to_4) w = (Throw RangeError, w).
Proof.
  intros w.
  assert (fetched six_bytes 2 4 bytes_2_to_4) as Hfetched.
  { unfold fetched. simpl. split_and!; try lia. reflexivity. }
  split.
  - destruct (proj1 (view_follows_bucket_start six_bytes w 0
                       {| start := 0; end_ := 4; loaded := 0 |} bytes_2_to_4 2 4 2 1
                       eq_refl Hfetched ltac:(simpl; lia) ltac:(lia)))
      as (view & Hrun & _ & Hbytes).
    + simpl. lia.
    + exists view. split; [exact Hrun|]. rewrite Hbytes. reflexivity.
  - apply (proj2 (view_follows_bucket_start six_bytes w 0
                    {| start := 0; end_ := 4; loaded := 0 |} bytes_2_to_4 2 4 2 2
                    eq_refl Hfetched ltac:(simpl; lia) ltac:(lia))).
    simpl. lia.
Defined.

(** The reaction to the load of level 1 of the material of mesh 0, after
    the loader's pass over [shared_material_scene]. *)
Lemma material_lod_swaps_witness :
  let w := outcome plain_asset (take 2 shared_material_run) in
  ∃ w', cb_material_lod 3 [coarse_material; fine_material] 1 0 0 (VMaterial 1) w
          = (Ok (VMaterial 1), w') ∧
    trace w' = EvDisposeMaterial (Some 3) 0 :: trace w ∧
    mesh_material w' !! 0 = Some 1 ∧
    tracked_material w' 0 0 = None.
Proof.
  intros w.
  destruct (proj1 (proj2 material_lod_swaps) w 3 [coarse_material; fine_material] 0 0 0 1
              coarse_material [Some {| babylonMaterial := 0; babylonMeshes := [0; 1] |}]
              {| babylonMaterial := 0; babylonMeshes := [0; 1] |})
    as (w' & d' & Hrun & Ht & Hmesh & Hdata & Hgone & _).
  - reflexivity.
  - vm_compute; reflexivity.
  - reflexivity.
  - exists w'. split_and!; [exact Hrun|exact Ht| |].
    + rewrite Hmesh. apply lookup_insert_eq.
    + unfold tracked_material. rewrite Hdata. simpl. rewrite lookup_insert_eq. exact Hgone.
Defined.

(** [plain_node] loaded inside level 1 of another sequence. *)
Lemma marker_null_after_sequence_witness :
  let w := (loadNodeAsync_before 1 (initial plain_asset 10)).2 in
  _indexLOD w = Some 1 ∧
  _indexLOD (loadNodeAsync load_plain_node plain_node w).2 = None.
Proof.
  intros w. split; [reflexivity|].
  apply (proj1 marker_null_after_sequence load_plain_node plain_node [1%Z] w (Some 2)
           (loadNodeAsync load_plain_node plain_node w).2).
  - reflexivity.
  - vm_compute; reflexivity.
Defined.

(** After the loader's pass over [shared_material_scene] both meshes
    have the material of level 0; the material of level 1 is loaded but
    on no mesh yet, and goes. *)
Lemma disposeUnusedMaterials_spec_witness :
  let w := outcome plain_asset [AHost shared_material_scene] in
  ∃ w', _disposeUnusedMaterials None w = (Ok tt, w') ∧
    trace w' = EvDisposeMaterial None 1 :: trace w ∧
    tracked_material w' 0 0 = Some {| babylonMaterial := 0; babylonMeshes := [0; 1] |} ∧
    tracked_material w' 1 0 = None.
Proof.
  intros w.
  destruct (proj1 (disposeUnusedMaterials_spec None w) plain_asset) as (w' & Hrun & Hp & Hdone).
  - vm_compute; reflexivity.
  - exists w'. split; [exact Hrun|].
    assert (w' = (_disposeUnusedMaterials None w).2) as -> by (by rewrite Hrun).
    split_and!; vm_compute; reflexivity.
Defined.

Lemma dispose_spec_witness :
  let w := outcome plain_asset [AHost shared_material_scene] in
  ∃ w', dispose w = (Ok tt, w') ∧ disposed w' ∧ store w' = store w ∧
    dispose w' = (Throw TypeError, w').
Proof.
  intros w.
  destruct (proj1 (dispose_spec w) plain_asset)
    as (w1 & w' & _ & _ & Hrun & Hd & _ & _ & _ & _ & Hstore & _).
  - vm_compute; reflexivity.
  - exists w'. split_and!; [exact Hrun|exact Hd|exact Hstore|].
    apply (proj2 (dispose_spec w')). apply Hd.
Defined.

Lemma hooks_after_dispose_witness :
  let w := outcome plain_asset disposed_run in
  disposed w ∧ onReady w = (Ok tt, w) ∧
  loadBufferAsync no_uri 0 8 w = (Throw TypeError, w) ∧
  loadNodeAsync load_plain_node plain_node w = (Throw TypeError, w).
Proof.
  intros w.
  assert (disposed w) as Hd by (repeat split; vm_compute; reflexivity).
  destruct (hooks_after_dispose w Hd) as (Hready & _ & Hbuffer & Hnode & _).
  split_and!; [exact Hd|exact Hready|apply Hbuffer|apply (Hnode load_plain_node plain_node)].
Defined.

(** Both loads of [plain_scene] settle after [dispose] and the
    reactions run: no level event among what happens. *)
Lemma nothing_after_dispose_witness :
  let w := outcome plain_asset disposed_run in
  ∃ w', exec after_dispose_run w = Some w' ∧ disposed w' ∧
    ∃ es, trace w' = es ++ trace w ∧ Forall abandoned es.
Proof.
  intros w. exists (default w (exec after_dispose_run w)).
  assert (exec after_dispose_run w = Some (default w (exec after_dispose_run w))) as Hexec
    by (vm_compute; reflexivity).
  split; [exact Hexec|].
  apply (nothing_after_dispose after_dispose_run w); [|exact Hexec].
  repeat split; vm_compute; reflexivity.
Defined.

(** The load of level 1 of [plain_node] settles after [dispose]. *)
Lemma late_swap_after_dispose_witness :
  let w := outcome plain_asset disposed_run in
  ∃ w', cb_node_lod 4 [{| node_index := 1; node_lod := None |}; plain_node] 1 (VNode 1) w
          = (Throw TypeError, w') ∧
    trace w' = EvDisposeNode 4 {| node_index := 1; node_lod := None |} 0 :: trace w.
Proof.
  intros w.
  destruct (late_swap_after_dispose w 4 [{| node_index := 1; node_lod := None |}; plain_node]
              0 {| node_index := 1; node_lod := None |} 0 1) as (w' & Hrun & Ht & _).
  - vm_compute; reflexivity.
  - reflexivity.
  - vm_compute; reflexivity.
  - by exists w'.
Defined.
